(** * impala_to_trino: the Impala-to-Trino SQL rewriter

    A shallow embedding of [src/impala_to_trino.py] and the properties of
    its rule engine, post-processing pass and validator.

    Modelling choices.
    - A Python [str] is a Rocq [string]: a sequence of code points below
      256.  On that range the character tables below ([isspace], [lower],
      [isword]) are the ones CPython uses for [str.split], [str.lower] and
      for [\s], [\b], [\d] and [re.IGNORECASE] in [re].
    - Python [int]s are [Z]; [len] results are [nat] and are injected.
    - The [re] module is embedded as a backtracking matcher over the
      fragment of regular expressions the module's patterns are written
      in; alternatives are tried in the order [re] tries them (greedy
      repetition first, then shorter).
    - An exception is a value; a call that may raise returns a [result].
      The mutable locals [warnings] and [conversion_stats] are threaded
      explicitly.
    - [debug] only prints; it is left out. *)

From Stdlib Require Import List String Ascii ZArith Lia Bool Arith.
Import ListNotations.

Local Open Scope string_scope.
Local Open Scope list_scope.
Local Open Scope nat_scope.

(** ** Exceptions *)

Inductive exn : Type :=
| PyExc (kind : string) (msg : string).

(** [str(e)] *)
Definition str_exn (e : exn) : string :=
  match e with PyExc _ m => m end.

(** [value[i]] out of range on a list *)
Definition IndexError : exn := PyExc "IndexError" "list index out of range".

Inductive result (A : Type) : Type :=
| Ok (a : A)
| Raise (e : exn).
Arguments Ok {A} a.
Arguments Raise {A} e.

Definition rmap {A B} (f : A -> B) (r : result A) : result B :=
  match r with Ok a => Ok (f a) | Raise e => Raise e end.

(** ** Python strings *)

Module Py.

Definition text := list ascii.

Definition code (c : ascii) : nat := nat_of_ascii c.

Definition between (lo hi : nat) (c : ascii) : bool :=
  (lo <=? code c) && (code c <=? hi).

(** [str.isspace] on one character *)
Definition isspace (c : ascii) : bool :=
  between 9 13 c || between 28 32 c || (code c =? 133) || (code c =? 160).

(** decimal digit, [\d] *)
Definition isdigit (c : ascii) : bool := between 48 57 c.

(** word character, [\w]: alphanumeric or underscore *)
Definition isword (c : ascii) : bool :=
  between 48 57 c || between 65 90 c || between 97 122 c || (code c =? 95)
  || (code c =? 170) || between 178 179 c || (code c =? 181)
  || between 185 186 c || between 188 190 c
  || between 192 214 c || between 216 246 c || between 248 255 c.

(** lower-casing of one character *)
Definition lower_char (c : ascii) : ascii :=
  if between 65 90 c || between 192 214 c || between 216 222 c
  then ascii_of_nat (code c + 32) else c.

Definition lower_text (s : text) : text := map lower_char s.

(** [s.lower()] *)
Definition lower (s : string) : string :=
  string_of_list_ascii (lower_text (list_ascii_of_string s)).

(** [f"..."]: the pieces of a formatted string, in order *)
Definition fstr (pieces : list string) : string := String.concat "" pieces.

(** [s.split()]: the maximal runs of non-space characters *)
Fixpoint split_text (cur : text) (s : text) : list text :=
  match s with
  | [] => match cur with [] => [] | _ => [rev cur] end
  | c :: s' =>
      if isspace c
      then match cur with
           | [] => split_text [] s'
           | _ => rev cur :: split_text [] s'
           end
      else split_text (c :: cur) s'
  end.

Definition split (s : string) : list string :=
  map string_of_list_ascii (split_text [] (list_ascii_of_string s)).

Fixpoint lstrip_text (s : text) : text :=
  match s with
  | c :: s' => if isspace c then lstrip_text s' else s
  | [] => []
  end.

(** [s.strip()] *)
Definition strip (s : string) : string :=
  string_of_list_ascii
    (rev (lstrip_text (rev (lstrip_text (list_ascii_of_string s))))).

(** [s.endswith(c)] for a one-character suffix *)
Definition endswith (s : string) (c : ascii) : bool :=
  match rev (list_ascii_of_string s) with
  | d :: _ => Ascii.eqb d c
  | [] => false
  end.

(** [s[:-1]] *)
Definition drop_last (s : string) : string :=
  string_of_list_ascii (removelast (list_ascii_of_string s)).

(** [s.replace(old, new)] for a one-character [old] *)
Definition replace (old : ascii) (new : string) (s : string) : string :=
  string_of_list_ascii
    (flat_map (fun c => if Ascii.eqb c old then list_ascii_of_string new else [c])
              (list_ascii_of_string s)).

(** [s.count(c)] for a one-character needle *)
Definition count (c : ascii) (s : string) : nat :=
  List.length (filter (Ascii.eqb c) (list_ascii_of_string s)).

Fixpoint prefix_text (p s : text) : bool :=
  match p, s with
  | [], _ => true
  | a :: p', b :: s' => Ascii.eqb a b && prefix_text p' s'
  | _ :: _, [] => false
  end.

Fixpoint contains_text (p s : text) : bool :=
  prefix_text p s ||
  match s with
  | [] => false
  | _ :: s' => contains_text p s'
  end.

(** [needle in s] *)
Definition contains (needle s : string) : bool :=
  contains_text (list_ascii_of_string needle) (list_ascii_of_string s).

(** [d.get(k, default)] on a dict written as an association list *)
Fixpoint dict_get {V} (d : list (string * V)) (k : string) (default : V) : V :=
  match d with
  | [] => default
  | (k', v) :: d' => if String.eqb k' k then v else dict_get d' k default
  end.

(** [d[k] = v]: overwrite in place, or append a new key at the end *)
Fixpoint dict_set {V} (d : list (string * V)) (k : string) (v : V)
  : list (string * V) :=
  match d with
  | [] => [(k, v)]
  | (k', v') :: d' =>
      if String.eqb k' k then (k', v) :: d' else (k', v') :: dict_set d' k v
  end.

(** [value[i]] on a list *)
Definition index {A} (l : list A) (i : nat) : result A :=
  match nth_error l i with
  | Some a => Ok a
  | None => Raise IndexError
  end.

End Py.

(** ** The [re] module *)

Module Re.

Import Py.

(** One-character items: a literal, [[^c]], [\s], [\d]. *)
Inductive cclass : Type :=
| Lit (c : ascii)
| NotLit (c : ascii)
| Space
| Digit.

(** The fragment of patterns used by the module. Repetition is only ever
    applied to a one-character item. *)
Inductive regex : Type :=
| Eps
| Chr (cl : cclass)
| Star (cl : cclass)
| Plus (cl : cclass)
| WordB
| Grp (n : nat) (r : regex)
| Seq (r1 r2 : regex).

(** [ic] is [re.IGNORECASE] *)
Definition cmatch (ic : bool) (cl : cclass) (c : ascii) : bool :=
  match cl with
  | Lit p =>
      if ic then Ascii.eqb (lower_char c) (lower_char p) else Ascii.eqb c p
  | NotLit p =>
      negb (if ic then Ascii.eqb (lower_char c) (lower_char p)
            else Ascii.eqb c p)
  | Space => isspace c
  | Digit => isdigit c
  end.

Definition captures := list (nat * text).

Definition wordish (c : option ascii) : bool :=
  match c with Some a => isword a | None => false end.

(** [\b]: exactly one of the characters around the position is a word
    character *)
Definition at_boundary (prev : option ascii) (s : text) : bool :=
  xorb (wordish prev) (wordish (hd_error s)).

Section Matcher.
Context {A : Type}.
Variable ic : bool.

(** A continuation receives the character before the position, the
    rest of the text and the groups captured so far. *)
Definition cont := option ascii -> text -> captures -> option A.

(** Greedy [cl*]: consume as long as possible, then give characters
    back one at a time until the continuation succeeds. *)
Fixpoint star (cl : cclass) (prev : option ascii) (s : text)
         (caps : captures) (k : cont) : option A :=
  match s with
  | c :: s' =>
      if cmatch ic cl c
      then match star cl (Some c) s' caps k with
           | Some r => Some r
           | None => k prev s caps
           end
      else k prev s caps
  | [] => k prev s caps
  end.

Fixpoint rmatch (r : regex) (prev : option ascii) (s : text)
         (caps : captures) (k : cont) : option A :=
  match r with
  | Eps => k prev s caps
  | Chr cl =>
      match s with
      | c :: s' => if cmatch ic cl c then k (Some c) s' caps else None
      | [] => None
      end
  | Star cl => star cl prev s caps k
  | Plus cl =>
      match s with
      | c :: s' => if cmatch ic cl c then star cl (Some c) s' caps k else None
      | [] => None
      end
  | WordB => if at_boundary prev s then k prev s caps else None
  | Grp n r' =>
      rmatch r' prev s caps
             (fun p' s' caps' =>
                k p' s' ((n, firstn (List.length s - List.length s') s) :: caps'))
  | Seq r1 r2 =>
      rmatch r1 prev s caps (fun p' s' caps' => rmatch r2 p' s' caps' k)
  end.
End Matcher.

(** A match object: the captured groups and the matched span. *)
Record match_obj : Type := { groups : captures; span : text }.

Fixpoint lookup (n : nat) (caps : captures) : text :=
  match caps with
  | [] => []
  | (m, t) :: caps' => if Nat.eqb m n then t else lookup n caps'
  end.

(** [match.group(n)] *)
Definition group (m : match_obj) (n : nat) : string :=
  string_of_list_ascii
    (match n with O => span m | _ => lookup n (groups m) end).

(** The match that starts at the current position, with its length. *)
Definition match_here (ic : bool) (r : regex) (prev : option ascii) (s : text)
  : option (match_obj * nat) :=
  rmatch ic r prev s []
         (fun _ s' caps =>
            let n := List.length s - List.length s' in
            Some ({| groups := caps; span := firstn n s |}, n)).

(** The second argument of [re.sub]: a template string or a callable. *)
Inductive replacement : Type :=
| Template (t : string)
| Callable (f : match_obj -> result string).

(** Expansion of a template: [\\] is a backslash, [\1]..[\9] a group. *)
Fixpoint expand (t : text) (m : match_obj) : text :=
  match t with
  | "\"%char :: rest =>
      match rest with
      | d :: t' =>
          if Ascii.eqb d "\"%char then "\"%char :: expand t' m
          else if between 49 57 d
               then lookup (code d - 48) (groups m) ++ expand t' m
               else "\"%char :: expand rest m
      | [] => ["\"%char]
      end
  | c :: t' => c :: expand t' m
  | [] => []
  end.

Definition apply_repl (repl : replacement) (m : match_obj) : result text :=
  match repl with
  | Template t => Ok (expand (list_ascii_of_string t) m)
  | Callable f => rmap list_ascii_of_string (f m)
  end.

Section Scan.
Variable ic : bool.
Variable r : regex.

(** Leftmost, non-overlapping matches, left to right. [skip] counts
    the characters of the last match still to be passed over. A match
    of length zero is followed by a one-character step. *)
Fixpoint sub_loop (repl : replacement) (skip : nat) (prev : option ascii)
         (s : text) : result text :=
  match skip with
  | S k =>
      match s with
      | [] => Ok []
      | c :: s' => sub_loop repl k (Some c) s'
      end
  | O =>
      match match_here ic r prev s with
      | Some (m, n) =>
          match apply_repl repl m with
          | Raise e => Raise e
          | Ok out =>
              match s with
              | [] => Ok out
              | c :: s' =>
                  match n with
                  | O => rmap (fun t => out ++ c :: t)
                              (sub_loop repl 0 (Some c) s')
                  | S k => rmap (app out) (sub_loop repl k (Some c) s')
                  end
              end
          end
      | None =>
          match s with
          | [] => Ok []
          | c :: s' => rmap (cons c) (sub_loop repl 0 (Some c) s')
          end
      end
  end.

Fixpoint count_loop (skip : nat) (prev : option ascii) (s : text) : nat :=
  match skip with
  | S k =>
      match s with
      | [] => 0
      | c :: s' => count_loop k (Some c) s'
      end
  | O =>
      match match_here ic r prev s with
      | Some (_, n) =>
          match s with
          | [] => 1
          | c :: s' => S (count_loop (Nat.pred n) (Some c) s')
          end
      | None =>
          match s with
          | [] => 0
          | c :: s' => count_loop 0 (Some c) s'
          end
      end
  end.
End Scan.

(** [re.sub(pattern, repl, s, flags)] *)
Definition sub (r : regex) (repl : replacement) (s : string) (ic : bool)
  : result string :=
  rmap string_of_list_ascii (sub_loop ic r repl 0 None (list_ascii_of_string s)).

(** [len(re.findall(pattern, s, flags))] *)
Definition findall_len (r : regex) (s : string) (ic : bool) : nat :=
  count_loop ic r 0 None (list_ascii_of_string s).

(** Pattern notation *)
Definition lit (s : string) : regex :=
  fold_right (fun c r => Seq (Chr (Lit c)) r) Eps (list_ascii_of_string s).

End Re.

Import Py Re.

Notation "r1 ;; r2" := (Seq r1 r2) (at level 61, right associativity).

Notation "'let*' x := e 'in' k" :=
  (match e with Ok x => k | Raise err => Raise err end)
    (at level 10, x name, e at level 100, k at level 200).

(** ** The rule table *)

Record rule : Type := {
  func_name : string;
  pattern : regex;
  replacement : Re.replacement;
  description : string
}.

(** [name\s*\(([^,]+),\s*([^)]+)\)] *)
Definition call2 (name : string) : regex :=
  lit name ;; Star Space ;; Chr (Lit "(") ;;
  Grp 1 (Plus (NotLit ",")) ;; Chr (Lit ",") ;; Star Space ;;
  Grp 2 (Plus (NotLit ")")) ;; Chr (Lit ")").

(** [name\s*\(([^)]+)\)] *)
Definition call1 (name : string) : regex :=
  lit name ;; Star Space ;; Chr (Lit "(") ;;
  Grp 1 (Plus (NotLit ")")) ;; Chr (Lit ")").

(** [call1] with the group repeated zero or more times: the argument
    may be empty *)
Definition call01 (name : string) : regex :=
  lit name ;; Star Space ;; Chr (Lit "(") ;;
  Grp 1 (Star (NotLit ")")) ;; Chr (Lit ")").

(** [name\s*\(\)] *)
Definition call0 (name : string) : regex :=
  lit name ;; Star Space ;; Chr (Lit "(") ;; Chr (Lit ")").

Definition _replace_date_add (m : match_obj) : result string :=
  let date_part := group m 1 in
  let value := split (group m 2) in
  if List.length value =? 1
  then Ok (fstr ["date_add('day', "; group m 2; ", CAST("; date_part;
                 " AS TIMESTAMP))"])
  else
    let* value_part := index value 1 in
    let* unit := index value 2 in
    let unit := if endswith unit "s" then drop_last unit else unit in
    Ok (fstr ["date_add('"; unit; "', "; value_part; ", "; date_part; ")"]).

Definition part_mapping : list (string * string) :=
  [ ("'year'", "year"); ("'month'", "month"); ("'day'", "day");
    ("'hour'", "hour"); ("'minute'", "minute"); ("'second'", "second") ].

Definition _replace_date_part (m : match_obj) : result string :=
  let part := lower (strip (group m 1)) in
  let date := strip (group m 2) in
  let part := replace "'" "" (dict_get part_mapping part part) in
  Ok (fstr ["extract("; part; " FROM "; date; ")"]).

Definition _replace_date_sub (m : match_obj) : result string :=
  let date_part := group m 1 in
  let value := split (group m 2) in
  if List.length value =? 1
  then Ok (fstr ["date_add('day', -"; group m 2; ", "; date_part; ")"])
  else
    let* value_part := index value 1 in
    let* unit := index value 2 in
    let unit := if endswith unit "s" then drop_last unit else unit in
    Ok (fstr ["date_add('"; unit; "', -"; value_part; ", "; date_part; ")"]).

(** A [lambda match: f"..."] *)
Definition lambda (f : match_obj -> list string) : Re.replacement :=
  Callable (fun m => Ok (fstr (f m))).

Definition function_mappings : list rule :=
  [ {| func_name := "add_months";
       pattern := call2 "add_months";
       replacement := lambda (fun m =>
         ["date_add('month', "; group m 2; ", CAST("; group m 1; " AS TIMESTAMP))"]);
       description := "Convert add_months to date_add with month interval" |};
    {| func_name := "adddate";
       pattern := call2 "adddate";
       replacement := lambda (fun m =>
         ["date_add('day', "; group m 2; ", "; group m 1; ")"]);
       description := "Convert adddate to date_add with day interval" |};
    {| func_name := "date_add";
       pattern := call2 "date_add";
       replacement := Callable _replace_date_add;
       description := "Convert date_add to Trino syntax" |};
    {| func_name := "date_part";
       pattern := call2 "DATE_PART";
       replacement := Callable _replace_date_part;
       description := "Convert date_part to extract function" |};
    {| func_name := "date_sub";
       pattern := call2 "DATE_SUB";
       replacement := Callable _replace_date_sub;
       description := "Convert date_sub to date_add with negative values" |};
    {| func_name := "datediff";
       pattern := call2 "datediff";
       replacement := lambda (fun m =>
         ["date_diff('day', "; group m 2; ", "; group m 1; ")"]);
       description := "Convert datediff to date_diff" |};
    {| func_name := "dayofmonth";
       pattern := call1 "dayofmonth";
       replacement := lambda (fun m => ["DAY("; group m 1; ")"]);
       description := "Convert dayofmonth to DAY function" |};
    {| func_name := "dayofweek";
       pattern := call1 "dayofweek";
       replacement := lambda (fun m =>
         ["IF(day_of_week("; group m 1; ")+1 > 7, 1, day_of_week("; group m 1;
          ")+1)"]);
       description := "Convert dayofweek to day_of_week with adjustment" |};
    {| func_name := "from_utc_timestamp";
       pattern := call2 "from_utc_timestamp";
       replacement := lambda (fun m =>
         ["at_timezone("; group m 1; ", "; group m 2; ")"]);
       description := "Convert from_utc_timestamp to at_timezone" |};
    {| func_name := "to_utc_timestamp";
       pattern := call2 "to_utc_timestamp";
       replacement := lambda (fun m => ["at_timezone("; group m 1; ", 'UTC')"]);
       description := "Convert to_utc_timestamp to at_timezone with UTC" |};
    {| func_name := "group_concat";
       pattern := call1 "group_concat";
       replacement := lambda (fun m =>
         ["array_join(array_agg("; group m 1; "), ',')"]);
       description := "Convert group_concat to array_join with array_agg" |};
    {| func_name := "ifnull";
       pattern := call2 "ifnull";
       replacement := lambda (fun m =>
         ["COALESCE("; group m 1; ", "; group m 2; ")"]);
       description := "Convert ifnull to COALESCE" |};
    {| func_name := "instr";
       pattern := call2 "instr";
       replacement := lambda (fun m =>
         ["strpos("; group m 1; ", "; group m 2; ")"]);
       description := "Convert instr to strpos" |};
    {| func_name := "int_months_between";
       pattern := call2 "int_months_between";
       replacement := lambda (fun m =>
         ["date_diff('month', "; group m 2; ", "; group m 1; ")"]);
       description := "Convert int_months_between to date_diff with month interval" |};
    {| func_name := "left";
       pattern := call2 "left";
       replacement := lambda (fun m =>
         ["substring("; group m 1; ", 1, "; group m 2; ")"]);
       description := "Convert left to substring" |};
    {| func_name := "strleft";
       pattern := call2 "strleft";
       replacement := lambda (fun m =>
         ["substring("; group m 1; ", 1, "; group m 2; ")"]);
       description := "Convert strleft to substring" |};
    {| func_name := "strright";
       pattern := call2 "strright";
       replacement := lambda (fun m =>
         ["substring("; group m 1; ", -"; group m 2; ")"]);
       description := "Convert strright to substring with negative start" |};
    {| func_name := "right";
       pattern := call2 "right";
       replacement := lambda (fun m =>
         ["substring("; group m 1; ", -"; group m 2; ")"]);
       description := "Convert right to substring with negative start" |};
    {| func_name := "to_date";
       pattern := call1 "to_date";
       replacement := lambda (fun m => ["date("; group m 1; ")"]);
       description := "Convert to_date to date function" |};
    {| func_name := "trunc";
       pattern := call2 "trunc";
       replacement := lambda (fun m =>
         ["date_trunc("; group m 2; ", "; group m 1; ")"]);
       description := "Convert trunc to date_trunc" |};
    {| func_name := "unix_timestamp";
       pattern := call01 "unix_timestamp";
       replacement := lambda (fun m =>
         ["to_unixtime(";
          (if String.eqb (group m 1) "" then "now()" else group m 1); ")"]);
       description := "Convert unix_timestamp to to_unixtime" |};
    {| func_name := "weekofyear";
       pattern := call1 "weekofyear";
       replacement := lambda (fun m => ["week("; group m 1; ")"]);
       description := "Convert weekofyear to week function" |};
    {| func_name := "current_timestamp";
       pattern := call0 "current_timestamp";
       replacement := Template "CAST(NOW() AS TIMESTAMP)";
       description := "Convert current_timestamp to NOW with CAST" |} ].

(** ** The rule engine *)

Record conversion_stats : Type := {
  total_conversions : Z;
  functions_converted : list (string * Z);
  errors : Z
}.

Record state : Type := {
  sql_content : string;
  warnings : list string;
  stats : conversion_stats
}.

Definition add_error (st : conversion_stats) : conversion_stats :=
  {| total_conversions := total_conversions st;
     functions_converted := functions_converted st;
     errors := (errors st + 1)%Z |}.

Definition add_conversions (name : string) (n : Z) (st : conversion_stats)
  : conversion_stats :=
  {| total_conversions := (total_conversions st + n)%Z;
     functions_converted := dict_set (functions_converted st) name n;
     errors := errors st |}.

(** One iteration of the loop over [function_mappings.items()], with its
    [try] / [except Exception]. *)
Definition apply_rule (st : state) (mapping : rule) : state :=
  let matches_before := findall_len (pattern mapping) (sql_content st) true in
  match Re.sub (pattern mapping) (replacement mapping) (sql_content st) true with
  | Ok new_sql =>
      let matches_after := findall_len (pattern mapping) new_sql true in
      let conversions_made :=
        (Z.of_nat matches_before - Z.of_nat matches_after)%Z in
      {| sql_content := new_sql;
         warnings := warnings st;
         stats := if (0 <? conversions_made)%Z
                  then add_conversions (func_name mapping) conversions_made (stats st)
                  else stats st |}
  | Raise e =>
      {| sql_content := sql_content st;
         warnings := warnings st ++
           [fstr ["Warning: Failed to apply "; func_name mapping;
                  " conversion: "; str_exn e]];
         stats := add_error (stats st) |}
  end.

Definition run_rules (rules : list rule) (st : state) : state :=
  fold_left apply_rule rules st.

Definition initial (sql : string) : state :=
  {| sql_content := sql;
     warnings := [];
     stats := {| total_conversions := 0; functions_converted := []; errors := 0 |} |}.

(** ** Post-processing *)

(** [\bword\b] *)
Definition whole_word (w : string) : regex := WordB ;; lit w ;; WordB.

Definition type_mappings : list (regex * string) :=
  [ (whole_word "string", "VARCHAR");
    (whole_word "float", "DOUBLE");
    (whole_word "int", "INTEGER");
    (whole_word "bigint", "BIGINT") ].

(** [\binterval (\d+) ] *)
Definition interval_pattern : regex :=
  WordB ;; lit "interval " ;; Grp 1 (Plus Digit) ;; Chr (Lit " ").

(** [\\+] *)
Definition backslashes : regex := Plus (Lit "\").

Definition function_replacements : list (regex * string) :=
  [ (lit "default.gb_format_datetime", "gb_format_datetime");
    (lit "default.gb_json_parser", "gb_json_parser");
    (lit "default.gb_to_est", "gb_to_est");
    (lit "default.gb_completed_months", "gb_completed_months");
    (whole_word "tempdb", "caastle_insights");
    (lit "'EDT'", "'EST5EDT'") ].

(** [for old, new in table.items(): s = re.sub(old, new, s, IGNORECASE)] *)
Fixpoint sub_all (table : list (regex * string)) (s : string) : result string :=
  match table with
  | [] => Ok s
  | (old, new) :: rest =>
      let* s' := Re.sub old (Template new) s true in
      sub_all rest s'
  end.

Definition _apply_additional_transformations (sql_content : string)
  : result string :=
  let* sql_content := sub_all type_mappings sql_content in
  let sql_content := replace "`" (String "034" "") sql_content in
  let* sql_content :=
    Re.sub interval_pattern (Template "INTERVAL '\1' ") sql_content true in
  let* sql_content := Re.sub backslashes (Template "\\\\") sql_content false in
  sub_all function_replacements sql_content.

(** ** Validation *)

Definition _validate_converted_sql (sql_content : string) : list string :=
  (if contains "add_months(" (lower sql_content)
   then ["Potential unconverted add_months function detected"] else [])
  ++ (if contains "datediff(" (lower sql_content)
      then ["Potential unconverted datediff function detected"] else [])
  ++ (if contains "current_timestamp()" (lower sql_content)
      then ["Potential unconverted current_timestamp function detected"] else [])
  ++ (if negb (count "(" sql_content =? count ")" sql_content)
      then ["Unbalanced parentheses detected"] else [])
  ++ (if contains "group_concat(" (lower sql_content)
      then ["group_concat function detected - verify conversion to array_join"]
      else []).

(** ** The entry point *)

(** What the caller observes: a returned triple, or an exception. In the
    second case the locals as they stood when the exception left the
    function are kept for the statements about the [except] block. *)
Inductive outcome : Type :=
| Returned (converted_sql : string) (warnings : list string)
           (conversion_stats : conversion_stats)
| Raised (e : exn) (warnings : list string) (conversion_stats : conversion_stats).

Section EntryPoint.
(** The two calls made after the loop, as calls that may raise. *)
Variable additional : string -> result string.
Variable validate : string -> result (list string).

(** The outer [except Exception as e: ...; raise] *)
Definition fatal (st : state) (e : exn) : outcome :=
  Raised e
         (warnings st ++ [fstr ["Failed to convert SQL: "; str_exn e]])
         (add_error (stats st)).

Definition convert (sql : string) : outcome :=
  let st := run_rules function_mappings (initial sql) in
  match additional (sql_content st) with
  | Raise e => fatal st e
  | Ok sql' =>
      match validate sql' with
      | Raise e => fatal st e
      | Ok validation_warnings =>
          Returned sql' (warnings st ++ validation_warnings) (stats st)
      end
  end.
End EntryPoint.

Definition replace_func (sql_content : string) : outcome :=
  convert _apply_additional_transformations
          (fun s => Ok (_validate_converted_sql s))
          sql_content.

(** ** Vocabulary of the statements *)

(** The texts a pattern can match, captures and [\b] aside. *)
Inductive lang (ic : bool) : regex -> text -> Prop :=
| lang_eps : lang ic Eps []
| lang_chr cl c : cmatch ic cl c = true -> lang ic (Chr cl) [c]
| lang_star cl m : Forall (fun c => cmatch ic cl c = true) m -> lang ic (Star cl) m
| lang_plus cl m :
    m <> [] -> Forall (fun c => cmatch ic cl c = true) m -> lang ic (Plus cl) m
| lang_wordb : lang ic WordB []
| lang_grp n r m : lang ic r m -> lang ic (Grp n r) m
| lang_seq r1 r2 m1 m2 :
    lang ic r1 m1 -> lang ic r2 m2 -> lang ic (Seq r1 r2) (m1 ++ m2).

(** Every one-character item of the pattern satisfies [P]. *)
Fixpoint classes (P : cclass -> Prop) (r : regex) : Prop :=
  match r with
  | Eps | WordB => True
  | Chr cl | Star cl | Plus cl => P cl
  | Grp _ r' => classes P r'
  | Seq r1 r2 => classes P r1 /\ classes P r2
  end.

(** The texts group [n] of the pattern can capture. *)
Fixpoint captured (ic : bool) (r : regex) (n : nat) (t : text) : Prop :=
  match r with
  | Grp m r' => (m = n /\ lang ic r' t) \/ captured ic r' n t
  | Seq r1 r2 => captured ic r1 n t \/ captured ic r2 n t
  | _ => False
  end.

(** The pattern cannot match the empty text. *)
Fixpoint consuming (r : regex) : bool :=
  match r with
  | Eps | WordB | Star _ => false
  | Chr _ | Plus _ => true
  | Grp _ r' => consuming r'
  | Seq r1 r2 => consuming r1 || consuming r2
  end.

(** The rule named [date_add], third in the table. *)
Definition date_add_rule : rule :=
  {| func_name := "date_add";
     pattern := call2 "date_add";
     replacement := Callable _replace_date_add;
     description := "Convert date_add to Trino syntax" |}.

(** The keys of a dict, and the sum of its values. *)
Definition keys {V} (d : list (string * V)) : list string := map fst d.

Definition sum_counts (d : list (string * Z)) : Z :=
  fold_right (fun kv acc => (snd kv + acc)%Z) 0%Z d.

(** The warning the [except] clause of the loop appends. *)
Definition rule_warning (name : string) (e : exn) : string :=
  fstr ["Warning: Failed to apply "; name; " conversion: "; str_exn e].

(** The warning the outer [except] clause appends. *)
Definition fatal_warning (e : exn) : string :=
  fstr ["Failed to convert SQL: "; str_exn e].

(** Texts of white space, and texts equal to a name up to case. *)
Definition spaces (ws : text) : Prop := Forall (fun c => isspace c = true) ws.

Definition same_name (nm : text) (name : string) : Prop :=
  lower_text nm = lower_text (list_ascii_of_string name).

(** The second argument as [call2] captures it: [\s*] gives back its
    last character when nothing else is left for the group. *)
Definition arg2 (B : text) : text :=
  match lstrip_text B with
  | [] => [last B " "%char]
  | g => g
  end.

(** A unit name without its plural [s]. *)
Definition singular (unit : string) : string :=
  if endswith unit "s" then drop_last unit else unit.

(** The lengths of the maximal runs of backslashes of a text, left to
    right; [cur] is the length of the run being read. *)
Fixpoint runs_from (cur : nat) (s : text) : list nat :=
  match s with
  | [] => match cur with O => [] | _ => [cur] end
  | c :: s' =>
      if Ascii.eqb c "\"
      then runs_from (S cur) s'
      else match cur with
           | O => runs_from 0 s'
           | _ => cur :: runs_from 0 s'
           end
  end.

Definition backslash_runs (s : string) : list nat :=
  runs_from 0 (list_ascii_of_string s).

(** No one-character item of the pattern accepts a backslash. *)
Fixpoint clean (ic : bool) (r : regex) : bool :=
  match r with
  | Eps | WordB => true
  | Chr cl | Star cl | Plus cl => negb (cmatch ic cl "\")
  | Grp _ r' => clean ic r'
  | Seq r1 r2 => clean ic r1 && clean ic r2
  end.

(** The template starts with an ordinary character and expands to a
    text without backslashes when the groups have none. *)
Fixpoint plain_template (t : text) : bool :=
  match t with
  | "\"%char :: rest =>
      match rest with
      | d :: t' => negb (Ascii.eqb d "\") && between 49 57 d && plain_template t'
      | [] => false
      end
  | _ :: t' => plain_template t'
  | [] => true
  end.

Definition good_template (t : string) : bool :=
  match list_ascii_of_string t with
  | c :: _ => negb (Ascii.eqb c "\") && plain_template (list_ascii_of_string t)
  | [] => false
  end.

(** The length of the longest prefix without [c]. *)
Fixpoint idx (c : ascii) (s : text) : nat :=
  match s with
  | [] => 0
  | a :: s' => if Ascii.eqb a c then 0 else S (idx c s')
  end.

(** The texts [_replace_date_add] returns: [date_add('u', ...)], with
    no closing parenthesis in [u]. *)
Definition date_add_output (R : text) : Prop :=
  exists u tail,
    R = list_ascii_of_string "date_add('" ++ u ++ list_ascii_of_string "', "
        ++ tail ++ [")"%char] /\
    ~ In ")"%char u.


(** A call written out: [name(arg, arg)]. *)
Definition call (name : string) (args : list string) : string :=
  (name ++ "(" ++ String.concat ", " args ++ ")")%string.


(** The character before the position reached after passing over [m]. *)
Definition prev_after (prev : option ascii) (m : text) : option ascii :=
  fold_left (fun _ c => Some c) m prev.

(** What the loop maintains on [conversion_stats]. *)
Definition stats_ok (cs : conversion_stats) : Prop :=
  Forall (fun kv => (1 <= snd kv)%Z) (functions_converted cs) /\
  total_conversions cs = sum_counts (functions_converted cs) /\
  (0 <= errors cs)%Z.

Definition unbalanced_warning : string := "Unbalanced parentheses detected".

(** The text does not start with a character of the class. *)
Definition stops (ic : bool) (cl : cclass) (s : text) : Prop :=
  match s with
  | [] => True
  | c :: _ => cmatch ic cl c = false
  end.

(** The text of a two-argument call. *)
Definition call_text (nm ws g1 B : text) : text :=
  nm ++ ws ++ "("%char :: g1 ++ ","%char :: B ++ [")"%char].

(** The arguments of a call written [name(d, v)]. *)
Definition first_arg (d : string) : Prop :=
  d <> "" /\ ~ In ","%char (list_ascii_of_string d).

Definition second_arg (v : string) : Prop :=
  split v <> [] /\ ~ In ")"%char (list_ascii_of_string v).

(** The match object of [name(d, v)]: group 2 starts at the first
    character of [v] that is not white space. *)
Definition call_match (nm d v : string) : match_obj :=
  {| groups := [(2, lstrip_text (list_ascii_of_string v));
                (1, list_ascii_of_string d)];
     span := list_ascii_of_string (nm ++ "(" ++ d ++ ", " ++ v ++ ")")%string |}.

Definition no_backslash (s : text) : Prop := Forall (fun c => c <> "\"%char) s.

Definition flush (cur : nat) : list nat :=
  match cur with O => [] | _ => [cur] end.


Definition mem (name : string) (l : list string) : bool :=
  existsb (String.eqb name) l.

(** ** Texts with unknown parts

    The statement on single calls is about calls with arbitrary
    arguments. A text is cut at its parentheses and commas: delimiters,
    segments that are known and segments that are not. What follows
    decides on such a text that a call pattern matches nowhere, and
    follows the post-processing pass through it. *)

(** The literal a pattern starts with, when the pattern is a call
    pattern: a name, [\s*] and an opening parenthesis. *)
Fixpoint unlit (r : regex) : option text :=
  match r with
  | Eps => Some []
  | Seq (Chr (Lit c)) r' =>
      match unlit r' with Some w => Some (c :: w) | None => None end
  | _ => None
  end.

(** The name a call pattern starts with: the pattern is the name, [\s*],
    an opening parenthesis and the rest. *)
Definition head_of (r : regex) : option text :=
  match r with
  | Seq l (Seq (Star Space) (Seq (Chr (Lit p)) _)) =>
      if Ascii.eqb p "(" then unlit l else None
  | _ => None
  end.

(** A text before an opening parenthesis ends with the name [w] of a call. *)
Definition header (w : text) (pre : text) : Prop :=
  exists pre' nm ws,
    pre = pre' ++ nm ++ ws /\ lower_text nm = lower_text w /\ spaces ws.

(** Texts with unknown parts: delimiters, known segments and unknown
    segments. *)
Inductive item : Type :=
| D (c : ascii)
| K (t : string)
| U (t : text).

(** The text of an item, and of a list of items. *)
Definition item_text (i : item) : text :=
  match i with
  | D c => [c]
  | K t => list_ascii_of_string t
  | U t => t
  end.

Definition inst (items : list item) : text := flat_map item_text items.

(** Parentheses and commas; a segment has none. *)
Definition delimiter (c : ascii) : bool :=
  Ascii.eqb c "(" || Ascii.eqb c ")" || Ascii.eqb c ",".

Definition segment (t : text) : Prop := Forall (fun c => delimiter c = false) t.

Definition item_ok (i : item) : Prop :=
  match i with
  | D c => delimiter c = true
  | K t => segment (list_ascii_of_string t)
  | U t => segment t
  end.

(** The text read so far, last character first, without the white
    space before the parenthesis. *)
Fixpoint drop_sp (known : text) : text :=
  match known with
  | c :: k => if isspace c then drop_sp k else known
  | [] => []
  end.

(** [known] is what is known of the text before a parenthesis, last
    character first; [complete] says that it is all of it. The text
    may end with the name. *)
Fixpoint suffix_may (name_rev k : text) (complete : bool) : bool :=
  match name_rev, k with
  | [], _ => true
  | _ :: _, [] => negb complete
  | a :: n', b :: k' =>
      if Ascii.eqb (lower_char a) (lower_char b) then suffix_may n' k' complete
      else false
  end.

(** No opening parenthesis of the text comes after the name. *)
Fixpoint nm_items (name_rev known : text) (complete : bool) (items : list item)
  : bool :=
  match items with
  | [] => true
  | D c :: rest =>
      (if Ascii.eqb c "("
       then negb (suffix_may name_rev (drop_sp known) complete) else true)
      && nm_items name_rev (c :: known) complete rest
  | K t :: rest =>
      nm_items name_rev (rev (list_ascii_of_string t) ++ known) complete rest
  | U _ :: rest => nm_items name_rev [] false rest
  end.

(** The name is not empty and does not end with white space. *)
Definition proper_name (w : text) : bool :=
  match rev w with
  | c :: _ => negb (isspace c)
  | [] => false
  end.

(** The text has no call of the construct of the call pattern [r]. *)
Definition no_call (r : regex) (items : list item) : bool :=
  match head_of r with
  | Some w => proper_name w && nm_items (rev w) [] true items
  | None => false
  end.

(** No one-character item of the pattern accepts a delimiter. *)
Definition shuts (ic : bool) (cl : cclass) : bool :=
  negb (cmatch ic cl "(") && negb (cmatch ic cl ")") && negb (cmatch ic cl ",").

(** A match of a sealed pattern lies within one segment. *)
Fixpoint sealed (ic : bool) (r : regex) : bool :=
  match r with
  | Eps | WordB => true
  | Chr cl | Star cl | Plus cl => shuts ic cl
  | Grp _ r' => sealed ic r'
  | Seq r1 r2 => sealed ic r1 && sealed ic r2
  end.

(** The post-processing pass on a part of the text that starts after
    the character [prev]: [_apply_additional_transformations] is
    [post_text None] on the whole text. *)
Fixpoint sub_all_text (table : list (regex * string)) (prev : option ascii)
         (x : text) : result text :=
  match table with
  | [] => Ok x
  | (old, new) :: rest =>
      let* x' := sub_loop true old (Template new) 0 prev x in
      sub_all_text rest prev x'
  end.

(** [sql_content.replace]: every backtick becomes a double quote. *)
Definition quote_backticks (x : text) : text :=
  flat_map (fun c => if Ascii.eqb c "`" then ["034"%char] else [c]) x.

Definition post_text (prev : option ascii) (x : text) : result text :=
  let* x := sub_all_text type_mappings prev x in
  let x := quote_backticks x in
  let* x := sub_loop true interval_pattern (Template "INTERVAL '\1' ") 0 prev x in
  let* x := sub_loop false backslashes (Template "\\\\") 0 prev x in
  sub_all_text function_replacements prev x.

(** The replacement brings no delimiter. *)
Definition template_ok (t : string) : bool :=
  forallb (fun c => negb (delimiter c)) (list_ascii_of_string t).

(** The conditions on a table of replacements. *)
Definition table_ok (table : list (regex * string)) : bool :=
  forallb (fun e => sealed true (fst e) && consuming (fst e) && template_ok (snd e))
          table.



(** A plain argument: not empty, without parentheses, commas or white
    space. *)
Definition plain (x : string) : Prop :=
  x <> "" /\
  Forall (fun c => delimiter c = false /\ isspace c = false)
         (list_ascii_of_string x).

(** The rule number [i] of the table. *)
Definition rule_at (i : nat) : rule := nth i function_mappings date_add_rule.

(** The calls [nm(d, v)] and [nm(x)], cut at the delimiters. *)
Definition call2_items (nm d v : string) : list item :=
  [K nm; D "("; U (list_ascii_of_string d); D ",";
   U (" "%char :: list_ascii_of_string v); D ")"].

Definition call1_items (nm x : string) : list item :=
  [K nm; D "("; U (list_ascii_of_string x); D ")"].

(** The match object of [name(x)]. *)
Definition call1_match (nm x : string) : match_obj :=
  {| groups := [(1, list_ascii_of_string x)];
     span := list_ascii_of_string nm ++
             "("%char :: list_ascii_of_string x ++ [")"%char] |}.


(** The numbers of arguments of a construct, as documented. *)
Definition arity (name : string) : list nat :=
  if String.eqb name "current_timestamp" then [0]
  else if String.eqb name "unix_timestamp" then [0; 1]
  else if mem name ["dayofmonth"; "dayofweek"; "group_concat"; "to_date";
                    "weekofyear"]
  then [1]
  else [2].

(** ** Vocabulary of the further properties *)

Definition date_sub_rule : rule := rule_at 4.

(** The rules whose replacement can raise. *)
Definition may_fail (m : rule) : bool :=
  mem (func_name m) ["date_add"; "date_sub"].

(** The replacement returns on every match. *)
Definition never_raises (repl : Re.replacement) : Prop :=
  match repl with
  | Template _ => True
  | Callable f => forall m, exists out, f m = Ok out
  end.

Definition no_stats : conversion_stats :=
  {| total_conversions := 0; functions_converted := []; errors := 0 |}.

(** The match object of a call written [nm(d,B)]. *)
Definition call_match_text (nm d : string) (B : text) : match_obj :=
  {| groups := [(2, arg2 B); (1, list_ascii_of_string d)];
     span := call_text (list_ascii_of_string nm) [] (list_ascii_of_string d) B |}.

(** The call [nm(d,B)] as a string. *)
Definition call_string (nm d : string) (B : text) : string :=
  string_of_list_ascii
    (call_text (list_ascii_of_string nm) [] (list_ascii_of_string d) B).

(** [a] is [b] with some elements left out. *)
Inductive subseq {T} : list T -> list T -> Prop :=
| subseq_nil : subseq [] []
| subseq_skip a b x : subseq a b -> subseq a (x :: b)
| subseq_keep a b x : subseq a b -> subseq (x :: a) (x :: b).

(** The two warnings of the rule engine. *)
Definition date_add_failed : string :=
  "Warning: Failed to apply date_add conversion: list index out of range".

Definition date_sub_failed : string :=
  "Warning: Failed to apply date_sub conversion: list index out of range".

(** The replacement returns or raises the index error. *)
Definition index_error_only (repl : Re.replacement) : Prop :=
  match repl with
  | Template _ => True
  | Callable f => forall m, (exists out, f m = Ok out) \/ f m = Raise IndexError
  end.

(** The parentheses and commas of a text, in order. *)
Definition delimiters (s : string) : text :=
  filter delimiter (list_ascii_of_string s).

(** The four warnings of the validator on a piece of text it finds. *)
Definition marker_warnings : list (string * string) :=
  [ ("add_months(", "Potential unconverted add_months function detected");
    ("datediff(", "Potential unconverted datediff function detected");
    ("current_timestamp()",
     "Potential unconverted current_timestamp function detected");
    ("group_concat(",
     "group_concat function detected - verify conversion to array_join") ].




(** The pattern has a literal comma. *)
Fixpoint needs_comma (r : regex) : bool :=
  match r with
  | Chr (Lit p) => Ascii.eqb p ","
  | Grp _ r' => needs_comma r'
  | Seq r1 r2 => needs_comma r1 || needs_comma r2
  | _ => false
  end.

(** The pattern is a name, [\s*], an opening parenthesis and a group
    that starts with a character other than a closing parenthesis. *)
Definition needs_arg (r : regex) : bool :=
  match r with
  | Seq l (Seq (Star Space) (Seq (Chr (Lit p)) (Seq (Grp _ (Plus (NotLit q))) _))) =>
      Ascii.eqb p "(" && Ascii.eqb q ")" &&
      match unlit l with Some _ => true | None => false end
  | _ => false
  end.

(** No comma among the delimiters; every opening parenthesis is closed
    at once. *)
Definition comma_free (items : list item) : bool :=
  forallb (fun i => match i with D c => negb (Ascii.eqb c ",") | _ => true end)
          items.

Fixpoint no_args (items : list item) : bool :=
  match items with
  | [] => true
  | D c :: rest =>
      (if Ascii.eqb c "("
       then match rest with D d :: _ => Ascii.eqb d ")" | _ => false end
       else true)
      && no_args rest
  | _ :: rest => no_args rest
  end.

(** The rule finds nothing in the text. *)
Definition quiet_on (items : list item) (m : rule) : bool :=
  no_call (pattern m) items
  || (needs_comma (pattern m) && comma_free items)
  || (needs_arg (pattern m) && no_args items).

(** The text of a call with too few arguments. *)
Definition short_call (name : string) (args : list string) : list item :=
  match args with
  | [] => [K name; D "("; D ")"]
  | x :: _ => [K name; D "("; U (list_ascii_of_string x); D ")"]
  end.



(** The statistics after one conversion by the rule [name]. *)
Definition one_conversion (name : string) : conversion_stats :=
  {| total_conversions := 1; functions_converted := [(name, 1%Z)]; errors := 0 |}.

(** The replacements of the table, read on the arguments of a call. *)
Definition rewrites : list (string * (list string -> list string)) :=
  [ ("date_part", fun a =>
       ["extract("; replace "'" "" (lower (nth 0 a "")); " FROM "; nth 1 a ""; ")"]);
    ("date_sub", fun a => ["date_add('day', -"; nth 1 a ""; ", "; nth 0 a ""; ")"]);
    ("datediff", fun a => ["date_diff('day', "; nth 1 a ""; ", "; nth 0 a ""; ")"]);
    ("dayofmonth", fun a => ["DAY("; nth 0 a ""; ")"]);
    ("dayofweek", fun a =>
       ["IF(day_of_week("; nth 0 a ""; ")+1 > 7, 1, day_of_week("; nth 0 a "";
        ")+1)"]);
    ("from_utc_timestamp", fun a => ["at_timezone("; nth 0 a ""; ", "; nth 1 a ""; ")"]);
    ("to_utc_timestamp", fun a => ["at_timezone("; nth 0 a ""; ", 'UTC')"]);
    ("group_concat", fun a => ["array_join(array_agg("; nth 0 a ""; "), ',')"]);
    ("ifnull", fun a => ["COALESCE("; nth 0 a ""; ", "; nth 1 a ""; ")"]);
    ("instr", fun a => ["strpos("; nth 0 a ""; ", "; nth 1 a ""; ")"]);
    ("int_months_between", fun a =>
       ["date_diff('month', "; nth 1 a ""; ", "; nth 0 a ""; ")"]);
    ("left", fun a => ["substring("; nth 0 a ""; ", 1, "; nth 1 a ""; ")"]);
    ("strright", fun a => ["substring("; nth 0 a ""; ", -"; nth 1 a ""; ")"]);
    ("right", fun a => ["substring("; nth 0 a ""; ", -"; nth 1 a ""; ")"]);
    ("to_date", fun a => ["date("; nth 0 a ""; ")"]);
    ("unix_timestamp", fun a => ["to_unixtime("; nth 0 a "now()"; ")"]);
    ("weekofyear", fun a => ["week("; nth 0 a ""; ")"]);
    ("current_timestamp", fun _ => ["CAST(NOW() AS TIMESTAMP)"]) ].

Definition rewritten (name : string) (args : list string) : string :=
  fstr (dict_get rewrites name (fun _ => []) args).

(** The rules whose single call another rule, or the rule itself,
    interferes with. *)
Definition interfered : list string :=
  ["add_months"; "adddate"; "date_add"; "strleft"; "trunc"].

(** The rule engine leaves of the call the text the rule rewrites it
    to, with one conversion recorded and no warning. *)
Definition engine_result (m : rule) (args : list string) : Prop :=
  run_rules function_mappings (initial (call (func_name m) args))
  = {| sql_content := rewritten (func_name m) args; warnings := [];
       stats := one_conversion (func_name m) |}.

(** What the rule engine leaves of the single call [name(d, v)] of a
    construct of [interfered]. *)
Definition interference (d v : string) : list (string * state) :=
  [ ("add_months",
     {| sql_content := fstr ["date_add('AS', CAST("; d; ", 'month'))"];
        warnings := [];
        stats := one_conversion "add_months" |});
    ("adddate",
     {| sql_content := fstr ["date_add('day', "; v; ", "; d; ")"];
        warnings := [date_add_failed];
        stats := add_error (one_conversion "adddate") |});
    ("date_add",
     {| sql_content := fstr ["date_add('day', "; v; ", CAST("; d; " AS TIMESTAMP))"];
        warnings := [];
        stats := no_stats |});
    ("strleft",
     {| sql_content := fstr ["strsubstring("; d; ", 1, "; v; ")"];
        warnings := [];
        stats := one_conversion "left" |});
    ("trunc",
     {| sql_content := fstr ["date_trunc("; v; ", "; d; ")"];
        warnings := [];
        stats := no_stats |}) ].

(** * Properties *)

(** ** The matcher *)

Section MatcherFacts.
Variable ic : bool.

Lemma firstn_prefix_len (m rest : text) :
  firstn (List.length (m ++ rest) - List.length rest) (m ++ rest) = m.
Proof.
  rewrite length_app, Nat.add_sub.
  rewrite firstn_app, Nat.sub_diag, firstn_all. simpl. apply app_nil_r.
Qed.

(** Whatever the continuation, a successful match splits the text into
    a span of the pattern's language and the rest handed on. *)
Lemma star_sound {A} cl (k : cont) (res : A) :
  forall s prev caps,
    star ic cl prev s caps k = Some res ->
    exists m rest p',
      s = m ++ rest /\ Forall (fun c => cmatch ic cl c = true) m /\
      k p' rest caps = Some res.
Proof.
  induction s as [|c s IH]; intros prev caps H; simpl in H.
  - exists [], [], prev. auto.
  - destruct (cmatch ic cl c) eqn:Hc.
    + destruct (star ic cl (Some c) s caps k) eqn:Hs.
      * inversion H; subst.
        destruct (IH _ _ Hs) as (m & rest & p' & -> & Hm & Hk).
        exists (c :: m), rest, p'. auto.
      * exists [], (c :: s), prev. auto.
    + exists [], (c :: s), prev. auto.
Qed.

Lemma rmatch_sound {A} (r : regex) :
  forall (k : cont) (res : A) s prev caps,
    rmatch ic r prev s caps k = Some res ->
    exists m rest p' new,
      s = m ++ rest /\ lang ic r m /\
      Forall (fun e => captured ic r (fst e) (snd e)) new /\
      k p' rest (new ++ caps) = Some res.
Proof.
  induction r as [| cl | cl | cl | | n r IH | r1 IH1 r2 IH2];
    intros k res s prev caps H; simpl in H.
  - exists [], s, prev, []. repeat split; auto. constructor.
  - destruct s as [|c s]; [discriminate|].
    destruct (cmatch ic cl c) eqn:Hc; [|discriminate].
    exists [c], s, (Some c), []. repeat split; auto. now constructor.
  - destruct (star_sound _ _ _ _ _ _ H) as (m & rest & p' & -> & Hm & Hk).
    exists m, rest, p', []. repeat split; auto. now constructor.
  - destruct s as [|c s]; [discriminate|].
    destruct (cmatch ic cl c) eqn:Hc; [|discriminate].
    destruct (star_sound _ _ _ _ _ _ H) as (m & rest & p' & -> & Hm & Hk).
    exists (c :: m), rest, p', []. repeat split; auto.
    constructor; [discriminate | auto].
  - destruct (at_boundary prev s); [|discriminate].
    exists [], s, prev, []. repeat split; auto. constructor.
  - destruct (IH _ _ _ _ _ H) as (m & rest & p' & new & -> & Hm & Hnew & Hk).
    rewrite firstn_prefix_len in Hk.
    exists m, rest, p', ((n, m) :: new). repeat split; auto.
    + now constructor.
    + constructor; simpl; [now left|].
      eapply Forall_impl; [|exact Hnew]. simpl. auto.
  - destruct (IH1 _ _ _ _ _ H) as (m1 & rest1 & p1 & new1 & -> & Hm1 & Hn1 & Hk1).
    destruct (IH2 _ _ _ _ _ Hk1) as (m2 & rest2 & p2 & new2 & -> & Hm2 & Hn2 & Hk2).
    exists (m1 ++ m2), rest2, p2, (new2 ++ new1).
    rewrite <- !app_assoc. repeat split; auto.
    + now constructor.
    + apply Forall_app. split.
      * eapply Forall_impl; [|exact Hn2]. simpl. auto.
      * eapply Forall_impl; [|exact Hn1]. simpl. auto.
Qed.

Lemma match_here_sound r prev s mo n :
  match_here ic r prev s = Some (mo, n) ->
  exists rest, s = span mo ++ rest /\ lang ic r (span mo) /\
               n = List.length (span mo) /\
               Forall (fun e => captured ic r (fst e) (snd e)) (groups mo).
Proof.
  unfold match_here. intros H.
  destruct (rmatch_sound _ _ _ _ _ _ H)
    as (m & rest & p' & new & -> & Hm & Hnew & Hk).
  inversion Hk; subst; clear Hk. simpl.
  rewrite firstn_prefix_len, app_nil_r. exists rest. repeat split; auto.
  rewrite length_app. lia.
Qed.

Lemma lookup_captured (P : text -> Prop) r n caps :
  Forall (fun e => captured ic r (fst e) (snd e)) caps ->
  (forall t, captured ic r n t -> P t) -> P [] -> P (lookup n caps).
Proof.
  intros Hc Hp Hnil. induction Hc as [|[m t] caps Hx Hc IH]; simpl; auto.
  destruct (Nat.eqb_spec m n) as [->|]; auto.
Qed.

Lemma lang_classes (P : ascii -> Prop) r m :
  classes (fun cl => forall c, cmatch ic cl c = true -> P c) r ->
  lang ic r m -> Forall P m.
Proof.
  intros Hr Hm. induction Hm; simpl in Hr; auto.
  - eapply Forall_impl; [|eassumption]. auto.
  - eapply Forall_impl; [|eassumption]. auto.
  - destruct Hr. apply Forall_app. auto.
Qed.

Lemma lang_consuming r m : consuming r = true -> lang ic r m -> m <> [].
Proof.
  intros Hr Hm. induction Hm; simpl in Hr; try discriminate; auto.
  apply orb_true_iff in Hr. intros E. apply app_eq_nil in E.
  destruct E as [E1 E2]. destruct Hr as [Hr|Hr]; [now apply IHHm1 | now apply IHHm2].
Qed.
End MatcherFacts.

(** ** The scan *)

Section ScanFacts.
Variable ic : bool.
Variable r : regex.

Lemma sub_loop_skip repl m :
  forall rest prev,
    sub_loop ic r repl (List.length m) prev (m ++ rest)
    = sub_loop ic r repl 0 (prev_after prev m) rest.
Proof.
  induction m as [|c m IH]; intros rest prev; simpl; [reflexivity|].
  apply IH.
Qed.

Lemma count_loop_skip m :
  forall rest prev,
    count_loop ic r (List.length m) prev (m ++ rest)
    = count_loop ic r 0 (prev_after prev m) rest.
Proof.
  induction m as [|c m IH]; intros rest prev; simpl; [reflexivity|].
  apply IH.
Qed.

(** No match at the position: the character is copied. *)
Lemma sub_loop_miss repl prev c s :
  match_here ic r prev (c :: s) = None ->
  sub_loop ic r repl 0 prev (c :: s)
  = rmap (cons c) (sub_loop ic r repl 0 (Some c) s).
Proof. intros H. simpl. now rewrite H. Qed.

Lemma count_loop_miss prev c s :
  match_here ic r prev (c :: s) = None ->
  count_loop ic r 0 prev (c :: s) = count_loop ic r 0 (Some c) s.
Proof. intros H. simpl. now rewrite H. Qed.

(** A non-empty match at the position: its replacement is emitted and
    the scan resumes after the span. *)
Lemma sub_loop_hit repl prev mo n rest :
  match_here ic r prev (span mo ++ rest) = Some (mo, n) ->
  span mo <> [] ->
  sub_loop ic r repl 0 prev (span mo ++ rest)
  = match apply_repl repl mo with
    | Raise e => Raise e
    | Ok out =>
        rmap (app out) (sub_loop ic r repl 0 (prev_after prev (span mo)) rest)
    end.
Proof.
  intros H Hne.
  destruct (match_here_sound _ _ _ _ _ _ H) as (rest' & E & _ & -> & _).
  destruct (span mo) as [|c m] eqn:Em; [contradiction|].
  cbn [app] in H. cbn [app sub_loop]. rewrite H.
  destruct (apply_repl repl mo); [|reflexivity].
  cbn [List.length]. now rewrite sub_loop_skip.
Qed.

Lemma count_loop_hit prev mo n rest :
  match_here ic r prev (span mo ++ rest) = Some (mo, n) ->
  span mo <> [] ->
  count_loop ic r 0 prev (span mo ++ rest)
  = S (count_loop ic r 0 (prev_after prev (span mo)) rest).
Proof.
  intros H Hne.
  destruct (match_here_sound _ _ _ _ _ _ H) as (rest' & E & _ & -> & _).
  destruct (span mo) as [|c m] eqn:Em; [contradiction|].
  cbn [app] in H. cbn [app count_loop]. rewrite H.
  cbn [List.length Nat.pred]. now rewrite count_loop_skip.
Qed.

(** The replacement of a match raises: so does the scan. *)
Lemma sub_loop_raise repl prev s mo n e :
  match_here ic r prev s = Some (mo, n) ->
  apply_repl repl mo = Raise e ->
  sub_loop ic r repl 0 prev s = Raise e.
Proof. intros H He. destruct s; simpl; now rewrite H, He. Qed.

(** A template never raises. *)
Lemma sub_loop_template t :
  forall s skip prev, exists out,
    sub_loop ic r (Template t) skip prev s = Ok out.
Proof.
  induction s as [|c s IH]; intros skip prev.
  - destruct skip; simpl; eauto.
    destruct (match_here ic r prev []) as [[mo n]|]; simpl; eauto.
  - destruct skip; simpl; [|apply IH].
    destruct (match_here ic r prev (c :: s)) as [[mo n]|]; simpl.
    + destruct n.
      * destruct (IH 0 (Some c)) as [out ->]. simpl. eauto.
      * destruct (IH n (Some c)) as [out ->]. simpl. eauto.
    + destruct (IH 0 (Some c)) as [out ->]. simpl. eauto.
Qed.
End ScanFacts.

Lemma sub_template_ok r t s ic :
  exists s', Re.sub r (Template t) s ic = Ok s'.
Proof.
  unfold Re.sub.
  destruct (sub_loop_template ic r t (list_ascii_of_string s) 0 None) as [out ->].
  simpl. eauto.
Qed.

Lemma sub_all_ok table : forall s, exists s', sub_all table s = Ok s'.
Proof.
  induction table as [|[old new] table IH]; intros s; simpl; eauto.
  destruct (sub_template_ok old new s true) as [s' ->]. apply IH.
Qed.

(** The post-processing pass returns on every text. *)
Lemma additional_ok s : exists s', _apply_additional_transformations s = Ok s'.
Proof.
  unfold _apply_additional_transformations.
  destruct (sub_all_ok type_mappings s) as [s1 ->].
  destruct (sub_template_ok interval_pattern "INTERVAL '\1' "
              (replace "`" (String "034" "") s1) true) as [s2 ->].
  destruct (sub_template_ok backslashes "\\\\" s2 false) as [s3 ->].
  apply sub_all_ok.
Qed.

(** The conversion returns on every text, with the text, warnings and
    statistics the three phases produce. *)
Lemma replace_func_returns sql :
  exists sql',
    _apply_additional_transformations
      (sql_content (run_rules function_mappings (initial sql))) = Ok sql' /\
    replace_func sql =
    Returned sql'
             (warnings (run_rules function_mappings (initial sql))
              ++ _validate_converted_sql sql')
             (stats (run_rules function_mappings (initial sql))).
Proof.
  unfold replace_func, convert.
  destruct (additional_ok (sql_content (run_rules function_mappings (initial sql))))
    as [sql' E].
  exists sql'. rewrite E. auto.
Qed.

(** ** The rule engine *)

Lemma date_add_rule_in_table : nth_error function_mappings 2 = Some date_add_rule.
Proof. reflexivity. Qed.

Lemma run_rules_cons mapping rest st :
  run_rules (mapping :: rest) st = run_rules rest (apply_rule st mapping).
Proof. reflexivity. Qed.

Lemma run_rules_invariant (P : state -> Prop) :
  (forall st mapping, P st -> P (apply_rule st mapping)) ->
  forall rules st, P st -> P (run_rules rules st).
Proof.
  intros Hstep rules. induction rules as [|m rules IH]; intros st H; simpl; auto.
Qed.

(** C5. If applying a rule raises, the engine appends one warning that
    names the rule and carries the error text, adds one to [errors],
    keeps the text and the conversion counts as they were, and goes on
    with the next rule; the conversion as a whole still returns. *)
Theorem rule_failure_absorbed (mapping : rule) (rest : list rule) (st : state)
        (e : exn) :
  Re.sub (pattern mapping) (replacement mapping) (sql_content st) true = Raise e ->
  let st' := apply_rule st mapping in
  warnings st' = warnings st ++ [rule_warning (func_name mapping) e] /\
  errors (stats st') = (errors (stats st) + 1)%Z /\
  sql_content st' = sql_content st /\
  functions_converted (stats st') = functions_converted (stats st) /\
  total_conversions (stats st') = total_conversions (stats st) /\
  run_rules (mapping :: rest) st = run_rules rest st' /\
  forall sql, exists text ws cs, replace_func sql = Returned text ws cs.
Proof.
  intros H st'. subst st'. unfold apply_rule. rewrite H. simpl.
  repeat split.
  - unfold apply_rule. now rewrite H.
  - intros sql. destruct (replace_func_returns sql) as (t & _ & E).
    rewrite E. eauto.
Qed.

Lemma rule_failure_absorbed_witness :
  let st := initial "date_add(d, 3 months)" in
  Re.sub (pattern date_add_rule) (replacement date_add_rule) (sql_content st) true
  = Raise IndexError /\
  warnings (apply_rule st date_add_rule)
  = ["Warning: Failed to apply date_add conversion: list index out of range"] /\
  errors (stats (apply_rule st date_add_rule)) = 1%Z /\
  sql_content (apply_rule st date_add_rule) = "date_add(d, 3 months)".
Proof.
  assert (H : Re.sub (pattern date_add_rule) (replacement date_add_rule)
                     (sql_content (initial "date_add(d, 3 months)")) true
              = Raise IndexError) by (vm_compute; reflexivity).
  split; [exact H|].
  destruct (rule_failure_absorbed date_add_rule [] _ _ H)
    as (Hw & He & Hs & _).
  split; [exact Hw|]. split; [exact He | exact Hs].
Defined.

(** ** The entry point *)

(** C6. If the post-processing pass or the validation raises, the
    [except] block appends the warning recording the failure, adds one
    to [errors] and re-raises: the caller gets the exception and no
    triple. *)
Theorem fatal_failure_reraised
        (additional : string -> result string)
        (validate : string -> result (list string)) (sql : string) (e : exn) :
  let st := run_rules function_mappings (initial sql) in
  additional (sql_content st) = Raise e \/
  (exists sql', additional (sql_content st) = Ok sql' /\ validate sql' = Raise e) ->
  convert additional validate sql
  = Raised e (warnings st ++ [fatal_warning e])
           {| total_conversions := total_conversions (stats st);
              functions_converted := functions_converted (stats st);
              errors := (errors (stats st) + 1)%Z |} /\
  forall text ws cs, convert additional validate sql <> Returned text ws cs.
Proof.
  intros st H.
  assert (E : convert additional validate sql = fatal st e).
  { unfold convert. fold st. destruct H as [H | (sql' & H1 & H2)].
    - now rewrite H.
    - now rewrite H1, H2. }
  rewrite E. split; [reflexivity | discriminate].
Qed.

Lemma fatal_failure_reraised_witness :
  let boom := PyExc "TypeError" "expected string or bytes-like object" in
  convert (fun _ => Raise boom) (fun s => Ok (_validate_converted_sql s))
          "ifnull(revenue, 0)"
  = Raised boom
           ["Failed to convert SQL: expected string or bytes-like object"]
           {| total_conversions := 1;
              functions_converted := [("ifnull", 1%Z)];
              errors := 1 |}.
Proof.
  intros boom.
  destruct (fatal_failure_reraised
              (fun _ => Raise boom) (fun s => Ok (_validate_converted_sql s))
              "ifnull(revenue, 0)" boom (or_introl eq_refl)) as [E _].
  rewrite E. vm_compute. reflexivity.
Defined.

(** ** Statistics *)

Lemma dict_set_fresh {V} (d : list (string * V)) k v :
  ~ In k (keys d) -> dict_set d k v = d ++ [(k, v)].
Proof.
  induction d as [|[k' v'] d IH]; intros H; simpl; [reflexivity|].
  destruct (String.eqb_spec k' k) as [->|Hne].
  - exfalso. apply H. now left.
  - rewrite IH; [reflexivity|]. intros Hin. apply H. now right.
Qed.

Lemma sum_counts_app d1 d2 :
  sum_counts (d1 ++ d2) = (sum_counts d1 + sum_counts d2)%Z.
Proof.
  induction d1 as [|kv d1 IH]; simpl; [reflexivity|]. rewrite IH. lia.
Qed.

Lemma apply_rule_keys st mapping k :
  In k (keys (functions_converted (stats (apply_rule st mapping)))) ->
  In k (keys (functions_converted (stats st))) \/ k = func_name mapping.
Proof.
  unfold apply_rule.
  destruct (Re.sub (pattern mapping) (replacement mapping) (sql_content st) true)
    as [new_sql|e]; simpl; auto.
  match goal with |- context [(0 <? ?z)%Z] => destruct (0 <? z)%Z end; simpl; auto.
  generalize (functions_converted (stats st)) as d.
  induction d as [|[k' v'] d IH]; simpl.
  - intros [<-|[]]. now right.
  - destruct (String.eqb k' (func_name mapping)); simpl.
    + intros [<-|H]; auto.
    + intros [<-|H]; auto. destruct (IH H); auto.
Qed.

Lemma apply_rule_stats_ok st mapping :
  ~ In (func_name mapping) (keys (functions_converted (stats st))) ->
  stats_ok (stats st) -> stats_ok (stats (apply_rule st mapping)).
Proof.
  intros Hfresh (Hpos & Htot & Herr). unfold apply_rule.
  destruct (Re.sub (pattern mapping) (replacement mapping) (sql_content st) true)
    as [new_sql|e]; simpl.
  - match goal with |- context [(0 <? ?z)%Z] => destruct (Z.ltb_spec 0 z) end.
    + unfold stats_ok. simpl. rewrite dict_set_fresh by assumption.
      rewrite sum_counts_app. simpl. repeat split; try lia.
      apply Forall_app. split; [assumption|]. constructor; [simpl; lia | constructor].
    + repeat split; assumption.
  - unfold stats_ok. simpl. repeat split; try assumption. lia.
Qed.

Lemma run_rules_stats_ok rules :
  forall st,
    NoDup (map func_name rules) ->
    (forall k, In k (keys (functions_converted (stats st))) ->
               ~ In k (map func_name rules)) ->
    stats_ok (stats st) -> stats_ok (stats (run_rules rules st)).
Proof.
  induction rules as [|m rules IH]; intros st Hnd Hk Hok; simpl; [assumption|].
  inversion Hnd as [|? ? Hnotin Hnd']; subst.
  apply IH; [assumption | | ].
  - intros k Hin. destruct (apply_rule_keys _ _ _ Hin) as [H| ->].
    + intros Hc. apply (Hk k H). now right.
    + assumption.
  - apply apply_rule_stats_ok; [|assumption].
    intros Hin. apply (Hk _ Hin). now left.
Qed.

Lemma rule_names_distinct : NoDup (map func_name function_mappings).
Proof.
  simpl. repeat (constructor; [simpl; intuition discriminate|]). constructor.
Qed.

Lemma sum_counts_nonneg d :
  Forall (fun kv => (1 <= snd kv)%Z) d -> (0 <= sum_counts d)%Z.
Proof. induction 1; simpl; lia. Qed.

(** C9. Every conversion returns, and in the returned statistics every
    count in [functions_converted] is at least one, [total_conversions]
    is the sum of these counts (so it is not negative), and [errors] is
    not negative. *)
Theorem returned_stats_consistent (sql : string) :
  exists text ws cs,
    replace_func sql = Returned text ws cs /\
    Forall (fun kv => (1 <= snd kv)%Z) (functions_converted cs) /\
    total_conversions cs = sum_counts (functions_converted cs) /\
    (0 <= total_conversions cs)%Z /\
    (0 <= errors cs)%Z.
Proof.
  destruct (replace_func_returns sql) as (t & _ & E).
  do 3 eexists. split; [exact E|].
  assert (H : stats_ok (stats (run_rules function_mappings (initial sql)))).
  { apply run_rules_stats_ok.
    - apply rule_names_distinct.
    - simpl. intros k [].
    - unfold stats_ok. simpl. repeat split; [constructor | lia]. }
  destruct H as (Hpos & Htot & Herr). repeat split; auto.
  rewrite Htot. now apply sum_counts_nonneg.
Qed.

(** ** Validation *)

Lemma validator_unbalanced s :
  In unbalanced_warning (_validate_converted_sql s) <->
  count "(" s <> count ")" s.
Proof.
  unfold _validate_converted_sql, unbalanced_warning.
  destruct (contains "add_months(" (lower s));
    destruct (contains "datediff(" (lower s));
    destruct (contains "current_timestamp()" (lower s));
    destruct (contains "group_concat(" (lower s));
    destruct (Nat.eqb_spec (count "(" s) (count ")" s)) as [E|E];
    simpl; split; intros H; try (exfalso; tauto);
    try (repeat (destruct H as [H|H]; [discriminate H|]); solve [destruct H | tauto]);
    tauto.
Qed.

Lemma engine_warnings rules :
  forall st w,
    In w (warnings (run_rules rules st)) ->
    In w (warnings st) \/ exists tail, w = String "W" tail.
Proof.
  induction rules as [|m rules IH]; intros st w H; simpl in H; [now left|].
  destruct (IH _ _ H) as [Hin|Hex]; [|now right].
  unfold apply_rule in Hin.
  destruct (Re.sub (pattern m) (replacement m) (sql_content st) true); simpl in Hin.
  - now left.
  - apply in_app_iff in Hin. destruct Hin as [Hin|[<-|[]]]; [now left|].
    right. eexists. reflexivity.
Qed.

(** C7, as the code has it. Every conversion returns, and the returned
    warnings contain the unbalanced-parentheses warning exactly when the
    returned text has different numbers of opening and closing
    parentheses. *)
Theorem unbalanced_warning_iff_output_unbalanced (sql : string) :
  exists text ws cs,
    replace_func sql = Returned text ws cs /\
    (In unbalanced_warning ws <-> count "(" text <> count ")" text).
Proof.
  destruct (replace_func_returns sql) as (t & _ & E).
  do 3 eexists. split; [exact E|].
  rewrite in_app_iff, validator_unbalanced. split; [|auto].
  intros [H|H]; [|assumption].
  destruct (engine_warnings _ _ _ H) as [[]|[tail Hw]]. discriminate Hw.
Qed.

(** C7, as stated, fails: the input has one more opening parenthesis
    than closing ones, the rewrite of [to_utc_timestamp] drops it with
    the second argument, and no warning is returned. *)
Lemma unbalanced_input_not_reported :
  let sql := "to_utc_timestamp(a, (b)" in
  count "(" sql <> count ")" sql /\
  exists text ws cs,
    replace_func sql = Returned text ws cs /\ ~ In unbalanced_warning ws.
Proof.
  split; [vm_compute; discriminate|].
  exists "at_timezone(a, 'UTC')", [],
    {| total_conversions := 1;
       functions_converted := [("to_utc_timestamp", 1%Z)];
       errors := 0 |}.
  split; [vm_compute; reflexivity | intros []].
Qed.

(** ** Single calls *)

(** C3. [strleft(s, n)] is not rewritten like [left(s, n)]: the rule
    [left], earlier in the table, matches inside the name [strleft], so
    the result keeps the prefix [str] and the conversion is counted for
    [left]. *)
Theorem strleft_taken_by_left :
  replace_func "left(s, n)"
  = Returned "substring(s, 1, n)" []
             {| total_conversions := 1;
                functions_converted := [("left", 1%Z)];
                errors := 0 |} /\
  replace_func "strleft(s, n)"
  = Returned "strsubstring(s, 1, n)" []
             {| total_conversions := 1;
                functions_converted := [("left", 1%Z)];
                errors := 0 |} /\
  replace_func "strright(s, n)"
  = Returned "substring(s, -n)" []
             {| total_conversions := 1;
                functions_converted := [("strright", 1%Z)];
                errors := 0 |}.
Proof. repeat split; vm_compute; reflexivity. Qed.

(** ** Matching a call *)

Lemma notlit_comma c : cmatch true (NotLit ",") c = negb (Ascii.eqb c ",").
Proof. destruct c as [[] [] [] [] [] [] [] []]; reflexivity. Qed.

Lemma notlit_paren c : cmatch true (NotLit ")") c = negb (Ascii.eqb c ")").
Proof. destruct c as [[] [] [] [] [] [] [] []]; reflexivity. Qed.

Lemma free_notlit_comma g :
  ~ In ","%char g -> Forall (fun c => cmatch true (NotLit ",") c = true) g.
Proof.
  intros H. apply Forall_forall. intros c Hc. rewrite notlit_comma.
  destruct (Ascii.eqb_spec c ","); [subst; contradiction | reflexivity].
Qed.

Lemma free_notlit_paren g :
  ~ In ")"%char g -> Forall (fun c => cmatch true (NotLit ")") c = true) g.
Proof.
  intros H. apply Forall_forall. intros c Hc. rewrite notlit_paren.
  destruct (Ascii.eqb_spec c ")"); [subst; contradiction | reflexivity].
Qed.

Section Greedy.
Context {A : Type}.
Variable ic : bool.

Lemma rmatch_lit (w : text) :
  forall nm s prev caps (k : @cont A),
    Forall2 (fun c p => cmatch ic (Lit p) c = true) nm w ->
    rmatch ic (fold_right (fun c r => Seq (Chr (Lit c)) r) Eps w)
           prev (nm ++ s) caps k
    = k (prev_after prev nm) s caps.
Proof.
  induction w as [|p w IH]; intros nm s prev caps k H;
    inversion H as [|c nm' ? ? Hc Hrest]; subst.
  - reflexivity.
  - cbn [fold_right rmatch app]. rewrite Hc. now rewrite IH.
Qed.

Lemma star_stops cl s prev caps (k : @cont A) :
  stops ic cl s -> star ic cl prev s caps k = k prev s caps.
Proof. destruct s as [|c s]; simpl; [reflexivity|]. now intros ->. Qed.

Lemma star_run cl run :
  forall rest prev caps (k : @cont A) res,
    Forall (fun c => cmatch ic cl c = true) run ->
    star ic cl (prev_after prev run) rest caps k = Some res ->
    star ic cl prev (run ++ rest) caps k = Some res.
Proof.
  induction run as [|c run IH]; intros rest prev caps k res Hrun H; [exact H|].
  inversion Hrun as [|? ? Hc Hrun']; subst. cbn [app star]. rewrite Hc.
  now rewrite (IH rest (Some c) caps k res).
Qed.

Lemma star_greedy cl run rest prev caps (k : @cont A) res :
  Forall (fun c => cmatch ic cl c = true) run ->
  stops ic cl rest ->
  k (prev_after prev run) rest caps = Some res ->
  star ic cl prev (run ++ rest) caps k = Some res.
Proof.
  intros Hrun Hstop Hk. apply star_run; [assumption|].
  now rewrite star_stops.
Qed.

Lemma star_give_back cl c rest prev caps (k : @cont A) :
  cmatch ic cl c = true ->
  stops ic cl rest ->
  k (Some c) rest caps = None ->
  star ic cl prev (c :: rest) caps k = k prev (c :: rest) caps.
Proof.
  intros Hc Hstop Hk. cbn [star]. rewrite Hc, star_stops, Hk by assumption.
  reflexivity.
Qed.

Lemma rmatch_seq r1 r2 prev s caps (k : @cont A) :
  rmatch ic (r1 ;; r2) prev s caps k
  = rmatch ic r1 prev s caps (fun p' s' caps' => rmatch ic r2 p' s' caps' k).
Proof. reflexivity. Qed.

Lemma rmatch_star cl prev s caps (k : @cont A) :
  rmatch ic (Star cl) prev s caps k = star ic cl prev s caps k.
Proof. reflexivity. Qed.

Lemma rmatch_chr cl c s prev caps (k : @cont A) :
  cmatch ic cl c = true ->
  rmatch ic (Chr cl) prev (c :: s) caps k = k (Some c) s caps.
Proof. intros H. cbn [rmatch]. now rewrite H. Qed.

Lemma grp_plus_greedy n cl run rest prev caps (k : @cont A) res :
  run <> [] ->
  Forall (fun c => cmatch ic cl c = true) run ->
  stops ic cl rest ->
  k (prev_after prev run) rest ((n, run) :: caps) = Some res ->
  rmatch ic (Grp n (Plus cl)) prev (run ++ rest) caps k = Some res.
Proof.
  intros Hne Hrun Hstop Hk. destruct run as [|c run]; [contradiction|].
  inversion Hrun as [|? ? Hc Hrun']; subst. cbn [rmatch app]. rewrite Hc.
  apply star_greedy; [assumption | assumption |].
  replace (List.length (c :: run ++ rest) - List.length rest)
    with (List.length (c :: run))
    by (cbn [List.length]; rewrite length_app; lia).
  change (c :: run ++ rest) with ((c :: run) ++ rest).
  rewrite firstn_app, Nat.sub_diag, firstn_all. cbn [firstn].
  rewrite app_nil_r. exact Hk.
Qed.
End Greedy.

Lemma lstrip_split B :
  exists ws, B = ws ++ lstrip_text B /\ spaces ws /\ stops true Space (lstrip_text B).
Proof.
  induction B as [|c B (ws & E & Hws & Hstop)]; simpl.
  - exists []. repeat split; constructor.
  - destruct (isspace c) eqn:Hc.
    + exists (c :: ws). repeat split; [simpl; congruence | | assumption].
      constructor; assumption.
    + exists []. repeat split; [constructor | exact Hc].
Qed.

Lemma prev_after_app prev a b :
  prev_after prev (a ++ b) = prev_after (prev_after prev a) b.
Proof. apply fold_left_app. Qed.

Lemma prev_after_last prev a c : prev_after prev (a ++ [c]) = Some c.
Proof. now rewrite prev_after_app. Qed.

(** The part of [call2] after the first comma, on a second argument
    followed by a closing parenthesis. *)
Lemma arg2_match {A} B rest prev caps (k : @cont A) res :
  B <> [] -> ~ In ")"%char B ->
  k (Some ")"%char) rest ((2, arg2 B) :: caps) = Some res ->
  rmatch true (Star Space ;; Grp 2 (Plus (NotLit ")")) ;; Chr (Lit ")"))
         prev (B ++ ")"%char :: rest) caps k = Some res.
Proof.
  intros Hne Hfree Hk.
  destruct (lstrip_split B) as (ws & E & Hws & Hstop).
  unfold arg2 in Hk. rewrite rmatch_seq, rmatch_star.
  destruct (lstrip_text B) as [|c g] eqn:Eg.
  - (* only white space: the last character goes to the group *)
    rewrite app_nil_r in E. subst ws.
    destruct (exists_last Hne) as (ws' & w & EB).
    rewrite EB in Hk |- *. rewrite last_last in Hk.
    rewrite EB in Hws, Hfree. apply Forall_app in Hws. destruct Hws as [Hws' Hw].
    inversion Hw as [|? ? Hw1 _]; subst.
    rewrite <- app_assoc. apply star_run; [assumption|].
    cbn [app]. rewrite star_give_back; [| exact Hw1 | reflexivity | reflexivity].
    rewrite rmatch_seq.
    apply (grp_plus_greedy true 2 (NotLit ")") [w] (")"%char :: rest)).
    + discriminate.
    + apply free_notlit_paren. intros [->|[]]. apply Hfree.
      apply in_or_app. right. now left.
    + reflexivity.
    + rewrite rmatch_chr by reflexivity. exact Hk.
  - rewrite E, <- app_assoc.
    apply star_greedy; [assumption | exact Hstop |].
    rewrite rmatch_seq. apply grp_plus_greedy.
    + discriminate.
    + apply free_notlit_paren. intros Hin. apply Hfree. rewrite E.
      apply in_or_app. now right.
    + reflexivity.
    + rewrite rmatch_chr by reflexivity. exact Hk.
Qed.

Lemma same_name_lit nm name :
  same_name nm name ->
  Forall2 (fun c p => cmatch true (Lit p) c = true) nm (list_ascii_of_string name).
Proof.
  unfold same_name, lower_text. generalize (list_ascii_of_string name) as w.
  induction nm as [|c nm IH]; intros [|p w] H; try discriminate; constructor.
  - simpl in H. injection H as Hc _. simpl. rewrite Hc. apply Ascii.eqb_refl.
  - apply IH. simpl in H. now injection H.
Qed.

Lemma call2_rmatch {A} name nm ws g1 B rest prev caps (k : @cont A) res :
  same_name nm name -> spaces ws ->
  g1 <> [] -> ~ In ","%char g1 -> B <> [] -> ~ In ")"%char B ->
  k (Some ")"%char) rest ((2, arg2 B) :: (1, g1) :: caps) = Some res ->
  rmatch true (call2 name) prev (call_text nm ws g1 B ++ rest) caps k = Some res.
Proof.
  intros Hnm Hws Hg1 Hfree1 HB Hfree2 Hk.
  unfold call2, call_text, lit.
  repeat rewrite <- app_assoc. cbn [app]. repeat rewrite <- app_assoc. cbn [app].
  rewrite rmatch_seq, rmatch_lit by (now apply same_name_lit).
  rewrite rmatch_seq, rmatch_star.
  apply star_greedy; [exact Hws | reflexivity |].
  rewrite rmatch_seq, rmatch_chr by reflexivity.
  rewrite rmatch_seq.
  apply grp_plus_greedy;
    [assumption | now apply free_notlit_comma | reflexivity |].
  rewrite rmatch_seq, rmatch_chr by reflexivity.
  rewrite <- app_assoc. now apply arg2_match.
Qed.

Lemma call2_match_here name nm ws g1 B rest prev :
  same_name nm name -> spaces ws ->
  g1 <> [] -> ~ In ","%char g1 -> B <> [] -> ~ In ")"%char B ->
  match_here true (call2 name) prev (call_text nm ws g1 B ++ rest)
  = Some ({| groups := [(2, arg2 B); (1, g1)];
             span := call_text nm ws g1 B |},
          List.length (call_text nm ws g1 B)).
Proof.
  intros. unfold match_here. apply call2_rmatch; try assumption.
  cbv beta zeta. now rewrite firstn_prefix_len, length_app, Nat.add_sub.
Qed.

(** ** One call as the whole text *)

Lemma list_of_append (a b : string) :
  list_ascii_of_string (a ++ b)%string
  = list_ascii_of_string a ++ list_ascii_of_string b.
Proof. induction a as [|c a IH]; simpl; [reflexivity | now rewrite IH]. Qed.

Lemma string_of_app (a b : text) :
  string_of_list_ascii (a ++ b)
  = (string_of_list_ascii a ++ string_of_list_ascii b)%string.
Proof. induction a as [|c a IH]; simpl; [reflexivity | now rewrite IH]. Qed.

Lemma match_here_nil ic r prev :
  consuming r = true -> match_here ic r prev [] = None.
Proof.
  intros Hr. destruct (match_here ic r prev []) as [[mo n]|] eqn:E; [|reflexivity].
  destruct (match_here_sound _ _ _ _ _ _ E) as (rest & Es & Hl & _).
  exfalso. apply (lang_consuming _ _ _ Hr Hl).
  symmetry in Es. now apply app_eq_nil in Es.
Qed.

Lemma consuming_lit_seq w r :
  consuming r = true ->
  consuming (fold_right (fun c r => Seq (Chr (Lit c)) r) Eps w ;; r) = true.
Proof. intros H. simpl. rewrite H. apply orb_true_r. Qed.

Lemma call2_consuming name : consuming (call2 name) = true.
Proof. apply consuming_lit_seq. reflexivity. Qed.

Lemma split_lstrip s : split_text [] (lstrip_text s) = split_text [] s.
Proof.
  induction s as [|c s IH]; simpl; [reflexivity|].
  destruct (isspace c) eqn:Hc; [exact IH|]. simpl. now rewrite Hc.
Qed.

Lemma split_lstrip_nil s : lstrip_text s = [] -> split_text [] s = [].
Proof.
  induction s as [|c s IH]; simpl; [reflexivity|].
  destruct (isspace c); [exact IH | discriminate].
Qed.

Lemma call_match_group1 nm d v : group (call_match nm d v) 1 = d.
Proof. apply string_of_list_ascii_of_string. Qed.

Lemma call_match_split nm d v : split (group (call_match nm d v) 2) = split v.
Proof.
  unfold split, group, call_match. simpl.
  now rewrite list_ascii_of_string_of_list_ascii, split_lstrip.
Qed.

Lemma call2_match_call name nm d v rest prev :
  same_name (list_ascii_of_string nm) name -> first_arg d -> second_arg v ->
  match_here true (call2 name) prev
             (list_ascii_of_string (nm ++ "(" ++ d ++ ", " ++ v ++ ")")%string
              ++ rest)
  = Some (call_match nm d v,
          List.length (list_ascii_of_string (nm ++ "(" ++ d ++ ", " ++ v ++ ")")%string)).
Proof.
  intros Hnm [Hd1 Hd2] [Hv1 Hv2].
  assert (E : list_ascii_of_string (nm ++ "(" ++ d ++ ", " ++ v ++ ")")%string
              = call_text (list_ascii_of_string nm) [] (list_ascii_of_string d)
                          (" "%char :: list_ascii_of_string v)).
  { unfold call_text. repeat (rewrite list_of_append; simpl). reflexivity. }
  assert (Hstrip : lstrip_text (list_ascii_of_string v) <> []).
  { intros Hn. apply Hv1. unfold split. now rewrite split_lstrip_nil. }
  unfold call_match. rewrite E.
  rewrite (call2_match_here name); try assumption.
  - unfold arg2. cbn [lstrip_text]. replace (isspace " ") with true by reflexivity.
    destruct (lstrip_text (list_ascii_of_string v)); [contradiction | reflexivity].
  - constructor.
  - intros Hn. apply Hd1. rewrite <- (string_of_list_ascii_of_string d), Hn.
    reflexivity.
  - discriminate.
  - intros [Hc|Hc]; [discriminate | contradiction].
Qed.

(** [re.sub] on a text that is one call: the callable is applied to the
    match object of the call, and its result is the new text. *)
Lemma sub_one_call name repl nm d v :
  same_name (list_ascii_of_string nm) name -> first_arg d -> second_arg v ->
  Re.sub (call2 name) repl (nm ++ "(" ++ d ++ ", " ++ v ++ ")")%string true
  = rmap string_of_list_ascii (apply_repl repl (call_match nm d v)).
Proof.
  intros Hnm Hd Hv. unfold Re.sub.
  pose proof (call2_match_call name nm d v [] None Hnm Hd Hv) as H.
  set (txt := list_ascii_of_string (nm ++ "(" ++ d ++ ", " ++ v ++ ")")%string) in *.
  rewrite <- (app_nil_r txt).
  change txt with (span (call_match nm d v)) at 1.
  rewrite sub_loop_hit with (n := List.length txt).
  - destruct (apply_repl repl (call_match nm d v)) as [out|e]; [|reflexivity].
    cbn [sub_loop]. rewrite match_here_nil by apply call2_consuming.
    simpl. now rewrite app_nil_r.
  - exact H.
  - change (span (call_match nm d v)) with txt. intros Hn. rewrite Hn in H.
    cbn [app] in H.
    rewrite match_here_nil in H by apply call2_consuming. discriminate.
Qed.

(** The same on a text that starts with the call, when the callable
    raises. *)
Lemma sub_call_raises name f nm d v rest e :
  same_name (list_ascii_of_string nm) name -> first_arg d -> second_arg v ->
  f (call_match nm d v) = Raise e ->
  Re.sub (call2 name) (Callable f)
         (nm ++ "(" ++ d ++ ", " ++ v ++ ")" ++ rest)%string true
  = Raise e.
Proof.
  intros Hnm Hd Hv Hf. unfold Re.sub.
  replace (list_ascii_of_string (nm ++ "(" ++ d ++ ", " ++ v ++ ")" ++ rest)%string)
    with (list_ascii_of_string (nm ++ "(" ++ d ++ ", " ++ v ++ ")")%string
          ++ list_ascii_of_string rest)
    by (repeat (rewrite list_of_append; simpl);
        repeat (rewrite <- app_assoc; simpl); reflexivity).
  pose proof (call2_match_call name nm d v (list_ascii_of_string rest) None
                               Hnm Hd Hv) as H.
  rewrite (sub_loop_raise _ _ _ _ _ _ _ e H); [reflexivity|].
  cbn [apply_repl]. now rewrite Hf.
Qed.

(** ** [date_add] and [date_sub] *)

Lemma split_tokens_nospace s :
  forall cur,
    Forall (fun c => isspace c = false) cur ->
    Forall (Forall (fun c => isspace c = false)) (split_text cur s).
Proof.
  induction s as [|c s IH]; intros cur Hcur; simpl.
  - destruct cur; constructor; [|constructor].
    apply Forall_rev. exact Hcur.
  - destruct (isspace c) eqn:Hc.
    + destruct cur.
      * apply IH. constructor.
      * constructor; [apply Forall_rev; exact Hcur | apply IH; constructor].
    + apply IH. constructor; assumption.
Qed.

Lemma lstrip_nospace s :
  Forall (fun c => isspace c = false) s -> lstrip_text s = s.
Proof.
  intros H. destruct H as [|c s Hc _]; simpl; [reflexivity | now rewrite Hc].
Qed.

(** A text that is its own single token has no white space around it. *)
Lemma single_token_lstrip v :
  split v = [v] -> lstrip_text (list_ascii_of_string v) = list_ascii_of_string v.
Proof.
  unfold split. intros H. apply lstrip_nospace.
  pose proof (split_tokens_nospace (list_ascii_of_string v) [] (Forall_nil _)) as Ht.
  destruct (split_text [] (list_ascii_of_string v)) as [|t [|t' l]];
    try discriminate.
  simpl in H. injection H as H. inversion Ht as [|? ? Ht1 _]; subst.
  now rewrite list_ascii_of_string_of_list_ascii.
Qed.

Lemma second_arg_of_split v :
  split v <> [] -> ~ In ")"%char (list_ascii_of_string v) -> second_arg v.
Proof. now split. Qed.

(** C10. On a text that starts with a [date_add] call whose second
    argument has two tokens, the rewrite raises the index error on the
    third token; the engine turns it into one warning and one error and
    keeps the text. So it is with [date_add(d, 3 months)] through the
    whole conversion. *)
Theorem date_add_two_tokens_absorbed (d v rest : string) (st : state) :
  first_arg d ->
  ~ In ")"%char (list_ascii_of_string v) ->
  List.length (split v) = 2 ->
  sql_content st = ("date_add(" ++ d ++ ", " ++ v ++ ")" ++ rest)%string ->
  _replace_date_add (call_match "date_add" d v) = Raise IndexError /\
  apply_rule st date_add_rule
  = {| sql_content := sql_content st;
       warnings := warnings st ++
         ["Warning: Failed to apply date_add conversion: list index out of range"];
       stats := {| total_conversions := total_conversions (stats st);
                   functions_converted := functions_converted (stats st);
                   errors := (errors (stats st) + 1)%Z |} |} /\
  replace_func "date_add(d, 3 months)"
  = Returned "date_add(d, 3 months)"
      ["Warning: Failed to apply date_add conversion: list index out of range"]
      {| total_conversions := 0; functions_converted := []; errors := 1 |}.
Proof.
  intros Hd Hfree Hlen Hsql.
  assert (Hraise : _replace_date_add (call_match "date_add" d v) = Raise IndexError).
  { unfold _replace_date_add. rewrite call_match_split.
    destruct (split v) as [|a [|b [|c l]]]; try discriminate Hlen. reflexivity. }
  split; [exact Hraise|]. split; [|vm_compute; reflexivity].
  assert (Hv : second_arg v).
  { apply second_arg_of_split; [|assumption]. intros E. now rewrite E in Hlen. }
  unfold apply_rule. rewrite Hsql. cbn [pattern replacement date_add_rule].
  rewrite (sub_call_raises "date_add" _ "date_add" d v rest IndexError);
    [reflexivity | reflexivity | assumption | assumption | assumption].
Qed.

Lemma date_add_two_tokens_absorbed_witness :
  apply_rule (initial "date_add(d, 3 months)") date_add_rule
  = {| sql_content := "date_add(d, 3 months)";
       warnings :=
         ["Warning: Failed to apply date_add conversion: list index out of range"];
       stats := {| total_conversions := 0; functions_converted := [];
                   errors := 1 |} |}.
Proof.
  refine (proj1 (proj2 (date_add_two_tokens_absorbed
                          "d" "3 months" "" (initial "date_add(d, 3 months)")
                          _ _ _ _))).
  - split; [discriminate | simpl; intuition discriminate].
  - simpl. intuition discriminate.
  - reflexivity.
  - reflexivity.
Defined.

(** C4. [date_sub] mirrors [date_add] with the amount negated: a call
    with a single-token second argument [v] becomes
    [date_add('day', -v, d)]; one whose second argument has three tokens
    becomes [date_add('unit', -amount, d)], with the middle token as
    amount and the last token, less one final [s], as unit. The whole
    conversion turns [date_sub(col, interval 2 days)] into
    [date_add('day', -2, col)]. *)
Theorem date_sub_negates (d v : string) :
  first_arg d ->
  ~ In ")"%char (list_ascii_of_string v) ->
  (split v = [v] ->
   Re.sub (call2 "DATE_SUB") (Callable _replace_date_sub)
          ("date_sub(" ++ d ++ ", " ++ v ++ ")")%string true
   = Ok ("date_add('day', -" ++ v ++ ", " ++ d ++ ")")%string) /\
  (forall t amount unit,
      split v = [t; amount; unit] ->
      Re.sub (call2 "DATE_SUB") (Callable _replace_date_sub)
             ("date_sub(" ++ d ++ ", " ++ v ++ ")")%string true
      = Ok ("date_add('" ++ singular unit ++ "', -" ++ amount ++ ", " ++ d ++ ")")%string) /\
  replace_func "date_sub(col, interval 2 days)"
  = Returned "date_add('day', -2, col)" []
             {| total_conversions := 1;
                functions_converted := [("date_sub", 1%Z)];
                errors := 0 |}.
Proof.
  intros Hd Hfree. split; [|split; [|vm_compute; reflexivity]].
  - intros Hs.
    rewrite (sub_one_call "DATE_SUB" _ "date_sub" d v);
      [| reflexivity | assumption
       | apply second_arg_of_split; [rewrite Hs; discriminate | assumption]].
    cbn [apply_repl]. unfold _replace_date_sub.
    rewrite call_match_split, call_match_group1, Hs. cbn [List.length Nat.eqb].
    unfold group, call_match. cbn [groups lookup Nat.eqb].
    rewrite (single_token_lstrip v Hs), string_of_list_ascii_of_string.
    cbn [rmap]. rewrite string_of_list_ascii_of_string. reflexivity.
  - intros t amount unit Hs.
    rewrite (sub_one_call "DATE_SUB" _ "date_sub" d v);
      [| reflexivity | assumption
       | apply second_arg_of_split; [rewrite Hs; discriminate | assumption]].
    cbn [apply_repl]. unfold _replace_date_sub.
    rewrite call_match_split, call_match_group1, Hs.
    cbn [List.length Nat.eqb index nth_error rmap].
    rewrite string_of_list_ascii_of_string. reflexivity.
Qed.

Lemma date_sub_negates_witness :
  Re.sub (call2 "DATE_SUB") (Callable _replace_date_sub)
         "date_sub(col, 7)" true
  = Ok "date_add('day', -7, col)" /\
  Re.sub (call2 "DATE_SUB") (Callable _replace_date_sub)
         "date_sub(col, interval 2 days)" true
  = Ok "date_add('day', -2, col)".
Proof.
  split.
  - refine (proj1 (date_sub_negates "col" "7" _ _) _).
    + split; [discriminate | simpl; intuition discriminate].
    + simpl. intuition discriminate.
    + reflexivity.
  - refine (proj1 (proj2 (date_sub_negates "col" "interval 2 days" _ _))
                  "interval" "2" "days" _).
    + split; [discriminate | simpl; intuition discriminate].
    + simpl. intuition discriminate.
    + reflexivity.
Defined.

(** ** Backslash runs *)

Lemma runs_plain_prefix x :
  forall y cur,
    no_backslash x -> x <> [] ->
    runs_from cur (x ++ y) = flush cur ++ runs_from 0 y.
Proof.
  induction x as [|c x IH]; intros y cur Hx Hne; [contradiction|].
  inversion Hx as [|? ? Hc Hx']; subst. cbn [app runs_from].
  destruct (Ascii.eqb_spec c "\"); [contradiction|].
  destruct x as [|c' x].
  - destruct cur; reflexivity.
  - rewrite (IH y 0 Hx') by discriminate. destruct cur; reflexivity.
Qed.

Lemma runs_backslash_prefix run :
  forall rest cur,
    Forall (fun c => c = "\"%char) run ->
    runs_from cur (run ++ rest) = runs_from (List.length run + cur) rest.
Proof.
  induction run as [|c run IH]; intros rest cur H; [reflexivity|].
  inversion H as [|? ? Hc H']; subst. cbn [app runs_from List.length].
  rewrite Ascii.eqb_refl, IH by assumption. f_equal. lia.
Qed.

Lemma clean_classes ic r :
  clean ic r = true ->
  classes (fun cl => forall c, cmatch ic cl c = true -> c <> "\"%char) r.
Proof.
  induction r; simpl; intros H; auto;
    try (intros c Hc ->; rewrite Hc in H; discriminate).
  apply andb_true_iff in H. destruct H. split; auto.
Qed.

Lemma captured_clean ic r n t :
  clean ic r = true -> captured ic r n t -> no_backslash t.
Proof.
  induction r; simpl; intros H Hc; try contradiction.
  - destruct Hc as [[_ Hl]|Hc]; [|auto].
    eapply lang_classes; [|exact Hl]. now apply clean_classes.
  - apply andb_true_iff in H. destruct H. destruct Hc; auto.
Qed.

Lemma expand_plain t :
  forall mo,
    plain_template t = true ->
    Forall (fun e => no_backslash (snd e)) (groups mo) ->
    no_backslash (expand t mo).
Proof.
  induction t as [t IH] using (well_founded_induction
                                 (Wf_nat.well_founded_ltof _ (@List.length ascii))).
  intros mo Ht Hg. destruct t as [|c t]; [constructor|].
  cbn [expand plain_template] in *.
  assert (Hplain : forall c', c' <> "\"%char ->
                     plain_template t = true -> no_backslash (c' :: expand t mo)).
  { intros c' Hc' Ht'. constructor; [assumption|].
    apply IH; [unfold ltof; simpl; lia | assumption | assumption]. }
  destruct (Ascii.eqb_spec c "\") as [->|Hc].
  - change (Ascii.eqb "\" "\") with true in *.
    replace (match "\"%char with | "\"%char => 0 | _ => 1 end) with 0 in * by reflexivity.
    destruct t as [|d t']; [discriminate|].
    apply andb_true_iff in Ht. destruct Ht as [Ht Ht'].
    apply andb_true_iff in Ht. destruct Ht as [Hd1 Hd2].
    destruct (Ascii.eqb d "\"); [discriminate|]. rewrite Hd2.
    apply Forall_app. split.
    + induction Hg as [|[m x] g Hx Hg IHg]; simpl; [constructor|].
      destruct (Nat.eqb m (code d - 48)); auto.
    + apply IH; [unfold ltof; simpl; lia | assumption | assumption].
  - destruct c as [[] [] [] [] [] [] [] []];
      try (exfalso; apply Hc; reflexivity); apply Hplain; assumption.
Qed.

Lemma good_template_expand t mo :
  good_template t = true ->
  Forall (fun e => no_backslash (snd e)) (groups mo) ->
  expand (list_ascii_of_string t) mo <> [] /\
  no_backslash (expand (list_ascii_of_string t) mo).
Proof.
  unfold good_template. intros Ht Hg.
  destruct (list_ascii_of_string t) as [|c t'] eqn:E; [discriminate|].
  apply andb_true_iff in Ht. destruct Ht as [Hc Ht]. split.
  - destruct c as [[] [] [] [] [] [] [] []]; try discriminate Hc;
      cbn [expand]; discriminate.
  - now apply expand_plain.
Qed.

Section CleanSub.
Variable ic : bool.
Variable r : regex.
Variable t : string.
Hypothesis r_clean : clean ic r = true.
Hypothesis r_consuming : consuming r = true.
Hypothesis t_good : good_template t = true.

(** Replacing spans without backslashes by texts without backslashes,
    none of them empty, leaves the backslash runs as they are. *)
Lemma sub_loop_keeps_runs :
  forall n s, List.length s <= n ->
    forall prev cur out,
      sub_loop ic r (Template t) 0 prev s = Ok out ->
      runs_from cur out = runs_from cur s.
Proof.
  induction n as [|n IH]; intros s Hlen prev cur out H.
  - destruct s; [|simpl in Hlen; lia].
    simpl in H. rewrite match_here_nil in H by assumption.
    now inversion H.
  - destruct (match_here ic r prev s) as [[mo k]|] eqn:Em.
    + destruct (match_here_sound _ _ _ _ _ _ Em) as (rest & Es & Hl & Hk & Hg).
      assert (Hne : span mo <> []) by (eapply lang_consuming; eassumption).
      assert (Hspan : no_backslash (span mo)).
      { eapply lang_classes; [|exact Hl]. now apply clean_classes. }
      assert (Hgroups : Forall (fun e => no_backslash (snd e)) (groups mo)).
      { eapply Forall_impl; [|exact Hg]. intros e He. simpl in He.
        exact (captured_clean _ _ _ _ r_clean He). }
      destruct (good_template_expand t mo t_good Hgroups) as [Hout1 Hout2].
      subst s. rewrite sub_loop_hit with (n := k) in H by assumption.
      cbn [apply_repl] in H.
      destruct (sub_loop ic r (Template t) 0 (prev_after prev (span mo)) rest)
        as [out'|] eqn:E'; [|discriminate].
      inversion H; subst; clear H.
      rewrite !runs_plain_prefix by assumption. f_equal.
      apply (IH rest) with (prev := prev_after prev (span mo)); [|assumption].
      rewrite length_app in Hlen. destruct (span mo); [contradiction|].
      simpl in Hlen. lia.
    + destruct s as [|c s]; [simpl in H; rewrite Em in H; now inversion H|].
      rewrite sub_loop_miss in H by assumption.
      destruct (sub_loop ic r (Template t) 0 (Some c) s) as [out'|] eqn:E';
        [|discriminate].
      inversion H; subst; clear H. cbn [runs_from].
      simpl in Hlen.
      destruct (Ascii.eqb c "\"); [|destruct cur; [|f_equal]];
        apply (IH s) with (prev := Some c); auto; lia.
Qed.

Lemma sub_keeps_runs s s' :
  Re.sub r (Template t) s ic = Ok s' -> backslash_runs s' = backslash_runs s.
Proof.
  unfold Re.sub, backslash_runs. intros H.
  destruct (sub_loop ic r (Template t) 0 None (list_ascii_of_string s))
    as [out|] eqn:E; [|discriminate].
  inversion H; subst. rewrite list_ascii_of_string_of_list_ascii.
  eapply sub_loop_keeps_runs; [reflexivity | exact E].
Qed.
End CleanSub.

Lemma sub_all_keeps_runs table :
  Forall (fun e => clean true (fst e) = true /\ consuming (fst e) = true /\
                   good_template (snd e) = true) table ->
  forall s s', sub_all table s = Ok s' -> backslash_runs s' = backslash_runs s.
Proof.
  induction 1 as [|[old new] table (Hc & Hn & Ht) _ IH]; intros s s' H; simpl in H.
  - now inversion H.
  - destruct (Re.sub old (Template new) s true) as [s1|] eqn:E; [|discriminate].
    rewrite (IH _ _ H). eapply sub_keeps_runs; eassumption.
Qed.

Lemma replace_backtick_keeps_runs s :
  backslash_runs (replace "`" (String "034" "") s) = backslash_runs s.
Proof.
  unfold backslash_runs, replace. rewrite list_ascii_of_string_of_list_ascii.
  generalize 0 as cur. induction (list_ascii_of_string s) as [|c l IH]; intros cur.
  - reflexivity.
  - cbn [flat_map]. destruct (Ascii.eqb_spec c "`") as [->|Hc].
    + cbn [list_ascii_of_string app runs_from].
      change (Ascii.eqb "034" "\") with false. change (Ascii.eqb "`" "\") with false.
      destruct cur; now rewrite IH.
    + cbn [app runs_from]. destruct (Ascii.eqb c "\"); [apply IH|].
      destruct cur; now rewrite IH.
Qed.

Lemma backslash_split s :
  exists run rest,
    s = run ++ rest /\ Forall (fun c => c = "\"%char) run /\
    stops false (Lit "\") rest.
Proof.
  induction s as [|c s (run & rest & E & Hrun & Hstop)].
  - exists [], []. repeat split; constructor.
  - destruct (Ascii.eqb_spec c "\") as [->|Hc].
    + exists ("\"%char :: run), rest. subst s. repeat split; auto.
    + exists [], (c :: s). repeat split; [constructor|].
      simpl. now apply Ascii.eqb_neq.
Qed.

Lemma backslashes_match_here run rest prev :
  run <> [] -> Forall (fun c => c = "\"%char) run -> stops false (Lit "\") rest ->
  match_here false backslashes prev (run ++ rest)
  = Some ({| groups := []; span := run |}, List.length run).
Proof.
  intros Hne Hrun Hstop. unfold match_here, backslashes.
  destruct run as [|c run]; [contradiction|].
  inversion Hrun as [|? ? Hc Hrun']; subst. cbn [rmatch app cmatch].
  rewrite Ascii.eqb_refl.
  apply star_greedy.
  - eapply Forall_impl; [|exact Hrun']. intros a ->. apply Ascii.eqb_refl.
  - exact Hstop.
  - cbv beta zeta.
    replace (List.length ("\"%char :: run ++ rest) - List.length rest)
      with (List.length ("\"%char :: run))
      by (cbn [List.length]; rewrite length_app; lia).
    change ("\"%char :: run ++ rest) with (("\"%char :: run) ++ rest).
    rewrite firstn_app, Nat.sub_diag, firstn_all. cbn [firstn].
    now rewrite app_nil_r.
Qed.

Lemma backslashes_miss c s prev :
  c <> "\"%char -> match_here false backslashes prev (c :: s) = None.
Proof.
  intros Hc. unfold match_here, backslashes. cbn [rmatch cmatch].
  now apply Ascii.eqb_neq in Hc as ->.
Qed.

(** The backslash step: every maximal run becomes a run of two. *)
Lemma backslash_step_runs :
  forall n s, List.length s <= n ->
    forall prev out,
      sub_loop false backslashes (Template "\\\\") 0 prev s = Ok out ->
      runs_from 0 out = map (fun _ => 2) (runs_from 0 s).
Proof.
  induction n as [|n IH]; intros s Hlen prev out H.
  - destruct s; [|simpl in Hlen; lia]. simpl in H. now inversion H.
  - destruct s as [|c s]; [simpl in H; now inversion H|].
    simpl in Hlen.
    destruct (Ascii.eqb_spec c "\") as [->|Hc].
    + destruct (backslash_split s) as (run & rest & -> & Hrun & Hstop).
      change ("\"%char :: run ++ rest) with (("\"%char :: run) ++ rest) in H |- *.
      assert (Hm := backslashes_match_here ("\"%char :: run) rest prev
                      ltac:(discriminate) (Forall_cons _ eq_refl Hrun) Hstop).
      change ("\"%char :: run) with
        (span {| groups := []; span := "\"%char :: run |}) in H at 1.
      rewrite sub_loop_hit with (n := List.length ("\"%char :: run)) in H;
        [| exact Hm | discriminate].
      cbn [apply_repl span] in H.
      replace (expand (list_ascii_of_string "\\\\")
                      {| groups := []; span := "\"%char :: run |})
        with ["\"%char; "\"%char] in H by reflexivity.
      rewrite runs_backslash_prefix by (constructor; auto).
      rewrite length_app in Hlen.
      destruct rest as [|c' rest].
      * cbn [sub_loop] in H.
        rewrite match_here_nil in H by reflexivity.
        inversion H; subst. reflexivity.
      * simpl in Hstop. apply Ascii.eqb_neq in Hstop.
        rewrite sub_loop_miss in H by (now apply backslashes_miss).
        destruct (sub_loop false backslashes (Template "\\\\") 0 (Some c') rest)
          as [out'|] eqn:E'; [|discriminate].
        inversion H; subst; clear H.
        cbn [app runs_from List.length]. change (Ascii.eqb "\" "\") with true.
        cbv iota.
        apply Ascii.eqb_neq in Hstop. rewrite Hstop.
        rewrite Nat.add_0_r. cbn [map]. f_equal.
        apply (IH rest) with (prev := Some c'); [|assumption].
        simpl in Hlen. lia.
    + rewrite sub_loop_miss in H by (now apply backslashes_miss).
      destruct (sub_loop false backslashes (Template "\\\\") 0 (Some c) s)
        as [out'|] eqn:E'; [|discriminate].
      inversion H; subst; clear H. cbn [runs_from].
      apply Ascii.eqb_neq in Hc. rewrite Hc.
      apply (IH s) with (prev := Some c); [lia | assumption].
Qed.

Lemma backslash_sub_runs s s' :
  Re.sub backslashes (Template "\\\\") s false = Ok s' ->
  backslash_runs s' = map (fun _ => 2) (backslash_runs s).
Proof.
  unfold Re.sub, backslash_runs. intros H.
  destruct (sub_loop false backslashes (Template "\\\\") 0 None
                     (list_ascii_of_string s)) as [out|] eqn:E; [|discriminate].
  inversion H; subst. rewrite list_ascii_of_string_of_list_ascii.
  eapply backslash_step_runs; [reflexivity | exact E].
Qed.

(** The post-processing pass as a whole. *)
Lemma additional_runs s s' :
  _apply_additional_transformations s = Ok s' ->
  backslash_runs s' = map (fun _ => 2) (backslash_runs s).
Proof.
  unfold _apply_additional_transformations. intros H.
  destruct (sub_all type_mappings s) as [s1|] eqn:E1; [|discriminate].
  destruct (Re.sub interval_pattern (Template "INTERVAL '\1' ")
                   (replace "`" (String "034" "") s1) true) as [s2|] eqn:E2;
    [|discriminate].
  destruct (Re.sub backslashes (Template "\\\\") s2 false) as [s3|] eqn:E3;
    [|discriminate].
  rewrite (sub_all_keeps_runs function_replacements) with (s := s3) (s' := s');
    [| repeat constructor | exact H].
  rewrite (backslash_sub_runs _ _ E3).
  rewrite (sub_keeps_runs true interval_pattern "INTERVAL '\1' "
             eq_refl eq_refl eq_refl _ _ E2).
  rewrite replace_backtick_keeps_runs.
  rewrite (sub_all_keeps_runs type_mappings) with (s := s) (s' := s1);
    [reflexivity | repeat constructor | exact E1].
Qed.

(** C8, as the code has it. Every conversion returns; the backslash
    runs of the returned text are those of the text the rule engine
    left, each replaced by a run of two; so every maximal run of
    backslashes in the returned text has length two. *)
Theorem backslash_runs_doubled (sql : string) :
  exists text ws cs,
    replace_func sql = Returned text ws cs /\
    backslash_runs text
    = map (fun _ => 2)
          (backslash_runs (sql_content (run_rules function_mappings (initial sql)))) /\
    Forall (fun n => n = 2) (backslash_runs text).
Proof.
  destruct (replace_func_returns sql) as (t & Ht & E).
  do 3 eexists. split; [exact E|].
  rewrite (additional_runs _ _ Ht). split; [reflexivity|].
  apply Forall_forall. intros n Hn. apply in_map_iff in Hn.
  now destruct Hn as (_ & <- & _).
Qed.

(** C8, as stated, fails: the input has a backslash, the rewrite of
    [to_utc_timestamp] drops it with the second argument, and the
    returned text has none. *)
Lemma backslash_run_dropped :
  let sql := "to_utc_timestamp(a, \)" in
  exists text ws cs,
    replace_func sql = Returned text ws cs /\
    backslash_runs sql = [1] /\
    backslash_runs text <> map (fun _ => 2) (backslash_runs sql).
Proof.
  exists "at_timezone(a, 'UTC')", [],
    {| total_conversions := 1;
       functions_converted := [("to_utc_timestamp", 1%Z)];
       errors := 0 |}.
  split; [vm_compute; reflexivity|]. split; [reflexivity | discriminate].
Qed.

(** ** The count of [date_add] conversions *)

Lemma lang_seq_inv ic r1 r2 m :
  lang ic (r1 ;; r2) m ->
  exists m1 m2, m = m1 ++ m2 /\ lang ic r1 m1 /\ lang ic r2 m2.
Proof. intros H. inversion H; subst. eauto. Qed.

Lemma lang_chr_inv ic cl m :
  lang ic (Chr cl) m -> exists c, m = [c] /\ cmatch ic cl c = true.
Proof. intros H. inversion H; subst. eauto. Qed.

Lemma classes_impl (P Q : cclass -> Prop) r :
  (forall cl, P cl -> Q cl) -> classes P r -> classes Q r.
Proof.
  intros HPQ. induction r; simpl; auto. intros [H1 H2]. auto.
Qed.

(** A text of the pattern's language has no [x] when no item accepts [x]. *)
Lemma lang_free ic x r m :
  classes (fun cl => cmatch ic cl x = false) r -> lang ic r m -> ~ In x m.
Proof.
  intros Hr Hm Hin.
  assert (H : Forall (fun c => c <> x) m).
  { eapply lang_classes; [|exact Hm].
    eapply classes_impl; [|exact Hr].
    simpl. intros cl Hcl c Hc ->. congruence. }
  rewrite Forall_forall in H. now apply (H x Hin).
Qed.

Lemma idx_free c A rest : ~ In c A -> idx c (A ++ c :: rest) = List.length A.
Proof.
  induction A as [|a A IH]; intros H; simpl.
  - now rewrite Ascii.eqb_refl.
  - destruct (Ascii.eqb_spec a c) as [->|Hne].
    + exfalso. apply H. now left.
    + rewrite IH; [reflexivity|]. intros Hin. apply H. now right.
Qed.

Lemma idx_le c x y : idx c (x ++ c :: y) <= List.length x.
Proof.
  induction x as [|a x IH]; simpl.
  - now rewrite Ascii.eqb_refl.
  - destruct (Ascii.eqb a c); lia.
Qed.

Lemma first_split (c : ascii) (s : text) :
  In c s -> exists a b : text, s = a ++ c :: b /\ ~ In c a.
Proof.
  induction s as [|x s IH]; intros H; [contradiction|].
  destruct (Ascii.eqb_spec x c) as [->|Hne].
  - exists (@nil ascii), s. split; [reflexivity | intros []].
  - destruct H as [H|H]; [contradiction|].
    destruct (IH H) as (a & b & -> & Ha).
    exists (x :: a), b. split; [reflexivity|].
    intros [E|Hin]; [now apply Hne | now apply Ha].
Qed.

Lemma lit_comma c : cmatch true (Lit ",") c = true -> c = ","%char.
Proof.
  intros H. pose proof (notlit_comma c) as E. simpl in E, H. rewrite H in E.
  destruct (Ascii.eqb_spec c ","); [assumption | discriminate].
Qed.

Lemma lit_paren c : cmatch true (Lit ")") c = true -> c = ")"%char.
Proof.
  intros H. pose proof (notlit_paren c) as E. simpl in E, H. rewrite H in E.
  destruct (Ascii.eqb_spec c ")"); [assumption | discriminate].
Qed.

(** A span of a two-argument call: no comma up to the comma between the
    arguments, no closing parenthesis from there to the last character. *)
Lemma call2_shape name m :
  classes (fun cl => cmatch true cl "," = false) (lit name) ->
  lang true (call2 name) m ->
  exists A B, m = A ++ ","%char :: B ++ [")"%char] /\
              ~ In ","%char A /\ ~ In ")"%char B.
Proof.
  intros Hname H. unfold call2 in H.
  apply lang_seq_inv in H. destruct H as (m1 & x1 & -> & H1 & H).
  apply lang_seq_inv in H. destruct H as (m2 & x2 & -> & H2 & H).
  apply lang_seq_inv in H. destruct H as (m3 & x3 & -> & H3 & H).
  apply lang_seq_inv in H. destruct H as (m4 & x4 & -> & H4 & H).
  apply lang_seq_inv in H. destruct H as (m5 & x5 & -> & H5 & H).
  apply lang_seq_inv in H. destruct H as (m6 & x6 & -> & H6 & H).
  apply lang_seq_inv in H. destruct H as (m7 & m8 & -> & H7 & H8).
  apply lang_chr_inv in H5. destruct H5 as (c5 & -> & Hc5).
  apply lit_comma in Hc5. subst c5.
  apply lang_chr_inv in H8. destruct H8 as (c8 & -> & Hc8).
  apply lit_paren in Hc8. subst c8.
  exists (m1 ++ m2 ++ m3 ++ m4), (m6 ++ m7). split; [|split].
  - repeat rewrite <- app_assoc. reflexivity.
  - intros Hin. repeat (apply in_app_or in Hin; destruct Hin as [Hin|Hin]);
      revert Hin.
    + now apply (lang_free true ","%char _ _ Hname H1).
    + now apply (lang_free true ","%char (Star Space) _ eq_refl H2).
    + now apply (lang_free true ","%char (Chr (Lit "(")) _ eq_refl H3).
    + now apply (lang_free true ","%char (Grp 1 (Plus (NotLit ","))) _ eq_refl H4).
  - intros Hin. apply in_app_or in Hin. destruct Hin as [Hin|Hin]; revert Hin.
    + now apply (lang_free true ")"%char (Star Space) _ eq_refl H6).
    + now apply (lang_free true ")"%char (Grp 2 (Plus (NotLit ")"))) _ eq_refl H7).
Qed.

(** The extent of a match laid over a text [R] that has a comma and ends
    with a closing parenthesis: the match does not reach past [R]. *)
Lemma call2_match_bound name prev p R0 R1 t mo n :
  classes (fun cl => cmatch true cl "," = false) (lit name) ->
  match_here true (call2 name) prev
             (p ++ (R0 ++ ","%char :: R1 ++ [")"%char]) ++ t) = Some (mo, n) ->
  n <= List.length p + List.length (R0 ++ ","%char :: R1 ++ [")"%char]).
Proof.
  intros Hname H.
  destruct (match_here_sound _ _ _ _ _ _ H) as (rest & Es & Hl & -> & _).
  destruct (call2_shape _ _ Hname Hl) as (A & B & Em & HA & HB).
  rewrite Em in Es |- *.
  set (x := p ++ (R0 ++ ","%char :: R1 ++ [")"%char]) ++ t) in *.
  assert (E1 : x = (p ++ R0) ++ ","%char :: (R1 ++ ")"%char :: t)).
  { unfold x. repeat (rewrite <- app_assoc; cbn [app]). reflexivity. }
  assert (E2 : x = A ++ ","%char :: (B ++ ")"%char :: rest)).
  { rewrite Es. repeat (rewrite <- app_assoc; cbn [app]). reflexivity. }
  assert (HlenA : List.length A <= List.length p + List.length R0).
  { rewrite <- (idx_free ","%char A (B ++ ")"%char :: rest) HA), <- E2, E1.
    rewrite <- length_app. apply idx_le. }
  assert (E3 : skipn (S (List.length A)) x = B ++ ")"%char :: rest).
  { rewrite E2. rewrite skipn_app.
    replace (S (List.length A) - List.length A) with 1 by lia.
    rewrite skipn_all2 by lia. reflexivity. }
  assert (E4 : x = (p ++ R0 ++ ","%char :: R1) ++ ")"%char :: t).
  { unfold x. repeat (rewrite <- app_assoc; cbn [app]). reflexivity. }
  assert (HlenB : List.length B + S (List.length A)
                  <= List.length (p ++ R0 ++ ","%char :: R1)).
  { rewrite <- (idx_free ")"%char B rest HB), <- E3, E4.
    rewrite skipn_app.
    replace (S (List.length A) - List.length (p ++ R0 ++ ","%char :: R1)) with 0
      by (repeat rewrite length_app; cbn [List.length]; lia).
    rewrite skipn_O.
    etransitivity; [apply Nat.add_le_mono_r, idx_le|].
    rewrite length_skipn.
    repeat rewrite length_app. cbn [List.length]. lia. }
  repeat rewrite length_app in *. cbn [List.length] in *.
  repeat rewrite length_app in *. cbn [List.length] in *. lia.
Qed.

Lemma app_prefix {T} (a b c d : list T) :
  a ++ b = c ++ d -> List.length c <= List.length a ->
  exists e, a = c ++ e /\ d = e ++ b.
Proof.
  revert a. induction c as [|x c IH]; intros a H Hlen.
  - exists a. auto.
  - destruct a as [|y a]; [simpl in Hlen; lia|].
    simpl in H. injection H as -> H. simpl in Hlen.
    destruct (IH a H ltac:(lia)) as (e & -> & ->). exists e. auto.
Qed.

Lemma date_add_name_free :
  classes (fun cl => cmatch true cl "," = false) (lit "date_add").
Proof. simpl. repeat split. Qed.

Lemma date_add_output_shape R :
  date_add_output R ->
  exists R0 R1, R = R0 ++ ","%char :: R1 ++ [")"%char].
Proof.
  intros (u & tail & -> & _).
  exists (list_ascii_of_string "date_add('" ++ u ++ ["'"%char]),
         (" "%char :: tail).
  repeat (rewrite <- app_assoc; cbn [app list_ascii_of_string]). reflexivity.
Qed.

(** A text returned by [_replace_date_add] matches the [date_add]
    pattern again, whatever follows it, on a span inside it. *)
Lemma date_add_output_matches R t prev :
  date_add_output R ->
  exists mo n R',
    match_here true (call2 "date_add") prev (R ++ t) = Some (mo, n) /\
    span mo <> [] /\ R = span mo ++ R'.
Proof.
  intros HR. destruct (date_add_output_shape R HR) as (R0 & R1 & ER).
  destruct HR as (u & tail & -> & Hu).
  destruct (first_split ","%char ("'"%char :: u ++ ["'"%char; ","%char]))
    as (g1 & Z & Eg & Hg1).
  { right. apply in_or_app. right. right. now left. }
  assert (Hg1ne : g1 <> []).
  { intros ->. discriminate Eg. }
  assert (HZ : ~ In ")"%char Z).
  { intros Hin.
    assert (Hin' : In ")"%char ("'"%char :: u ++ ["'"%char; ","%char])).
    { rewrite Eg. apply in_or_app. right. now right. }
    destruct Hin' as [E|Hin']; [discriminate|].
    apply in_app_or in Hin'. destruct Hin' as [Hin'|[E|[E|[]]]];
      [contradiction | discriminate | discriminate]. }
  destruct (first_split ")"%char (Z ++ " "%char :: tail ++ [")"%char]))
    as (B & R2 & EB & HB).
  { apply in_or_app. right. right. apply in_or_app. right. now left. }
  assert (HBne : B <> []).
  { intros ->. destruct Z as [|z Z'].
    - discriminate EB.
    - injection EB as -> _. apply HZ. now left. }
  assert (E : list_ascii_of_string "date_add('" ++ u
              ++ list_ascii_of_string "', " ++ tail ++ [")"%char]
              = call_text (list_ascii_of_string "date_add") [] g1 B ++ R2).
  { unfold call_text. cbn [list_ascii_of_string app].
    repeat (rewrite <- app_assoc; cbn [app]).
    do 9 f_equal.
    transitivity (("'"%char :: u ++ ["'"%char; ","%char])
                    ++ " "%char :: tail ++ [")"%char]).
    { cbn [app]. repeat (rewrite <- app_assoc; cbn [app]). reflexivity. }
    rewrite Eg. repeat (rewrite <- app_assoc; cbn [app]).
    f_equal. f_equal. exact EB. }
  pose proof (call2_match_here "date_add" (list_ascii_of_string "date_add") []
                g1 B (R2 ++ t) prev eq_refl (Forall_nil _) Hg1ne Hg1 HBne HB)
    as Hm.
  rewrite app_assoc, <- E in Hm.
  do 2 eexists. exists R2. split; [exact Hm|]. split.
  - unfold call_text. simpl. discriminate.
  - exact E.
Qed.

Lemma captured_lit ic w n t :
  ~ captured ic (fold_right (fun c r => Seq (Chr (Lit c)) r) Eps w) n t.
Proof. induction w as [|c w IH]; simpl; tauto. Qed.

Lemma captured_call2 name n t :
  captured true (call2 name) n t ->
  (n = 1 /\ lang true (Plus (NotLit ",")) t) \/
  (n = 2 /\ lang true (Plus (NotLit ")")) t).
Proof.
  unfold call2, lit. cbn [captured]. intros H.
  destruct H as [H|[[]|[[]|[[[<- H]|[]]|[[]|[[]|[[[<- H]|[]]|[]]]]]]]]; auto.
  now apply captured_lit in H.
Qed.

Lemma group2_free name mo :
  Forall (fun e => captured true (call2 name) (fst e) (snd e)) (groups mo) ->
  ~ In ")"%char (lookup 2 (groups mo)).
Proof.
  intros H. apply (lookup_captured true (fun t => ~ In ")"%char t) _ _ _ H).
  - intros t Ht. apply captured_call2 in Ht.
    destruct Ht as [[E _]|[_ Hl]]; [discriminate|].
    now apply (lang_free true ")"%char (Plus (NotLit ")")) _ eq_refl Hl).
  - intros [].
Qed.

Lemma split_tokens_chars s :
  forall cur tok c,
    In tok (split_text cur s) -> In c tok -> In c cur \/ In c s.
Proof.
  induction s as [|a s IH]; intros cur tok c Htok Hc; simpl in Htok.
  - destruct cur; [contradiction|]. destruct Htok as [<-|[]].
    left. now apply in_rev.
  - destruct (isspace a).
    + destruct cur.
      * destruct (IH _ _ _ Htok Hc) as [[]|H]. right. now right.
      * destruct Htok as [<-|Htok].
        -- left. now apply in_rev.
        -- destruct (IH _ _ _ Htok Hc) as [[]|H]. right. now right.
    + destruct (IH _ _ _ Htok Hc) as [[<-|H]|H]; auto.
      * right. now left.
      * right. now right.
Qed.

Lemma removelast_in {T} (l : list T) x : In x (removelast l) -> In x l.
Proof.
  induction l as [|a l IH]; simpl; [auto|].
  destruct l; [intros []|]. intros [<-|H]; [now left | right; auto].
Qed.

Lemma index_in {T} (l : list T) i x : index l i = Ok x -> In x l.
Proof.
  unfold index. destruct (nth_error l i) eqn:E; [|discriminate].
  intros H. inversion H; subst. eapply nth_error_In; eassumption.
Qed.

(** What [_replace_date_add] returns on a match of the rule. *)
Lemma replace_date_add_output mo out :
  Forall (fun e => captured true (call2 "date_add") (fst e) (snd e)) (groups mo) ->
  _replace_date_add mo = Ok out ->
  date_add_output (list_ascii_of_string out).
Proof.
  intros Hg H. unfold _replace_date_add in H.
  destruct (List.length (split (group mo 2)) =? 1).
  - inversion H; subst; clear H.
    exists (list_ascii_of_string "day"),
      (list_ascii_of_string (group mo 2) ++ list_ascii_of_string ", CAST("
       ++ list_ascii_of_string (group mo 1)
       ++ list_ascii_of_string " AS TIMESTAMP)").
    split; [|simpl; intuition discriminate].
    unfold fstr. cbn [String.concat].
    repeat (rewrite list_of_append; cbn [list_ascii_of_string app]).
    repeat (rewrite <- app_assoc; cbn [app]). reflexivity.
  - destruct (index (split (group mo 2)) 1) as [value_part|] eqn:E1; [|discriminate].
    destruct (index (split (group mo 2)) 2) as [unit|] eqn:E2; [|discriminate].
    inversion H; subst; clear H.
    exists (list_ascii_of_string
              (if endswith unit "s" then drop_last unit else unit)),
      (list_ascii_of_string value_part ++ list_ascii_of_string ", "
       ++ list_ascii_of_string (group mo 1)).
    split.
    + unfold fstr. cbn [String.concat].
      repeat (rewrite list_of_append; cbn [list_ascii_of_string app]).
      repeat (rewrite <- app_assoc; cbn [app]). reflexivity.
    + assert (Hunit : ~ In ")"%char (list_ascii_of_string unit)).
      { intros Hin. apply index_in in E2. unfold split in E2.
        apply in_map_iff in E2. destruct E2 as (tok & <- & Htok).
        rewrite list_ascii_of_string_of_list_ascii in Hin.
        destruct (split_tokens_chars _ _ _ _ Htok Hin) as [[]|Hc].
        unfold group in Hc. rewrite list_ascii_of_string_of_list_ascii in Hc.
        now apply (group2_free _ _ Hg). }
      destruct (endswith unit "s"); [|assumption].
      unfold drop_last. rewrite list_ascii_of_string_of_list_ascii.
      intros Hin. apply Hunit. now apply removelast_in.
Qed.

(** After any text [p], a returned text [R] accounts for one match of
    the pattern: the count on [p ++ R ++ t] is at least one more than
    the count from some place inside [R] on. *)
Lemma count_over_output R :
  date_add_output R ->
  forall n p, List.length p <= n ->
    forall t prev, exists R' prev',
      S (count_loop true (call2 "date_add") 0 prev' (R' ++ t))
      <= count_loop true (call2 "date_add") 0 prev (p ++ R ++ t).
Proof.
  intros HR. induction n as [|n IH]; intros p Hlen t prev.
  - destruct p; [|simpl in Hlen; lia]. cbn [app].
    destruct (date_add_output_matches R t prev HR) as (mo & k & R' & Hm & Hne & E).
    rewrite E, <- app_assoc in Hm |- *.
    rewrite (count_loop_hit _ _ _ _ _ _ Hm Hne). eauto.
  - destruct (match_here true (call2 "date_add") prev (p ++ R ++ t))
      as [[mo k]|] eqn:Hm.
    + destruct (match_here_sound _ _ _ _ _ _ Hm) as (rest & Es & Hl & Hk & _).
      assert (Hne : span mo <> [])
        by (eapply lang_consuming; [apply call2_consuming | eassumption]).
      rewrite Es in Hm |- *. rewrite (count_loop_hit _ _ _ _ _ _ Hm Hne).
      destruct (Nat.le_gt_cases (List.length (span mo)) (List.length p)) as [Hle|Hgt].
      * destruct (app_prefix _ _ _ _ Es Hle) as (p2 & -> & ->).
        destruct (IH p2) with (t := t) (prev := prev_after prev (span mo))
          as (R' & prev' & HIH).
        { rewrite length_app in Hlen. destruct (span mo); [contradiction|].
          simpl in Hlen. lia. }
        exists R', prev'. lia.
      * destruct (date_add_output_shape R HR) as (R0 & R1 & ER).
        assert (Hb : k <= List.length p + List.length R).
        { rewrite <- Es in Hm. rewrite ER in Hm |- *. rewrite app_assoc in Hm.
          rewrite <- app_assoc in Hm.
          eapply call2_match_bound; [apply date_add_name_free | exact Hm]. }
        subst k. symmetry in Es.
        destruct (app_prefix _ _ _ _ Es ltac:(lia)) as (e & Ee & Erest).
        assert (Hle : List.length e <= List.length R).
        { rewrite Ee, length_app in Hb. lia. }
        destruct (app_prefix _ _ _ _ Erest Hle) as (R' & ER' & ->).
        exists R', (prev_after prev (span mo)). lia.
    + destruct p as [|c p].
      * exfalso. cbn [app] in Hm.
        destruct (date_add_output_matches R t prev HR) as (mo & k & R' & Hm' & _).
        congruence.
      * cbn [app] in Hm |- *. rewrite count_loop_miss by assumption.
        apply IH. simpl in Hlen. lia.
Qed.

(** The rewrite of [date_add] never lowers the number of matches. *)
Lemma date_add_count_grows :
  forall n s, List.length s <= n ->
    forall prev out,
      sub_loop true (call2 "date_add") (Callable _replace_date_add) 0 prev s
      = Ok out ->
      forall p prev',
        count_loop true (call2 "date_add") 0 prev s
        <= count_loop true (call2 "date_add") 0 prev' (p ++ out).
Proof.
  induction n as [|n IH]; intros s Hlen prev out H p prev'.
  - destruct s; [|simpl in Hlen; lia]. cbn [count_loop].
    rewrite match_here_nil by apply call2_consuming. lia.
  - destruct (match_here true (call2 "date_add") prev s) as [[mo k]|] eqn:Hm.
    + destruct (match_here_sound _ _ _ _ _ _ Hm) as (rest & Es & Hl & Hk & Hg).
      assert (Hne : span mo <> [])
        by (eapply lang_consuming; [apply call2_consuming | eassumption]).
      subst s. rewrite (sub_loop_hit _ _ _ _ _ _ _ Hm Hne) in H.
      rewrite (count_loop_hit _ _ _ _ _ _ Hm Hne).
      cbn [apply_repl] in H.
      destruct (_replace_date_add mo) as [R|] eqn:ER; [|discriminate].
      cbn [rmap] in H.
      destruct (sub_loop true (call2 "date_add") (Callable _replace_date_add) 0
                         (prev_after prev (span mo)) rest) as [out'|] eqn:E';
        [|discriminate].
      inversion H; subst; clear H.
      pose proof (replace_date_add_output _ _ Hg ER) as HR.
      destruct (count_over_output _ HR (List.length p) p (le_n _) out' prev')
        as (R' & prev'' & HL).
      assert (Hrest : List.length rest <= n).
      { rewrite length_app in Hlen. destruct (span mo); [contradiction|].
        simpl in Hlen. lia. }
      pose proof (IH rest Hrest _ _ E' R' prev''). lia.
    + destruct s as [|c s].
      * cbn [count_loop]. rewrite Hm. lia.
      * rewrite sub_loop_miss in H by assumption.
        rewrite count_loop_miss by assumption.
        destruct (sub_loop true (call2 "date_add") (Callable _replace_date_add) 0
                           (Some c) s) as [out'|] eqn:E'; [|discriminate].
        inversion H; subst; clear H.
        replace (p ++ c :: out') with ((p ++ [c]) ++ out')
          by (now rewrite <- app_assoc).
        apply (IH s) with (prev := Some c); [simpl in Hlen; lia | assumption].
Qed.

(** The [date_add] step of the engine never touches the statistics. *)
Lemma date_add_step_stats st :
  stats (apply_rule st date_add_rule) = stats st \/
  stats (apply_rule st date_add_rule) = add_error (stats st).
Proof.
  unfold apply_rule. cbn [pattern replacement date_add_rule].
  destruct (Re.sub (call2 "date_add") (Callable _replace_date_add)
                   (sql_content st) true) as [new_sql|e] eqn:E; [|now right].
  left. cbn [stats].
  unfold Re.sub in E.
  destruct (sub_loop true (call2 "date_add") (Callable _replace_date_add) 0 None
                     (list_ascii_of_string (sql_content st))) as [out|] eqn:E';
    [|discriminate].
  inversion E; subst; clear E.
  pose proof (date_add_count_grows _ _ (le_n _) _ _ E' [] None) as H.
  unfold findall_len. rewrite list_ascii_of_string_of_list_ascii.
  cbn [app] in H.
  match goal with |- context [(0 <? ?z)%Z] => destruct (Z.ltb_spec 0 z) end;
    [lia | reflexivity].
Qed.

Lemma only_date_add_rule :
  Forall (fun r => func_name r = "date_add" -> r = date_add_rule) function_mappings.
Proof.
  unfold function_mappings.
  repeat (constructor; [cbn [func_name]; intros H; try discriminate H; reflexivity|]).
  constructor.
Qed.

Lemma run_rules_no_date_add rules :
  Forall (fun r => func_name r = "date_add" -> r = date_add_rule) rules ->
  forall st,
    ~ In "date_add" (keys (functions_converted (stats st))) ->
    ~ In "date_add" (keys (functions_converted (stats (run_rules rules st)))).
Proof.
  induction 1 as [|r rules Hr _ IH]; intros st Hst; [exact Hst|].
  rewrite run_rules_cons. apply IH. intros Hin.
  destruct (apply_rule_keys _ _ _ Hin) as [Hin'|E]; [contradiction|].
  symmetry in E. rewrite (Hr E) in Hin.
  destruct (date_add_step_stats st) as [Es|Es]; rewrite Es in Hin; contradiction.
Qed.

Lemma engine_stats_ok sql :
  stats_ok (stats (run_rules function_mappings (initial sql))).
Proof.
  apply run_rules_stats_ok.
  - apply rule_names_distinct.
  - simpl. intros k [].
  - unfold stats_ok. simpl. repeat split; [constructor | lia].
Qed.

(** C2. The [date_add] step of the engine leaves [functions_converted]
    and [total_conversions] as they were, on every text; so no
    conversion returns [date_add] among the converted functions, and
    the total is the sum over the other rules. This holds also when the
    rewrite was applied, as on [date_add('col', 5)] and
    [date_add(col, interval 3 months)]. *)
Theorem date_add_never_counted (sql : string) :
  (forall st,
      functions_converted (stats (apply_rule st date_add_rule))
      = functions_converted (stats st) /\
      total_conversions (stats (apply_rule st date_add_rule))
      = total_conversions (stats st)) /\
  (exists text ws cs,
      replace_func sql = Returned text ws cs /\
      ~ In "date_add" (keys (functions_converted cs)) /\
      total_conversions cs = sum_counts (functions_converted cs)) /\
  replace_func "date_add('col', 5)"
  = Returned "date_add('day', 5, CAST('col' AS TIMESTAMP))" []
             {| total_conversions := 0; functions_converted := []; errors := 0 |} /\
  replace_func "date_add(col, interval 3 months)"
  = Returned "date_add('month', 3, col)" []
             {| total_conversions := 0; functions_converted := []; errors := 0 |}.
Proof.
  split; [|split; [|split; vm_compute; reflexivity]].
  - intros st. destruct (date_add_step_stats st) as [E|E]; rewrite E; auto.
  - destruct (replace_func_returns sql) as (t & _ & E).
    do 3 eexists. split; [exact E|]. split.
    + apply run_rules_no_date_add; [apply only_date_add_rule | intros []].
    + apply engine_stats_ok.
Qed.

(** ** One call of each construct *)


(** *** A text without a call of the pattern *)

Lemma unlit_sound r : forall w,
  unlit r = Some w -> r = fold_right (fun c r => Seq (Chr (Lit c)) r) Eps w.
Proof.
  induction r as [| cl | cl | cl | | n r IH | r1 IH1 r2 IH2]; intros w H;
    simpl in H; try discriminate.
  - now inversion H.
  - destruct r1; try discriminate. destruct cl; try discriminate.
    destruct (unlit r2) as [w'|]; [|discriminate]. inversion H; subst.
    simpl. now rewrite (IH2 w' eq_refl).
Qed.

Lemma lang_lit_same w m :
  lang true (fold_right (fun c r => Seq (Chr (Lit c)) r) Eps w) m ->
  lower_text m = lower_text w.
Proof.
  revert m. induction w as [|p w IH]; intros m H; simpl in H.
  - inversion H. reflexivity.
  - apply lang_seq_inv in H. destruct H as (m1 & m2 & -> & H1 & H2).
    apply lang_chr_inv in H1. destruct H1 as (c & -> & Hc).
    simpl in Hc. apply Ascii.eqb_eq in Hc. simpl. rewrite Hc. f_equal. auto.
Qed.

Lemma lit_paren_open c : cmatch true (Lit "(") c = true -> c = "("%char.
Proof.
  destruct c as [[] [] [] [] [] [] [] []]; simpl; intros H;
    try discriminate H; reflexivity.
Qed.

Lemma head_of_header r w m :
  head_of r = Some w -> lang true r m ->
  exists nm ws tl,
    m = nm ++ ws ++ "("%char :: tl /\ lower_text nm = lower_text w /\ spaces ws.
Proof.
  intros Hh Hl. unfold head_of in Hh.
  destruct r as [| | | | | |l r]; try discriminate.
  destruct r as [| | | | | |s r]; try discriminate.
  destruct s as [| |cl| | | |]; try discriminate.
  destruct cl; try discriminate.
  destruct r as [| | | | | |p r]; try discriminate.
  destruct p as [|cl| | | | |]; try discriminate.
  destruct cl as [p| | |]; try discriminate.
  destruct (Ascii.eqb_spec p "("); [subst p|discriminate].
  apply unlit_sound in Hh. subst l.
  apply lang_seq_inv in Hl. destruct Hl as (nm & x1 & -> & H1 & Hl).
  apply lang_seq_inv in Hl. destruct Hl as (ws & x2 & -> & H2 & Hl).
  apply lang_seq_inv in Hl. destruct Hl as (po & tl & -> & H3 & _).
  apply lang_chr_inv in H3. destruct H3 as (c & -> & Hc).
  apply lit_paren_open in Hc. subst c.
  exists nm, ws, tl. split; [reflexivity|]. split.
  - now apply lang_lit_same.
  - inversion H2; subst. assumption.
Qed.

Lemma drop_sp_app known more :
  exists more',
    drop_sp (known ++ more) = drop_sp known ++ more' /\ (more = [] -> more' = []).
Proof.
  induction known as [|c known IH]; simpl.
  - exists (drop_sp more). split; [reflexivity|]. now intros ->.
  - destruct (isspace c); [exact IH|]. exists more. split; auto.
Qed.

Lemma drop_sp_spaces ws z : spaces ws -> drop_sp (ws ++ z) = drop_sp z.
Proof.
  induction 1 as [|c ws Hc _ IH]; simpl; [reflexivity|]. now rewrite Hc.
Qed.

Lemma space_lower c : isspace c = true -> lower_char c = c.
Proof. destruct c as [[] [] [] [] [] [] [] []]; simpl; intros H;
         try discriminate H; reflexivity. Qed.

Lemma lower_space c : isspace (lower_char c) = isspace c.
Proof. destruct c as [[] [] [] [] [] [] [] []]; reflexivity. Qed.

Lemma suffix_may_sound n : forall k complete more nmr z,
  suffix_may n k complete = false ->
  (complete = true -> more = []) ->
  k ++ more = nmr ++ z ->
  lower_text nmr = lower_text n -> False.
Proof.
  induction n as [|a n IH]; intros k complete more nmr z H Hc E Hl.
  - discriminate H.
  - destruct nmr as [|c nmr]; [discriminate Hl|].
    simpl in Hl. injection Hl as Hl1 Hl2.
    destruct k as [|b k]; simpl in H.
    + destruct complete; [|discriminate]. rewrite (Hc eq_refl) in E.
      discriminate E.
    + simpl in E. injection E as -> E.
      rewrite <- Hl1, Ascii.eqb_refl in H. eapply IH; eauto.
Qed.

Lemma no_header_here w pre known more complete :
  proper_name w = true ->
  rev pre = known ++ more -> (complete = true -> more = []) ->
  suffix_may (rev w) (drop_sp known) complete = false ->
  ~ header w pre.
Proof.
  intros Hw Hrev Hc Hs (pre' & nm & ws & -> & Hnm & Hws).
  rewrite !rev_app_distr, <- app_assoc in Hrev.
  assert (Hd : drop_sp (rev ws ++ rev nm ++ rev pre') = rev nm ++ rev pre').
  { rewrite drop_sp_spaces by (now apply Forall_rev).
    unfold proper_name in Hw.
    assert (Hr : lower_text (rev nm) = lower_text (rev w)).
    { unfold lower_text in *. now rewrite !map_rev, Hnm. }
    destruct (rev w) as [|a rw]; [discriminate|].
    destruct (rev nm) as [|c rnm]; [discriminate|].
    simpl in Hr. injection Hr as Hr _. simpl.
    assert (Hsp : isspace c = false).
    { rewrite <- lower_space, Hr, lower_space.
      now destruct (isspace a). }
    now rewrite Hsp. }
  destruct (drop_sp_app known more) as (more' & Hd' & Hm).
  rewrite <- Hrev, Hd in Hd'.
  eapply (suffix_may_sound (rev w) (drop_sp known) complete more' (rev nm));
    [exact Hs | | symmetry; exact Hd' | ].
  - intros Hcomp. apply Hm. now apply Hc.
  - unfold lower_text in *. now rewrite !map_rev, Hnm.
Qed.

Lemma paren_not_in_segment (a t b p q : text) :
  a ++ t ++ b = p ++ "("%char :: q ->
  List.length a <= List.length p -> segment t ->
  List.length (a ++ t) <= List.length p.
Proof.
  intros E Hlen Hseg.
  destruct (Nat.le_gt_cases (List.length (a ++ t)) (List.length p)) as [H|H];
    [assumption|exfalso].
  symmetry in E. destruct (app_prefix _ _ _ _ E Hlen) as (e & -> & E').
  rewrite !length_app in H.
  assert (Hle : List.length (e ++ ["("%char]) <= List.length t)
    by (rewrite length_app; simpl; lia).
  replace (e ++ "("%char :: q) with ((e ++ ["("%char]) ++ q) in E'
    by (now rewrite <- app_assoc).
  destruct (app_prefix _ _ _ _ E' Hle) as (e' & -> & _).
  unfold segment in Hseg. rewrite !Forall_app in Hseg.
  destruct Hseg as [[_ Hp] _]. inversion Hp as [|? ? Hd _]. discriminate Hd.
Qed.

Lemma app_same_length {T} (a b x y : list T) :
  a ++ x = b ++ y -> List.length a = List.length b -> a = b /\ x = y.
Proof.
  intros E Hlen. destruct (app_prefix _ _ _ _ E ltac:(lia)) as (e & -> & ->).
  rewrite length_app in Hlen. destruct e; [|simpl in Hlen; lia].
  now rewrite app_nil_r.
Qed.

Lemma nm_items_sound w items :
  proper_name w = true ->
  forall pre known more complete,
    rev pre = known ++ more -> (complete = true -> more = []) ->
    Forall item_ok items ->
    nm_items (rev w) known complete items = true ->
    forall p q,
      pre ++ inst items = p ++ "("%char :: q ->
      List.length pre <= List.length p -> ~ header w p.
Proof.
  intros Hw. induction items as [|i items IH];
    intros pre known more complete Hrev Hc Hok Hnm p q E Hlen.
  - exfalso. simpl in E. rewrite app_nil_r in E. subst pre.
    rewrite length_app in Hlen. simpl in Hlen. lia.
  - inversion Hok as [|? ? Hi Hok']; subst. destruct i as [c|t|t]; simpl in Hnm.
    + apply andb_true_iff in Hnm. destruct Hnm as [Hchk Hnm].
      cbn [inst flat_map item_text app] in E.
      destruct (Nat.eq_dec (List.length pre) (List.length p)) as [Heq|Hne].
      * assert (Ep : pre = p /\ c = "("%char).
        { destruct (app_same_length _ _ _ _ E Heq) as [E1 E2].
          split; [assumption | now injection E2]. }
        destruct Ep as [<- ->]. simpl in Hchk.
        apply negb_true_iff in Hchk.
        eapply no_header_here; eauto.
      * apply (IH (pre ++ [c]) (c :: known) more complete) with (q := q); auto.
        -- rewrite rev_app_distr. simpl. now rewrite Hrev.
        -- rewrite <- app_assoc. exact E.
        -- rewrite length_app. simpl. lia.
    + cbn [inst flat_map item_text] in E. fold (inst items) in E.
      apply (IH (pre ++ list_ascii_of_string t)
                (rev (list_ascii_of_string t) ++ known) more complete)
        with (q := q); auto.
      * rewrite rev_app_distr, Hrev. now rewrite app_assoc.
      * rewrite <- app_assoc. exact E.
      * eapply paren_not_in_segment; eauto.
    + cbn [inst flat_map item_text] in E. fold (inst items) in E.
      apply (IH (pre ++ t) [] (rev (pre ++ t)) false) with (q := q); auto.
      * discriminate.
      * rewrite <- app_assoc. exact E.
      * eapply paren_not_in_segment; eauto.
Qed.

(** No call of the pattern's name anywhere in the text: no match at any
    position. *)
Lemma no_call_no_match r items :
  no_call r items = true -> Forall item_ok items ->
  forall p s prev, inst items = p ++ s -> match_here true r prev s = None.
Proof.
  unfold no_call. intros H Hok p s prev E.
  destruct (head_of r) as [w|] eqn:Hh; [|discriminate].
  apply andb_true_iff in H. destruct H as [Hw Hnm].
  destruct (match_here true r prev s) as [[mo n]|] eqn:Hm; [exfalso|reflexivity].
  destruct (match_here_sound _ _ _ _ _ _ Hm) as (rest & -> & Hl & _ & _).
  destruct (head_of_header _ _ _ Hh Hl) as (nm & ws & tl & Es & Hnm' & Hws).
  rewrite Es in E.
  apply (nm_items_sound w items Hw [] [] [] true eq_refl (fun _ => eq_refl) Hok Hnm
                        (p ++ nm ++ ws) (tl ++ rest)).
  - cbn [app]. rewrite E. repeat (rewrite <- app_assoc; cbn [app]). reflexivity.
  - simpl. lia.
  - exists p, nm, ws. auto.
Qed.

Section NoMatch.
Variable ic : bool.
Variable r : regex.
Variable repl : Re.replacement.

Lemma scan_no_match :
  forall s,
    (forall p s' prev, s = p ++ s' -> match_here ic r prev s' = None) ->
    forall prev,
      sub_loop ic r repl 0 prev s = Ok s /\ count_loop ic r 0 prev s = 0.
Proof.
  induction s as [|c s IH]; intros H prev.
  - simpl. rewrite (H [] [] prev eq_refl). auto.
  - rewrite sub_loop_miss, count_loop_miss by (apply (H []); reflexivity).
    destruct (IH (fun p s' prev' E => H (c :: p) s' prev' (f_equal (cons c) E))
                 (Some c)) as [E1 E2].
    rewrite E1, E2. auto.
Qed.
End NoMatch.

Lemma apply_rule_no_call st mapping items :
  no_call (pattern mapping) items = true -> Forall item_ok items ->
  sql_content st = string_of_list_ascii (inst items) ->
  apply_rule st mapping = st.
Proof.
  intros Hn Hok Hs. unfold apply_rule, Re.sub, findall_len.
  rewrite Hs, list_ascii_of_string_of_list_ascii.
  destruct (scan_no_match true (pattern mapping) (replacement mapping) (inst items)
              (no_call_no_match _ _ Hn Hok) None) as [E1 E2].
  rewrite E1. cbn [rmap]. rewrite list_ascii_of_string_of_list_ascii, E2.
  cbn. rewrite <- Hs. destruct st. reflexivity.
Qed.

Lemma run_rules_no_call rules : forall st items,
  forallb (fun m => no_call (pattern m) items) rules = true ->
  Forall item_ok items ->
  sql_content st = string_of_list_ascii (inst items) ->
  run_rules rules st = st.
Proof.
  induction rules as [|m rules IH]; intros st items H Hok Hs; [reflexivity|].
  cbn [forallb] in H. apply andb_true_iff in H. destruct H as [H1 H2].
  rewrite run_rules_cons, (apply_rule_no_call st m items) by assumption.
  now apply (IH st items).
Qed.

Lemma run_rules_app r1 r2 st :
  run_rules (r1 ++ r2) st = run_rules r2 (run_rules r1 st).
Proof. apply fold_left_app. Qed.

(** *** Matches of a sealed pattern stay within a segment *)

Section Local.
Context {A : Type}.
Variable ic : bool.
Variable dl : ascii.
Variable y : text.
Hypothesis dl_delim : delimiter dl = true.

Lemma delimiter_cases : dl = "("%char \/ dl = ")"%char \/ dl = ","%char.
Proof.
  unfold delimiter in dl_delim.
  destruct (Ascii.eqb_spec dl "("); auto.
  destruct (Ascii.eqb_spec dl ")"); auto.
  destruct (Ascii.eqb_spec dl ","); auto. discriminate.
Qed.

Lemma dl_not_word : isword dl = false.
Proof. destruct delimiter_cases as [->|[->| ->]]; reflexivity. Qed.

Lemma shuts_dl cl : shuts ic cl = true -> cmatch ic cl dl = false.
Proof.
  unfold shuts. intros H.
  apply andb_true_iff in H. destruct H as [H H3].
  apply andb_true_iff in H. destruct H as [H1 H2].
  apply negb_true_iff in H1, H2, H3.
  destruct delimiter_cases as [->|[->| ->]]; assumption.
Qed.

Lemma star_ext cl (k k' : @cont A) :
  (forall p s c, k p s c = k' p s c) ->
  forall s prev caps, star ic cl prev s caps k = star ic cl prev s caps k'.
Proof.
  intros Hk. induction s as [|c s IH]; intros prev caps; simpl; auto.
  destruct (cmatch ic cl c); auto. now rewrite IH, Hk.
Qed.

Lemma rmatch_ext r : forall (k k' : @cont A),
  (forall p s c, k p s c = k' p s c) ->
  forall s prev caps, rmatch ic r prev s caps k = rmatch ic r prev s caps k'.
Proof.
  induction r as [| cl | cl | cl | | n r IH | r1 IH1 r2 IH2];
    intros k k' Hk s prev caps; simpl.
  - apply Hk.
  - destruct s; auto. destruct (cmatch ic cl a); auto.
  - now apply star_ext.
  - destruct s; auto. destruct (cmatch ic cl a); auto. now apply star_ext.
  - destruct (at_boundary prev s); auto.
  - apply IH. intros. apply Hk.
  - apply IH1. intros. now apply IH2.
Qed.

Lemma star_local cl (k : @cont A) :
  cmatch ic cl dl = false ->
  forall x prev caps,
    star ic cl prev (x ++ dl :: y) caps k
    = star ic cl prev x caps (fun p s c => k p (s ++ dl :: y) c).
Proof.
  intros Hd. induction x as [|c x IH]; intros prev caps; simpl.
  - now rewrite Hd.
  - destruct (cmatch ic cl c); auto. now rewrite IH.
Qed.

Lemma firstn_local (x s : text) :
  firstn (List.length (x ++ dl :: y) - List.length (s ++ dl :: y)) (x ++ dl :: y)
  = firstn (List.length x - List.length s) x.
Proof.
  rewrite !length_app. cbn [List.length].
  replace (List.length x + S (List.length y) - (List.length s + S (List.length y)))
    with (List.length x - List.length s) by lia.
  rewrite firstn_app.
  replace (List.length x - List.length s - List.length x) with 0 by lia.
  cbn [firstn]. apply app_nil_r.
Qed.

Lemma rmatch_local r : forall (k : @cont A),
  sealed ic r = true ->
  forall x prev caps,
    rmatch ic r prev (x ++ dl :: y) caps k
    = rmatch ic r prev x caps (fun p s c => k p (s ++ dl :: y) c).
Proof.
  pose proof shuts_dl as Hshut.
  induction r as [| cl | cl | cl | | n r IH | r1 IH1 r2 IH2];
    intros k Hr x prev caps; simpl in Hr |- *.
  - reflexivity.
  - destruct x as [|c x]; simpl; [now rewrite Hshut | reflexivity].
  - now apply star_local, Hshut.
  - destruct x as [|c x]; simpl; [now rewrite Hshut|].
    destruct (cmatch ic cl c); auto. now apply star_local, Hshut.
  - replace (at_boundary prev (x ++ dl :: y)) with (at_boundary prev x); auto.
    unfold at_boundary. destruct x; simpl; [now rewrite dl_not_word | reflexivity].
  - rewrite IH by assumption. apply rmatch_ext. intros p s c.
    now rewrite firstn_local.
  - apply andb_true_iff in Hr. destruct Hr as [Hr1 Hr2].
    rewrite IH1 by assumption. apply rmatch_ext. intros p s c.
    now apply IH2.
Qed.
End Local.

Section LocalScan.
Variable ic : bool.
Variable r : regex.
Variable repl : Re.replacement.
Variable dl : ascii.
Variable y : text.
Hypothesis dl_delim : delimiter dl = true.
Hypothesis r_sealed : sealed ic r = true.
Hypothesis r_consuming : consuming r = true.

Lemma match_here_local x prev :
  match_here ic r prev (x ++ dl :: y) = match_here ic r prev x.
Proof.
  unfold match_here. rewrite (rmatch_local ic dl y dl_delim) by assumption.
  apply rmatch_ext. intros p s c. cbv zeta. rewrite firstn_local.
  do 2 f_equal. rewrite !length_app. cbn [List.length]. lia.
Qed.

(** Up to a delimiter the scan goes as if the text ended there; the
    delimiter is copied and the scan goes on behind it. *)
Lemma sub_loop_local :
  forall n x, List.length x <= n ->
    forall prev,
      sub_loop ic r repl 0 prev (x ++ dl :: y)
      = match sub_loop ic r repl 0 prev x with
        | Ok x' => rmap (fun y' => x' ++ dl :: y')
                        (sub_loop ic r repl 0 (Some dl) y)
        | Raise e => Raise e
        end.
Proof.
  induction n as [|n IH]; intros x Hlen prev.
  - destruct x; [|simpl in Hlen; lia]. cbn [app].
    rewrite sub_loop_miss
      by (rewrite (match_here_local []); now apply match_here_nil).
    cbn [sub_loop]. rewrite match_here_nil by assumption.
    destruct (sub_loop ic r repl 0 (Some dl) y); reflexivity.
  - destruct (match_here ic r prev x) as [[mo k]|] eqn:Hm.
    + destruct (match_here_sound _ _ _ _ _ _ Hm) as (rest & -> & Hl & -> & _).
      assert (Hne : span mo <> []) by (eapply lang_consuming; eassumption).
      rewrite (sub_loop_hit _ _ _ _ _ _ _ Hm Hne).
      rewrite <- match_here_local, <- app_assoc in Hm.
      rewrite <- app_assoc, (sub_loop_hit _ _ _ _ _ _ _ Hm Hne).
      destruct (apply_repl repl mo) as [out|]; [|reflexivity].
      rewrite IH.
      * destruct (sub_loop ic r repl 0 (prev_after prev (span mo)) rest);
          [|reflexivity].
        cbn [rmap]. destruct (sub_loop ic r repl 0 (Some dl) y); [|reflexivity].
        cbn [rmap]. now rewrite <- app_assoc.
      * rewrite length_app in Hlen. destruct (span mo); [contradiction|].
        simpl in Hlen. lia.
    + destruct x as [|c x].
      * cbn [app].
        rewrite sub_loop_miss
          by (rewrite (match_here_local []); now apply match_here_nil).
        cbn [sub_loop]. rewrite match_here_nil by assumption.
        destruct (sub_loop ic r repl 0 (Some dl) y); reflexivity.
      * cbn [app].
        rewrite sub_loop_miss
          by (change (c :: x ++ dl :: y) with ((c :: x) ++ dl :: y);
              now rewrite match_here_local).
        rewrite (sub_loop_miss _ _ _ _ _ _ Hm).
        rewrite IH by (simpl in Hlen; lia).
        destruct (sub_loop ic r repl 0 (Some c) x); [|reflexivity].
        cbn [rmap]. destruct (sub_loop ic r repl 0 (Some dl) y); reflexivity.
Qed.
End LocalScan.

(** *** Segments stay segments *)

Lemma sealed_classes ic r :
  sealed ic r = true ->
  classes (fun cl => forall c, cmatch ic cl c = true -> delimiter c = false) r.
Proof.
  assert (Hcl : forall cl, shuts ic cl = true ->
                           forall c, cmatch ic cl c = true -> delimiter c = false).
  { intros cl Hs c Hc. destruct (delimiter c) eqn:Hd; [|reflexivity].
    rewrite (shuts_dl ic c Hd cl Hs) in Hc. discriminate. }
  induction r; cbn [sealed classes]; intros H; auto; try (now apply Hcl).
  apply andb_true_iff in H. destruct H. split; auto.
Qed.

Lemma lang_sealed ic r m : sealed ic r = true -> lang ic r m -> segment m.
Proof.
  intros Hr Hl. eapply lang_classes; [|exact Hl]. now apply sealed_classes.
Qed.

Lemma captured_sealed ic r n t :
  sealed ic r = true -> captured ic r n t -> segment t.
Proof.
  induction r; simpl; intros H Hc; try contradiction.
  - destruct Hc as [[_ Hl]|Hc]; [|auto]. eapply lang_sealed; eassumption.
  - apply andb_true_iff in H. destruct H. destruct Hc; auto.
Qed.

Lemma expand_segment t :
  forall mo,
    segment t -> Forall (fun e => segment (snd e)) (groups mo) ->
    segment (expand t mo).
Proof.
  induction t as [t IH] using (well_founded_induction
                                 (Wf_nat.well_founded_ltof _ (@List.length ascii))).
  intros mo Ht Hg. destruct t as [|c t]; [constructor|].
  inversion Ht as [|? ? Hc Ht']; subst.
  assert (Hrec : segment (expand t mo))
    by (apply IH; [unfold ltof; simpl; lia | assumption | assumption]).
  assert (Hlook : forall n, segment (lookup n (groups mo))).
  { intros n. induction Hg as [|[m x] g Hx Hg IHg]; simpl; [constructor|].
    destruct (Nat.eqb m n); auto. }
  destruct (Ascii.eqb_spec c "\") as [->|Hne].
  - cbn [expand]. destruct t as [|d t2]; [repeat constructor|].
    inversion Ht' as [|? ? Hd Ht2]; subst.
    assert (Hrec2 : segment (expand t2 mo))
      by (apply IH; [unfold ltof; simpl; lia | assumption | assumption]).
    destruct (Ascii.eqb d "\"); [now constructor|].
    destruct (between 49 57 d).
    + apply Forall_app. split; [apply Hlook | assumption].
    + now constructor.
  - assert (E : expand (c :: t) mo = c :: expand t mo).
    { destruct c as [[] [] [] [] [] [] [] []];
        try (exfalso; apply Hne; reflexivity); reflexivity. }
    rewrite E. now constructor.
Qed.

Section SegmentSub.
Variable ic : bool.
Variable r : regex.
Variable t : string.
Hypothesis r_sealed : sealed ic r = true.
Hypothesis r_consuming : consuming r = true.
Hypothesis t_ok : template_ok t = true.

Lemma sub_loop_segment :
  forall n s, List.length s <= n -> segment s ->
    forall prev out,
      sub_loop ic r (Template t) 0 prev s = Ok out -> segment out.
Proof.
  assert (Ht : segment (list_ascii_of_string t)).
  { unfold template_ok in t_ok. rewrite forallb_forall in t_ok.
    apply Forall_forall. intros c Hc. apply negb_true_iff. now apply t_ok. }
  induction n as [|n IH]; intros s Hlen Hs prev out H.
  - destruct s; [|simpl in Hlen; lia].
    simpl in H. rewrite match_here_nil in H by assumption.
    inversion H. constructor.
  - destruct (match_here ic r prev s) as [[mo k]|] eqn:Em.
    + destruct (match_here_sound _ _ _ _ _ _ Em) as (rest & Es & Hl & Hk & Hg).
      assert (Hne : span mo <> []) by (eapply lang_consuming; eassumption).
      subst s. rewrite sub_loop_hit with (n := k) in H by assumption.
      cbn [apply_repl] in H.
      destruct (sub_loop ic r (Template t) 0 (prev_after prev (span mo)) rest)
        as [out'|] eqn:E'; [|discriminate].
      inversion H; subst; clear H.
      apply Forall_app in Hs. destruct Hs as [_ Hrest].
      apply Forall_app. split.
      * apply expand_segment; [assumption|].
        eapply Forall_impl; [|exact Hg]. intros e He. simpl in He.
        exact (captured_sealed _ _ _ _ r_sealed He).
      * apply (IH rest) with (prev := prev_after prev (span mo)); auto.
        rewrite length_app in Hlen. destruct (span mo); [contradiction|].
        simpl in Hlen. lia.
    + destruct s as [|c s]; [simpl in H; rewrite Em in H; now inversion H|].
      rewrite sub_loop_miss in H by assumption.
      destruct (sub_loop ic r (Template t) 0 (Some c) s) as [out'|] eqn:E';
        [|discriminate].
      inversion H; subst; clear H. inversion Hs; subst.
      constructor; [assumption|].
      apply (IH s) with (prev := Some c); auto. simpl in Hlen. lia.
Qed.
End SegmentSub.

Lemma sub_all_text_segment table :
  table_ok table = true ->
  forall x prev x',
    segment x -> sub_all_text table prev x = Ok x' -> segment x'.
Proof.
  induction table as [|[old new] table IH]; intros Ht x prev x' Hx H; simpl in H.
  - inversion H; subst; assumption.
  - cbn [table_ok forallb fst snd] in Ht.
    apply andb_true_iff in Ht. destruct Ht as [Ht Ht'].
    apply andb_true_iff in Ht. destruct Ht as [Ht H3].
    apply andb_true_iff in Ht. destruct Ht as [H1 H2].
    destruct (sub_loop true old (Template new) 0 prev x) as [x1|] eqn:E;
      [|discriminate].
    apply (IH Ht' x1 prev x'); [|assumption].
    eapply sub_loop_segment; eauto.
Qed.

Lemma sub_all_text_local table dl :
  delimiter dl = true -> table_ok table = true ->
  forall x y prev,
    sub_all_text table prev (x ++ dl :: y)
    = match sub_all_text table prev x with
      | Ok x' => rmap (fun y' => x' ++ dl :: y') (sub_all_text table (Some dl) y)
      | Raise e => Raise e
      end.
Proof.
  intros Hd. induction table as [|[old new] table IH]; intros Ht x y prev; simpl.
  - reflexivity.
  - cbn [table_ok forallb fst snd] in Ht.
    apply andb_true_iff in Ht. destruct Ht as [Ht Ht'].
    apply andb_true_iff in Ht. destruct Ht as [Ht H3].
    apply andb_true_iff in Ht. destruct Ht as [H1 H2].
    rewrite (sub_loop_local true old (Template new) dl y Hd H1 H2
                            (List.length x) x (le_n _)).
    destruct (sub_loop true old (Template new) 0 prev x) as [x1|]; [|reflexivity].
    destruct (sub_loop true old (Template new) 0 (Some dl) y) as [y1|] eqn:Ey;
      cbn [rmap].
    + now rewrite IH.
    + exfalso. destruct (sub_loop_template true old new y 0 (Some dl)) as [? E].
      congruence.
Qed.

Lemma sub_all_text_ok table : forall prev x, exists x', sub_all_text table prev x = Ok x'.
Proof.
  induction table as [|[old new] table IH]; intros prev x; simpl; eauto.
  destruct (sub_loop_template true old new x 0 prev) as [x1 ->]. apply IH.
Qed.

(** *** The whole pass *)

Lemma tables_ok :
  table_ok type_mappings = true /\ table_ok function_replacements = true.
Proof. split; reflexivity. Qed.

Lemma quote_backticks_app x y :
  quote_backticks (x ++ y) = quote_backticks x ++ quote_backticks y.
Proof. apply flat_map_app. Qed.

Lemma quote_backticks_segment x : segment x -> segment (quote_backticks x).
Proof.
  induction 1 as [|c x Hc _ IH]; simpl; [constructor|].
  destruct (Ascii.eqb c "`"); constructor; auto.
Qed.

Lemma quote_backticks_delimiter dl :
  delimiter dl = true -> quote_backticks [dl] = [dl].
Proof.
  intros Hd. destruct (delimiter_cases dl Hd) as [->|[->| ->]]; reflexivity.
Qed.

Lemma post_text_ok prev x : exists x', post_text prev x = Ok x'.
Proof.
  unfold post_text.
  destruct (sub_all_text_ok type_mappings prev x) as [x1 ->].
  destruct (sub_loop_template true interval_pattern "INTERVAL '\1' "
              (quote_backticks x1) 0 prev) as [x2 ->].
  destruct (sub_loop_template false backslashes "\\\\" x2 0 prev) as [x3 ->].
  apply sub_all_text_ok.
Qed.

Lemma post_text_segment prev x x' :
  segment x -> post_text prev x = Ok x' -> segment x'.
Proof.
  unfold post_text. intros Hx H.
  destruct (sub_all_text type_mappings prev x) as [x1|] eqn:E1; [|discriminate].
  destruct (sub_loop true interval_pattern (Template "INTERVAL '\1' ") 0 prev
                     (quote_backticks x1)) as [x2|] eqn:E2; [|discriminate].
  destruct (sub_loop false backslashes (Template "\\\\") 0 prev x2) as [x3|] eqn:E3;
    [|discriminate].
  eapply (sub_all_text_segment function_replacements); [reflexivity | | exact H].
  eapply (sub_loop_segment false backslashes "\\\\");
    [reflexivity | reflexivity | reflexivity | reflexivity | | exact E3].
  eapply (sub_loop_segment true interval_pattern "INTERVAL '\1' ");
    [reflexivity | reflexivity | reflexivity | reflexivity | | exact E2].
  apply quote_backticks_segment.
  eapply (sub_all_text_segment type_mappings); [reflexivity | exact Hx | exact E1].
Qed.

Lemma post_text_local dl x y prev x' y' :
  delimiter dl = true ->
  post_text prev x = Ok x' -> post_text (Some dl) y = Ok y' ->
  post_text prev (x ++ dl :: y) = Ok (x' ++ dl :: y').
Proof.
  unfold post_text. intros Hd Hx Hy.
  destruct (sub_all_text type_mappings prev x) as [x1|] eqn:Ex1; [|discriminate].
  destruct (sub_all_text type_mappings (Some dl) y) as [y1|] eqn:Ey1; [|discriminate].
  rewrite (sub_all_text_local type_mappings dl Hd eq_refl), Ex1, Ey1. cbn [rmap].
  change (x1 ++ dl :: y1) with (x1 ++ [dl] ++ y1).
  rewrite !quote_backticks_app, (quote_backticks_delimiter dl Hd). cbn [app].
  destruct (sub_loop true interval_pattern (Template "INTERVAL '\1' ") 0 prev
                     (quote_backticks x1)) as [x2|] eqn:Ex2; [|discriminate].
  destruct (sub_loop true interval_pattern (Template "INTERVAL '\1' ") 0 (Some dl)
                     (quote_backticks y1)) as [y2|] eqn:Ey2; [|discriminate].
  rewrite (sub_loop_local true interval_pattern _ dl _ Hd eq_refl eq_refl
                          _ _ (le_n _)), Ex2, Ey2. cbn [rmap].
  destruct (sub_loop false backslashes (Template "\\\\") 0 prev x2) as [x3|] eqn:Ex3;
    [|discriminate].
  destruct (sub_loop false backslashes (Template "\\\\") 0 (Some dl) y2)
    as [y3|] eqn:Ey3; [|discriminate].
  rewrite (sub_loop_local false backslashes _ dl _ Hd eq_refl eq_refl
                          _ _ (le_n _)), Ex3, Ey3. cbn [rmap].
  rewrite (sub_all_text_local function_replacements dl Hd eq_refl), Hx, Hy.
  reflexivity.
Qed.

Lemma sub_all_text_spec table : forall s,
  sub_all table s
  = rmap string_of_list_ascii (sub_all_text table None (list_ascii_of_string s)).
Proof.
  induction table as [|[old new] table IH]; intros s; simpl.
  - now rewrite string_of_list_ascii_of_string.
  - unfold Re.sub.
    destruct (sub_loop true old (Template new) 0 None (list_ascii_of_string s));
      cbn [rmap]; [|reflexivity].
    now rewrite IH, list_ascii_of_string_of_list_ascii.
Qed.

Lemma post_text_spec s :
  _apply_additional_transformations s
  = rmap string_of_list_ascii (post_text None (list_ascii_of_string s)).
Proof.
  unfold _apply_additional_transformations, post_text.
  rewrite sub_all_text_spec.
  destruct (sub_all_text type_mappings None (list_ascii_of_string s)) as [x1|];
    cbn [rmap]; [|reflexivity].
  unfold Re.sub, replace. fold (quote_backticks x1).
  rewrite !list_ascii_of_string_of_list_ascii.
  replace (flat_map
             (fun c : ascii =>
                if Ascii.eqb c "`" then list_ascii_of_string (String "034" "")
                else [c]) x1) with (quote_backticks x1) by reflexivity.
  destruct (sub_loop true interval_pattern (Template "INTERVAL '\1' ") 0 None
                     (quote_backticks x1)) as [x2|]; cbn [rmap]; [|reflexivity].
  rewrite list_ascii_of_string_of_list_ascii.
  destruct (sub_loop false backslashes (Template "\\\\") 0 None x2) as [x3|];
    cbn [rmap]; [|reflexivity].
  rewrite sub_all_text_spec. now rewrite list_ascii_of_string_of_list_ascii.
Qed.

(** *** The pass on a text with unknown parts *)



Lemma post_text_nil prev : post_text prev [] = Ok [].
Proof.
  assert (H : forall ic r t, consuming r = true ->
                sub_loop ic r (Template t) 0 prev [] = Ok []).
  { intros ic r t Hr. cbn [sub_loop]. now rewrite match_here_nil. }
  unfold post_text. cbn [sub_all_text type_mappings function_replacements].
  repeat (rewrite H by reflexivity; cbn [quote_backticks flat_map]).
  reflexivity.
Qed.


(** *** Matching a call with one argument *)

Section Greedy1.
Context {A : Type}.

Lemma grp_star_greedy n cl run rest prev caps (k : @cont A) res :
  Forall (fun c => cmatch true cl c = true) run ->
  stops true cl rest ->
  k (prev_after prev run) rest ((n, run) :: caps) = Some res ->
  rmatch true (Grp n (Star cl)) prev (run ++ rest) caps k = Some res.
Proof.
  intros Hrun Hstop Hk. cbn [rmatch].
  apply star_greedy; [assumption | assumption |].
  now rewrite firstn_prefix_len.
Qed.

Lemma call1_rmatch name nm ws x rest prev caps (k : @cont A) res :
  same_name nm name -> spaces ws -> x <> [] -> ~ In ")"%char x ->
  k (Some ")"%char) rest ((1, x) :: caps) = Some res ->
  rmatch true (call1 name) prev (nm ++ ws ++ "("%char :: x ++ ")"%char :: rest)
         caps k = Some res.
Proof.
  intros Hnm Hws Hx Hfree Hk. unfold call1, lit.
  rewrite rmatch_seq, rmatch_lit by (now apply same_name_lit).
  rewrite rmatch_seq, rmatch_star.
  apply star_greedy; [exact Hws | reflexivity |].
  rewrite rmatch_seq, rmatch_chr by reflexivity.
  rewrite rmatch_seq.
  apply grp_plus_greedy;
    [assumption | now apply free_notlit_paren | reflexivity |].
  rewrite rmatch_chr by reflexivity. exact Hk.
Qed.

Lemma call01_rmatch name nm ws x rest prev caps (k : @cont A) res :
  same_name nm name -> spaces ws -> ~ In ")"%char x ->
  k (Some ")"%char) rest ((1, x) :: caps) = Some res ->
  rmatch true (call01 name) prev (nm ++ ws ++ "("%char :: x ++ ")"%char :: rest)
         caps k = Some res.
Proof.
  intros Hnm Hws Hfree Hk. unfold call01, lit.
  rewrite rmatch_seq, rmatch_lit by (now apply same_name_lit).
  rewrite rmatch_seq, rmatch_star.
  apply star_greedy; [exact Hws | reflexivity |].
  rewrite rmatch_seq, rmatch_chr by reflexivity.
  rewrite rmatch_seq.
  apply grp_star_greedy; [now apply free_notlit_paren | reflexivity |].
  rewrite rmatch_chr by reflexivity. exact Hk.
Qed.
End Greedy1.

Lemma call1_match_here name nm x rest prev :
  same_name nm name -> x <> [] -> ~ In ")"%char x ->
  match_here true (call1 name) prev ((nm ++ "("%char :: x ++ [")"%char]) ++ rest)
  = Some ({| groups := [(1, x)]; span := nm ++ "("%char :: x ++ [")"%char] |},
          List.length (nm ++ "("%char :: x ++ [")"%char])).
Proof.
  intros Hnm Hx Hfree. unfold match_here.
  replace ((nm ++ "("%char :: x ++ [")"%char]) ++ rest)
    with (nm ++ [] ++ "("%char :: x ++ ")"%char :: rest)
    by (repeat (rewrite <- app_assoc; cbn [app]); reflexivity).
  apply call1_rmatch; try assumption; [constructor|].
  cbv beta zeta.
  replace (nm ++ [] ++ "("%char :: x ++ ")"%char :: rest)
    with ((nm ++ "("%char :: x ++ [")"%char]) ++ rest)
    by (repeat (rewrite <- app_assoc; cbn [app]); reflexivity).
  now rewrite firstn_prefix_len, length_app, Nat.add_sub.
Qed.

Lemma call01_match_here name nm x rest prev :
  same_name nm name -> ~ In ")"%char x ->
  match_here true (call01 name) prev ((nm ++ "("%char :: x ++ [")"%char]) ++ rest)
  = Some ({| groups := [(1, x)]; span := nm ++ "("%char :: x ++ [")"%char] |},
          List.length (nm ++ "("%char :: x ++ [")"%char])).
Proof.
  intros Hnm Hfree. unfold match_here.
  replace ((nm ++ "("%char :: x ++ [")"%char]) ++ rest)
    with (nm ++ [] ++ "("%char :: x ++ ")"%char :: rest)
    by (repeat (rewrite <- app_assoc; cbn [app]); reflexivity).
  apply call01_rmatch; try assumption; [constructor|].
  cbv beta zeta.
  replace (nm ++ [] ++ "("%char :: x ++ ")"%char :: rest)
    with ((nm ++ "("%char :: x ++ [")"%char]) ++ rest)
    by (repeat (rewrite <- app_assoc; cbn [app]); reflexivity).
  now rewrite firstn_prefix_len, length_app, Nat.add_sub.
Qed.

(** *** A text that is one match *)

Lemma sub_whole r repl mo :
  consuming r = true ->
  match_here true r None (span mo ++ []) = Some (mo, List.length (span mo)) ->
  Re.sub r repl (string_of_list_ascii (span mo)) true
  = rmap string_of_list_ascii (apply_repl repl mo) /\
  findall_len r (string_of_list_ascii (span mo)) true = 1.
Proof.
  intros Hr Hm.
  assert (Hne : span mo <> []).
  { intros E. rewrite E in Hm. cbn [app] in Hm.
    rewrite match_here_nil in Hm by assumption. discriminate. }
  unfold Re.sub, findall_len. rewrite list_ascii_of_string_of_list_ascii.
  rewrite <- (app_nil_r (span mo)).
  rewrite (sub_loop_hit _ _ _ _ _ _ _ Hm Hne), (count_loop_hit _ _ _ _ _ _ Hm Hne).
  cbn [sub_loop count_loop]. rewrite match_here_nil by assumption. split.
  - destruct (apply_repl repl mo); [|reflexivity]. simpl. now rewrite app_nil_r.
  - reflexivity.
Qed.

(** *** The conversion of a text with one call *)

Lemma count_no_call r items :
  no_call r items = true -> Forall item_ok items ->
  findall_len r (string_of_list_ascii (inst items)) true = 0.
Proof.
  intros Hn Hok. unfold findall_len. rewrite list_ascii_of_string_of_list_ascii.
  exact (proj2 (scan_no_match true r (Template "") (inst items)
                  (no_call_no_match _ _ Hn Hok) None)).
Qed.



(** *** Plain arguments *)

Lemma plain_segment x : plain x -> segment (list_ascii_of_string x).
Proof. intros [_ H]. eapply Forall_impl; [|exact H]. now intros c [Hc _]. Qed.

Lemma plain_nospace x :
  plain x -> Forall (fun c => isspace c = false) (list_ascii_of_string x).
Proof. intros [_ H]. eapply Forall_impl; [|exact H]. now intros c [_ Hc]. Qed.

Lemma plain_nonempty x : plain x -> list_ascii_of_string x <> [].
Proof. intros [H _] E. apply H. now destruct x. Qed.

Lemma segment_free (c : ascii) (t : text) :
  delimiter c = true -> segment t -> ~ In c t.
Proof.
  intros Hc Ht Hin. unfold segment in Ht. rewrite Forall_forall in Ht.
  specialize (Ht c Hin). congruence.
Qed.

Lemma plain_split x : plain x -> split x = [x].
Proof.
  intros Hx. pose proof (plain_nospace x Hx) as Hs.
  pose proof (plain_nonempty x Hx) as Hne.
  unfold split.
  assert (H : forall s cur, Forall (fun c => isspace c = false) s ->
                            cur ++ s <> [] ->
                            split_text cur s = [rev cur ++ s]).
  { induction s as [|c s IH]; intros cur Hall Hn; simpl.
    - rewrite app_nil_r in *. destruct cur; [contradiction | reflexivity].
    - inversion Hall as [|? ? Hc Hall']; subst. rewrite Hc.
      rewrite IH; [simpl; now rewrite <- app_assoc | assumption | discriminate]. }
  rewrite (H _ [] Hs Hne). simpl. now rewrite string_of_list_ascii_of_string.
Qed.

Lemma plain_first_arg x : plain x -> first_arg x.
Proof.
  intros Hx. split; [apply Hx|]. apply segment_free; [reflexivity|].
  now apply plain_segment.
Qed.

Lemma plain_second_arg x : plain x -> second_arg x.
Proof.
  intros Hx. split; [rewrite plain_split by assumption; discriminate|].
  apply segment_free; [reflexivity|]. now apply plain_segment.
Qed.

Lemma plain_group2 nm d v : plain v -> group (call_match nm d v) 2 = v.
Proof.
  intros Hv. unfold group, call_match. cbn [lookup groups Nat.eqb].
  rewrite lstrip_nospace by (now apply plain_nospace).
  apply string_of_list_ascii_of_string.
Qed.

Lemma string_as_items s items :
  list_ascii_of_string s = inst items -> s = string_of_list_ascii (inst items).
Proof. intros <-. now rewrite string_of_list_ascii_of_string. Qed.

(** A formatted string is the text of a list of items. *)
Ltac items_text :=
  apply string_as_items; unfold fstr; cbn [String.concat];
  repeat (rewrite list_of_append; simpl);
  repeat (rewrite <- app_assoc; simpl); rewrite ?app_nil_r; reflexivity.

(** *** Calls with two arguments *)

Lemma call2_items_text nm d v :
  call nm [d; v] = string_of_list_ascii (inst (call2_items nm d v)).
Proof.
  unfold call. items_text.
Qed.

Lemma call2_items_ok nm d v :
  segment (list_ascii_of_string nm) -> plain d -> plain v ->
  Forall item_ok (call2_items nm d v).
Proof.
  intros Hnm Hd Hv. repeat constructor; try assumption.
  - now apply plain_segment.
  - now apply plain_segment.
Qed.

Lemma call2_step name nm repl d v :
  same_name (list_ascii_of_string nm) name -> plain d -> plain v ->
  Re.sub (call2 name) repl (call nm [d; v]) true
  = rmap string_of_list_ascii (apply_repl repl (call_match nm d v)) /\
  findall_len (call2 name) (call nm [d; v]) true = 1.
Proof.
  intros Hnm Hd Hv.
  pose proof (call2_match_call name nm d v [] None Hnm (plain_first_arg d Hd)
                               (plain_second_arg v Hv)) as H.
  assert (E : call nm [d; v]
              = string_of_list_ascii (span (call_match nm d v))).
  { cbn [span call_match].
    rewrite <- (string_of_list_ascii_of_string (call nm [d; v])).
    f_equal. unfold call. cbn [String.concat].
    repeat (rewrite list_of_append; simpl).
    repeat (rewrite <- app_assoc; simpl). reflexivity. }
  rewrite E. apply sub_whole; [apply call2_consuming | exact H].
Qed.

Lemma lambda_apply g mo :
  rmap string_of_list_ascii (apply_repl (lambda g) mo) = Ok (fstr (g mo)).
Proof. simpl. now rewrite string_of_list_ascii_of_string. Qed.

(** The items are delimiters and segments. *)
Ltac segments :=
  repeat constructor;
  try (apply plain_segment; assumption);
  try (constructor; [reflexivity | apply plain_segment; assumption]).












(** *** Calls with one argument *)

Lemma call1_items_text nm x :
  call nm [x] = string_of_list_ascii (inst (call1_items nm x)).
Proof. unfold call. items_text. Qed.

Lemma call1_items_ok nm x :
  segment (list_ascii_of_string nm) -> plain x ->
  Forall item_ok (call1_items nm x).
Proof.
  intros Hnm Hx. repeat constructor; try assumption. now apply plain_segment.
Qed.

Lemma call1_span nm x :
  call nm [x] = string_of_list_ascii (span (call1_match nm x)).
Proof.
  rewrite call1_items_text. reflexivity.
Qed.

Lemma call1_match_group1 nm x : group (call1_match nm x) 1 = x.
Proof. apply string_of_list_ascii_of_string. Qed.

Lemma call1_consuming name : consuming (call1 name) = true.
Proof. apply consuming_lit_seq. reflexivity. Qed.

Lemma call01_consuming name : consuming (call01 name) = true.
Proof. apply consuming_lit_seq. reflexivity. Qed.

Lemma call1_step name nm repl x :
  same_name (list_ascii_of_string nm) name -> plain x ->
  Re.sub (call1 name) repl (call nm [x]) true
  = rmap string_of_list_ascii (apply_repl repl (call1_match nm x)) /\
  findall_len (call1 name) (call nm [x]) true = 1.
Proof.
  intros Hnm Hx. rewrite call1_span.
  apply sub_whole; [apply call1_consuming|].
  apply call1_match_here; [assumption | now apply plain_nonempty |].
  apply segment_free; [reflexivity | now apply plain_segment].
Qed.

Lemma call01_step name nm repl x :
  same_name (list_ascii_of_string nm) name -> plain x ->
  Re.sub (call01 name) repl (call nm [x]) true
  = rmap string_of_list_ascii (apply_repl repl (call1_match nm x)) /\
  findall_len (call01 name) (call nm [x]) true = 1.
Proof.
  intros Hnm Hx. rewrite call1_span.
  apply sub_whole; [apply call01_consuming|].
  apply call01_match_here; [assumption|].
  apply segment_free; [reflexivity | now apply plain_segment].
Qed.










(** *** [date_sub] and [date_part] *)

Lemma callable_apply f mo out :
  f mo = Ok out ->
  rmap string_of_list_ascii (apply_repl (Callable f) mo) = Ok out.
Proof. intros E. simpl. rewrite E. simpl. now rewrite string_of_list_ascii_of_string. Qed.


Lemma delimiter_lower c : delimiter (lower_char c) = delimiter c.
Proof. destruct c as [[] [] [] [] [] [] [] []]; reflexivity. Qed.

Lemma lower_segment s :
  segment (list_ascii_of_string s) -> segment (list_ascii_of_string (lower s)).
Proof.
  unfold lower. rewrite list_ascii_of_string_of_list_ascii.
  unfold segment, lower_text. rewrite Forall_map.
  apply Forall_impl. intros c Hc. now rewrite delimiter_lower.
Qed.

Lemma unquote_segment s :
  segment (list_ascii_of_string s) ->
  segment (list_ascii_of_string (replace "'" "" s)).
Proof.
  unfold replace. rewrite list_ascii_of_string_of_list_ascii.
  unfold segment. induction 1 as [|c l Hc Hl IH]; simpl; [constructor|].
  destruct (Ascii.eqb c "'"); simpl; [assumption | now constructor].
Qed.


Lemma plain_strip x : plain x -> strip x = x.
Proof.
  intros Hx. pose proof (plain_nospace x Hx) as Hs. unfold strip.
  rewrite (lstrip_nospace _ Hs), lstrip_nospace, rev_involutive.
  - apply string_of_list_ascii_of_string.
  - now apply Forall_rev.
Qed.


(** *** [add_months] and [adddate]: the [date_add] rule comes after *)

Lemma split_text_token x : forall cur s,
  Forall (fun c => isspace c = false) x ->
  split_text cur (x ++ s) = split_text (rev x ++ cur) s.
Proof.
  induction x as [|c x IH]; intros cur s Hx; [reflexivity|].
  inversion Hx as [|? ? Hc Hx']; subst. cbn [app split_text]. rewrite Hc.
  rewrite IH by assumption. cbn [rev]. now rewrite <- app_assoc.
Qed.

Lemma split_text_cons x s :
  Forall (fun c => isspace c = false) x -> x <> [] ->
  split_text [] (x ++ " "%char :: s) = x :: split_text [] s.
Proof.
  intros Hx Hne. rewrite split_text_token, app_nil_r by assumption.
  cbn [split_text]. replace (isspace " ") with true by reflexivity.
  destruct (rev x) as [|c y] eqn:E.
  - exfalso. apply Hne. rewrite <- (rev_involutive x), E. reflexivity.
  - now rewrite <- E, rev_involutive.
Qed.

Lemma split_text_last x :
  Forall (fun c => isspace c = false) x -> x <> [] ->
  split_text [] x = [x].
Proof.
  intros Hx Hne. rewrite <- (app_nil_r x) at 1.
  rewrite split_text_token, app_nil_r by assumption. cbn [split_text].
  destruct (rev x) as [|c y] eqn:E.
  - exfalso. apply Hne. rewrite <- (rev_involutive x), E. reflexivity.
  - now rewrite <- E, rev_involutive.
Qed.

Lemma sub_call_rest name f nm d v rest out :
  same_name (list_ascii_of_string nm) name -> first_arg d -> second_arg v ->
  f (call_match nm d v) = Ok out ->
  (forall prev,
      sub_loop true (call2 name) (Callable f) 0 prev (list_ascii_of_string rest)
      = Ok (list_ascii_of_string rest)) ->
  Re.sub (call2 name) (Callable f)
         (nm ++ "(" ++ d ++ ", " ++ v ++ ")" ++ rest)%string true
  = Ok (out ++ rest)%string.
Proof.
  intros Hnm Hd Hv Hf Hrest. unfold Re.sub.
  replace (list_ascii_of_string (nm ++ "(" ++ d ++ ", " ++ v ++ ")" ++ rest)%string)
    with (list_ascii_of_string (nm ++ "(" ++ d ++ ", " ++ v ++ ")")%string
          ++ list_ascii_of_string rest)
    by (repeat (rewrite list_of_append; simpl);
        repeat (rewrite <- app_assoc; simpl); reflexivity).
  pose proof (call2_match_call name nm d v (list_ascii_of_string rest) None
                               Hnm Hd Hv) as H.
  change (list_ascii_of_string (nm ++ "(" ++ d ++ ", " ++ v ++ ")")%string)
    with (span (call_match nm d v)) in H at 1 |- *.
  rewrite (sub_loop_hit _ _ _ _ _ _ _ H).
  - cbn [apply_repl]. rewrite Hf. cbn [rmap]. rewrite Hrest. cbn [rmap].
    now rewrite string_of_app, !string_of_list_ascii_of_string.
  - cbn [span call_match]. rewrite list_of_append. intros E.
    apply app_eq_nil in E. destruct E as [_ E].
    rewrite list_of_append in E. discriminate.
Qed.

Lemma date_add_step_text st new_sql :
  Re.sub (call2 "date_add") (Callable _replace_date_add) (sql_content st) true
  = Ok new_sql ->
  sql_content (apply_rule st date_add_rule) = new_sql.
Proof.
  intros E. unfold apply_rule. cbn [pattern replacement date_add_rule].
  now rewrite E.
Qed.



Lemma string_by_text (a b : string) :
  list_ascii_of_string a = list_ascii_of_string b -> a = b.
Proof.
  intros E. rewrite <- (string_of_list_ascii_of_string a), E.
  apply string_of_list_ascii_of_string.
Qed.

(** Two strings with the same characters. *)
Ltac same_text :=
  apply string_by_text; unfold fstr; cbn [String.concat];
  repeat (rewrite list_of_append; simpl);
  repeat (rewrite <- app_assoc; simpl); rewrite ?app_nil_r; reflexivity.

Lemma nospace_app (x y : text) :
  Forall (fun c => isspace c = false) x ->
  Forall (fun c => isspace c = false) y ->
  Forall (fun c => isspace c = false) (x ++ y).
Proof. intros Hx Hy. apply Forall_app. now split. Qed.

(** The [date_add] rule on the text the [add_months] rule leaves: the
    amount and the [CAST] are read as an amount of three tokens. *)
Lemma add_months_date_add d v st :
  plain d -> plain v ->
  sql_content st
  = fstr ["date_add('month', "; v; ", CAST("; d; " AS TIMESTAMP))"] ->
  sql_content (apply_rule st date_add_rule)
  = fstr ["date_add('AS', CAST("; d; ", 'month')"; ")"].
Proof.
  intros Hd Hv Es. apply date_add_step_text. rewrite Es.
  pose proof (plain_nospace d Hd) as Nd. pose proof (plain_nospace v Hv) as Nv.
  pose proof (plain_segment d Hd) as Sd. pose proof (plain_segment v Hv) as Sv.
  set (v' := (v ++ ", CAST(" ++ d ++ " AS TIMESTAMP")%string).
  assert (Ev : split v' = [(v ++ ",")%string; ("CAST(" ++ d)%string; "AS"; "TIMESTAMP"]).
  { unfold split, v'.
    replace (list_ascii_of_string (v ++ ", CAST(" ++ d ++ " AS TIMESTAMP")%string)
      with ((list_ascii_of_string v ++ list_ascii_of_string ",") ++ " "%char ::
            (list_ascii_of_string "CAST(" ++ list_ascii_of_string d) ++ " "%char :: list_ascii_of_string "AS" ++ " "%char :: list_ascii_of_string "TIMESTAMP")
      by (repeat (rewrite list_of_append; simpl);
          repeat (rewrite <- app_assoc; simpl); reflexivity).
    rewrite split_text_cons, split_text_cons, split_text_cons, split_text_last;
      try (apply nospace_app; try assumption); try (repeat constructor);
      try (intros E; apply app_eq_nil in E; destruct E; discriminate);
      try discriminate.
    cbn [map]. now rewrite !string_of_app, !string_of_list_ascii_of_string. }
  replace (fstr ["date_add('month', "; v; ", CAST("; d; " AS TIMESTAMP))"])
    with ("date_add" ++ "(" ++ "'month'" ++ ", " ++ v' ++ ")" ++ ")")%string.
  2:{ unfold v'. same_text. }
  rewrite (sub_call_rest "date_add" _replace_date_add "date_add" "'month'" v' ")"
             (fstr ["date_add('"; "AS"; "', "; ("CAST(" ++ d)%string; ", ";
                    "'month'"; ")"])).
  - f_equal. same_text.
  - reflexivity.
  - split; [discriminate|]. simpl. intuition discriminate.
  - split; [rewrite Ev; discriminate|]. unfold v'.
    repeat (rewrite list_of_append; simpl). intros Hin.
    apply in_app_or in Hin.
    destruct Hin as [Hin|Hin]; [exact (segment_free ")"%char _ eq_refl Sv Hin)|].
    repeat (destruct Hin as [Hin|Hin]; [discriminate|]).
    apply in_app_or in Hin.
    destruct Hin as [Hin|Hin]; [exact (segment_free ")"%char _ eq_refl Sd Hin)|].
    repeat (destruct Hin as [Hin|Hin]; [discriminate|]). exact Hin.
  - unfold _replace_date_add. rewrite call_match_split, Ev, call_match_group1.
    reflexivity.
  - intros prev. reflexivity.
Qed.




(** The argument lists of the documented lengths. *)
Ltac by_arity :=
  match goal with
  | Har : In (List.length ?args) _, Hpl : Forall plain ?args |- _ =>
      destruct args as [|a1 [|a2 [|a3 args]]];
      simpl in Har;
      repeat (destruct Har as [Har|Har]; try discriminate Har);
      try contradiction;
      repeat match goal with
             | H : Forall plain (_ :: _) |- _ =>
                 let Ha := fresh "Ha" in
                 let Hl := fresh "Hl" in
                 inversion H as [|? ? Ha Hl]; subst; clear H
             end
  end.





(** ** Further properties of the code *)

(** *** [_replace_date_part] *)

Lemma unquote_part k :
  replace "'" "" (dict_get part_mapping k k) = replace "'" "" k.
Proof.
  unfold part_mapping. cbn [dict_get].
  repeat match goal with
         | |- context [String.eqb ?a k] =>
             destruct (String.eqb_spec a k) as [<-|_]; [reflexivity|]
         end.
  reflexivity.
Qed.

Lemma replace_removes c s :
  ~ In c (list_ascii_of_string (replace c "" s)).
Proof.
  unfold replace. rewrite list_ascii_of_string_of_list_ascii.
  induction (list_ascii_of_string s) as [|a l IH]; simpl; [tauto|].
  destruct (Ascii.eqb_spec a c) as [->|Hne]; simpl; [exact IH|].
  intros [E|H]; [now apply Hne | now apply IH].
Qed.

Lemma lstrip_idem s : lstrip_text (lstrip_text s) = lstrip_text s.
Proof.
  induction s as [|c s IH]; simpl; [reflexivity|].
  destruct (isspace c) eqn:E; [exact IH|]. simpl. now rewrite E.
Qed.

Lemma call_match_strip2 nm d v : strip (group (call_match nm d v) 2) = strip v.
Proof.
  unfold strip, group, call_match. cbn [groups lookup Nat.eqb].
  now rewrite list_ascii_of_string_of_list_ascii, lstrip_idem.
Qed.

(** [date_part] with any spelling of the name: the call becomes
    [extract(p FROM x)], where [x] is the second argument stripped and
    [p] the first argument stripped, in lower case and without its
    apostrophes. The table of parts does not change the result: a part it
    does not list is passed on in the same way. *)
Theorem date_part_extracts (nm d v : string) :
  same_name (list_ascii_of_string nm) "DATE_PART" ->
  first_arg d -> second_arg v ->
  let part := replace "'" "" (lower (strip d)) in
  Re.sub (call2 "DATE_PART") (Callable _replace_date_part)
         (nm ++ "(" ++ d ++ ", " ++ v ++ ")")%string true
  = Ok ("extract(" ++ part ++ " FROM " ++ strip v ++ ")")%string /\
  ~ In "'"%char (list_ascii_of_string part).
Proof.
  intros Hnm Hd Hv. split; [|apply replace_removes].
  rewrite (sub_one_call "DATE_PART" _ nm d v Hnm Hd Hv).
  cbn [apply_repl]. unfold _replace_date_part.
  rewrite call_match_group1, call_match_strip2, unquote_part.
  cbn [rmap]. now rewrite string_of_list_ascii_of_string.
Qed.

Lemma date_part_extracts_witness :
  Re.sub (call2 "DATE_PART") (Callable _replace_date_part)
         "Date_Part( 'Week' ,  created )" true
  = Ok "extract(week FROM created)".
Proof.
  refine (proj1 (date_part_extracts "Date_Part" " 'Week' " " created " _ _ _)).
  - reflexivity.
  - split; [discriminate | simpl; intuition discriminate].
  - split; [discriminate | simpl; intuition discriminate].
Defined.

(** *** [_replace_date_add] and [_replace_date_sub] by the number of tokens *)

Lemma sub_call_text name repl nm d B :
  same_name (list_ascii_of_string nm) name -> first_arg d ->
  B <> [] -> ~ In ")"%char B ->
  Re.sub (call2 name) repl (call_string nm d B) true
  = rmap string_of_list_ascii (apply_repl repl (call_match_text nm d B)).
Proof.
  intros Hnm [Hd1 Hd2] HB Hfree.
  apply (sub_whole (call2 name) repl (call_match_text nm d B)).
  - apply call2_consuming.
  - cbn [span call_match_text]. apply call2_match_here; try assumption.
    + constructor.
    + intros E. apply Hd1. rewrite <- (string_of_list_ascii_of_string d), E.
      reflexivity.
Qed.

Lemma arg2_split B : split_text [] (arg2 B) = split_text [] B.
Proof.
  unfold arg2. destruct (lstrip_text B) as [|c g] eqn:E.
  - rewrite (split_lstrip_nil B E).
    destruct (lstrip_split B) as (ws & EB & Hws & _).
    rewrite E, app_nil_r in EB. subst ws.
    destruct B as [|b B']; [reflexivity|].
    assert (Hl : isspace (last (b :: B') " "%char) = true).
    { destruct (exists_last (l := b :: B') ltac:(discriminate)) as (x & w & Ex).
      rewrite Ex, last_last. rewrite Ex in Hws.
      apply Forall_app in Hws. destruct Hws as [_ Hw]. now inversion Hw. }
    cbn [split_text]. now rewrite Hl.
  - rewrite <- E. apply split_lstrip.
Qed.

Lemma call_match_text_split nm d B :
  split (group (call_match_text nm d B) 2)
  = map string_of_list_ascii (split_text [] B).
Proof.
  unfold split, group, call_match_text. cbn [groups lookup Nat.eqb].
  now rewrite list_ascii_of_string_of_list_ascii, arg2_split.
Qed.

Lemma call_match_text_group1 nm d B : group (call_match_text nm d B) 1 = d.
Proof. apply string_of_list_ascii_of_string. Qed.

Lemma arg2_token B t : split_text [] B = [t] -> arg2 B = lstrip_text B.
Proof.
  intros H. unfold arg2. destruct (lstrip_text B) eqn:E; [|reflexivity].
  now rewrite (split_lstrip_nil B E) in H.
Qed.

(** [date_add] with any spelling of the name, on a call [nm(d,B)], by
    the number of tokens of the second argument [B]: one token gives
    the [day] form, with the argument as written from its first
    character that is not white space; three or more give the interval
    form, read off the second and the third token only; none or two
    raise the index error. *)
Theorem date_add_by_tokens (nm d : string) (B : text) :
  same_name (list_ascii_of_string nm) "date_add" -> first_arg d ->
  B <> [] -> ~ In ")"%char B ->
  Re.sub (call2 "date_add") (Callable _replace_date_add)
         (call_string nm d B) true
  = match map string_of_list_ascii (split_text [] B) with
    | [_] =>
        Ok ("date_add('day', " ++ string_of_list_ascii (lstrip_text B)
            ++ ", CAST(" ++ d ++ " AS TIMESTAMP))")%string
    | _ :: amount :: unit :: _ =>
        Ok ("date_add('" ++ singular unit ++ "', " ++ amount ++ ", " ++ d ++ ")")%string
    | _ => Raise IndexError
    end.
Proof.
  intros Hnm Hd HB Hfree.
  rewrite (sub_call_text "date_add" _ nm d B Hnm Hd HB Hfree).
  cbn [apply_repl]. unfold _replace_date_add.
  rewrite call_match_text_split, call_match_text_group1.
  destruct (split_text [] B) as [|t [|a [|u l]]] eqn:E; cbn [map List.length Nat.eqb].
  - reflexivity.
  - unfold group, call_match_text. cbn [groups lookup Nat.eqb rmap].
    rewrite (arg2_token B t E). now rewrite string_of_list_ascii_of_string.
  - reflexivity.
  - cbn [index nth_error rmap]. now rewrite string_of_list_ascii_of_string.
Qed.

Lemma date_add_by_tokens_witness :
  Re.sub (call2 "date_add") (Callable _replace_date_add)
         "DATE_ADD(col, every 3 months or so)" true
  = Ok "date_add('month', 3, col)".
Proof.
  apply (date_add_by_tokens "DATE_ADD" "col"
           (list_ascii_of_string " every 3 months or so")).
  - reflexivity.
  - split; [discriminate | simpl; intuition discriminate].
  - discriminate.
  - simpl. intuition discriminate.
Defined.

(** [date_sub] in the same way, with the amount negated. *)
Theorem date_sub_by_tokens (nm d : string) (B : text) :
  same_name (list_ascii_of_string nm) "DATE_SUB" -> first_arg d ->
  B <> [] -> ~ In ")"%char B ->
  Re.sub (call2 "DATE_SUB") (Callable _replace_date_sub)
         (call_string nm d B) true
  = match map string_of_list_ascii (split_text [] B) with
    | [_] =>
        Ok ("date_add('day', -" ++ string_of_list_ascii (lstrip_text B)
            ++ ", " ++ d ++ ")")%string
    | _ :: amount :: unit :: _ =>
        Ok ("date_add('" ++ singular unit ++ "', -" ++ amount ++ ", " ++ d ++ ")")%string
    | _ => Raise IndexError
    end.
Proof.
  intros Hnm Hd HB Hfree.
  rewrite (sub_call_text "DATE_SUB" _ nm d B Hnm Hd HB Hfree).
  cbn [apply_repl]. unfold _replace_date_sub.
  rewrite call_match_text_split, call_match_text_group1.
  destruct (split_text [] B) as [|t [|a [|u l]]] eqn:E; cbn [map List.length Nat.eqb].
  - reflexivity.
  - unfold group, call_match_text. cbn [groups lookup Nat.eqb rmap].
    rewrite (arg2_token B t E). now rewrite string_of_list_ascii_of_string.
  - reflexivity.
  - cbn [index nth_error rmap]. now rewrite string_of_list_ascii_of_string.
Qed.

Lemma date_sub_by_tokens_witness :
  Re.sub (call2 "DATE_SUB") (Callable _replace_date_sub)
         "date_sub(col,  )" true
  = Raise IndexError.
Proof.
  apply (date_sub_by_tokens "date_sub" "col" (list_ascii_of_string "  ")).
  - reflexivity.
  - split; [discriminate | simpl; intuition discriminate].
  - discriminate.
  - simpl. intuition discriminate.
Defined.

(** *** A rule without a match *)

Section NoMatchScan.
Variable ic : bool.
Variable r : regex.
Variable repl : Re.replacement.

Lemma count_zero_sub :
  forall s prev,
    count_loop ic r 0 prev s = 0 -> sub_loop ic r repl 0 prev s = Ok s.
Proof.
  induction s as [|c s IH]; intros prev H; cbn [count_loop sub_loop] in *.
  - destruct (match_here ic r prev []) as [[mo n]|]; [discriminate | reflexivity].
  - destruct (match_here ic r prev (c :: s)) as [[mo n]|]; [discriminate|].
    now rewrite (IH _ H).
Qed.
End NoMatchScan.

(** A rule whose pattern has no match in the text leaves the text, the
    warnings and the statistics as they are: it cannot fail. *)
Theorem no_match_no_change (st : state) (mapping : rule) :
  findall_len (pattern mapping) (sql_content st) true = 0 ->
  apply_rule st mapping = st.
Proof.
  intros H. unfold apply_rule, Re.sub. unfold findall_len in H.
  rewrite (count_zero_sub true _ _ _ _ H). cbn [rmap].
  unfold findall_len.
  rewrite string_of_list_ascii_of_string, H. cbn.
  destruct st. reflexivity.
Qed.

Lemma no_match_no_change_witness :
  apply_rule (initial "select left from t") (rule_at 14)
  = initial "select left from t".
Proof. apply no_match_no_change. reflexivity. Defined.

(** *** The warnings and the errors of the rule engine *)

Section Raising.
Variable ic : bool.
Variable r : regex.
Variable repl : Re.replacement.

Lemma sub_loop_never_raises :
  never_raises repl ->
  forall s skip prev, exists out, sub_loop ic r repl skip prev s = Ok out.
Proof.
  intros Hr.
  assert (Ha : forall mo, exists out, apply_repl repl mo = Ok out).
  { intros mo. destruct repl as [t|f]; cbn [apply_repl]; [eauto|].
    destruct (Hr mo) as [out ->]. cbn [rmap]. eauto. }
  induction s as [|c s IH]; intros skip prev.
  - destruct skip; cbn [sub_loop]; eauto.
    destruct (match_here ic r prev []) as [[mo n]|]; eauto.
    destruct (Ha mo) as [out ->]. eauto.
  - destruct skip; cbn [sub_loop]; [|apply IH].
    destruct (match_here ic r prev (c :: s)) as [[mo n]|].
    + destruct (Ha mo) as [out ->]. destruct n.
      * destruct (IH 0 (Some c)) as [t ->]. cbn [rmap]. eauto.
      * destruct (IH n (Some c)) as [t ->]. cbn [rmap]. eauto.
    + destruct (IH 0 (Some c)) as [t ->]. cbn [rmap]. eauto.
Qed.

Lemma sub_loop_index_error :
  index_error_only repl ->
  forall s skip prev,
    (exists out, sub_loop ic r repl skip prev s = Ok out) \/
    sub_loop ic r repl skip prev s = Raise IndexError.
Proof.
  intros Hr.
  assert (Ha : forall mo, (exists out, apply_repl repl mo = Ok out) \/
                          apply_repl repl mo = Raise IndexError).
  { intros mo. destruct repl as [t|f]; cbn [apply_repl]; [eauto|].
    destruct (Hr mo) as [[out ->]| ->]; cbn [rmap]; eauto. }
  induction s as [|c s IH]; intros skip prev.
  - destruct skip; cbn [sub_loop]; eauto.
    destruct (match_here ic r prev []) as [[mo n]|]; eauto.
    destruct (Ha mo) as [[out ->]| ->]; eauto.
  - destruct skip; cbn [sub_loop]; [|apply IH].
    destruct (match_here ic r prev (c :: s)) as [[mo n]|].
    + destruct (Ha mo) as [[out ->]| ->]; [|now right]. destruct n.
      * destruct (IH 0 (Some c)) as [[t ->]| ->]; cbn [rmap]; eauto.
      * destruct (IH n (Some c)) as [[t ->]| ->]; cbn [rmap]; eauto.
    + destruct (IH 0 (Some c)) as [[t ->]| ->]; cbn [rmap]; eauto.
Qed.
End Raising.

Lemma apply_rule_quiet st m :
  never_raises (replacement m) ->
  warnings (apply_rule st m) = warnings st /\
  errors (stats (apply_rule st m)) = errors (stats st).
Proof.
  intros H. unfold apply_rule, Re.sub.
  destruct (sub_loop_never_raises true (pattern m) (replacement m) H
              (list_ascii_of_string (sql_content st)) 0 None) as [out ->].
  cbn [rmap warnings stats].
  match goal with |- context [(0 <? ?z)%Z] => destruct (0 <? z)%Z end; auto.
Qed.

Lemma run_rules_quiet rules :
  Forall (fun m => never_raises (replacement m)) rules ->
  forall st,
    warnings (run_rules rules st) = warnings st /\
    errors (stats (run_rules rules st)) = errors (stats st).
Proof.
  induction 1 as [|m rules Hm _ IH]; intros st; [auto|].
  rewrite run_rules_cons. destruct (IH (apply_rule st m)) as [-> ->].
  now apply apply_rule_quiet.
Qed.

Lemma apply_rule_index_error st m :
  index_error_only (replacement m) ->
  (warnings (apply_rule st m) = warnings st /\
   errors (stats (apply_rule st m)) = errors (stats st)) \/
  (warnings (apply_rule st m)
   = warnings st ++ [rule_warning (func_name m) IndexError] /\
   errors (stats (apply_rule st m)) = (errors (stats st) + 1)%Z).
Proof.
  intros H. unfold apply_rule, Re.sub.
  destruct (sub_loop_index_error true (pattern m) (replacement m) H
              (list_ascii_of_string (sql_content st)) 0 None) as [[out ->]| ->];
    cbn [rmap warnings stats].
  - left. match goal with |- context [(0 <? ?z)%Z] => destruct (0 <? z)%Z end; auto.
  - right. auto.
Qed.

Lemma date_add_index_error : index_error_only (Callable _replace_date_add).
Proof.
  intros m. unfold _replace_date_add.
  destruct (split (group m 2)) as [|t [|a [|u l]]]; cbn; eauto.
Qed.

Lemma date_sub_index_error : index_error_only (Callable _replace_date_sub).
Proof.
  intros m. unfold _replace_date_sub.
  destruct (split (group m 2)) as [|t [|a [|u l]]]; cbn; eauto.
Qed.

Lemma other_rules_quiet :
  Forall (fun m => may_fail m = false -> never_raises (replacement m))
         function_mappings.
Proof.
  unfold function_mappings.
  repeat (constructor;
          [ intros H; try discriminate H; cbn [replacement lambda never_raises];
            try exact I; intros mo; eexists; reflexivity |]).
  constructor.
Qed.

Lemma quiet_part rules :
  incl rules function_mappings ->
  forallb (fun m => negb (may_fail m)) rules = true ->
  Forall (fun m => never_raises (replacement m)) rules.
Proof.
  intros Hin Hq. apply Forall_forall. intros m Hm.
  pose proof (proj1 (Forall_forall _ _) other_rules_quiet m (Hin m Hm)) as H.
  apply H. rewrite forallb_forall in Hq. specialize (Hq m Hm).
  now destruct (may_fail m).
Qed.

Lemma firstn_incl {T} n (l : list T) : incl (firstn n l) l.
Proof.
  intros x H. rewrite <- (firstn_skipn n l). apply in_or_app. now left.
Qed.

Lemma skipn_incl {T} n (l : list T) : incl (skipn n l) l.
Proof.
  intros x H. rewrite <- (firstn_skipn n l). apply in_or_app. now right.
Qed.

Lemma date_part_quiet : never_raises (replacement (rule_at 3)).
Proof. intros m. eexists. reflexivity. Qed.

Lemma table_parts :
  function_mappings
  = firstn 2 function_mappings ++ date_add_rule :: rule_at 3 ::
    date_sub_rule :: skipn 5 function_mappings.
Proof. reflexivity. Qed.

(** The warnings returned are those of the rule engine, then those of
    the validator on the returned text. Only the rules [date_add] and
    [date_sub] can fail, each with the index error: the warnings of the
    rule engine are at most these two, in this order, and [errors] is
    their number. *)
Theorem rule_warnings_returned (sql : string) :
  exists text rw cs,
    replace_func sql = Returned text (rw ++ _validate_converted_sql text) cs /\
    subseq rw [date_add_failed; date_sub_failed] /\
    errors cs = Z.of_nat (List.length rw).
Proof.
  destruct (replace_func_returns sql) as (text & _ & E).
  exists text, (warnings (run_rules function_mappings (initial sql))),
    (stats (run_rules function_mappings (initial sql))).
  split; [exact E|]. clear E.
  rewrite table_parts, run_rules_app, !run_rules_cons.
  set (s0 := initial sql).
  set (s1 := run_rules (firstn 2 function_mappings) s0).
  set (s2 := apply_rule s1 date_add_rule).
  set (s3 := apply_rule s2 (rule_at 3)).
  set (s4 := apply_rule s3 date_sub_rule).
  destruct (run_rules_quiet (firstn 2 function_mappings)
              (quiet_part _ (firstn_incl 2 _) eq_refl) s0) as [W1 E1].
  destruct (apply_rule_quiet s2 (rule_at 3) date_part_quiet) as [W3 E3].
  destruct (run_rules_quiet (skipn 5 function_mappings)
              (quiet_part _ (skipn_incl 5 _) eq_refl) s4) as [W5 E5].
  fold s1 in W1, E1. fold s3 in W3, E3. rewrite W5, E5.
  destruct (apply_rule_index_error s1 date_add_rule date_add_index_error)
    as [[W2 E2]|[W2 E2]];
    destruct (apply_rule_index_error s3 date_sub_rule date_sub_index_error)
      as [[W4 E4]|[W4 E4]];
    fold s2 in W2, E2; fold s4 in W4, E4;
    rewrite W4, E4, W3, E3, W2, E2, W1, E1; cbn; split;
    try reflexivity;
    repeat (first [apply subseq_keep | apply subseq_skip | apply subseq_nil]).
Qed.

(** *** The rules recorded *)

Lemma subseq_incl {T} (a b : list T) : subseq a b -> incl a b.
Proof.
  induction 1 as [|a b x _ IH|a b x _ IH]; intros y Hy.
  - exact Hy.
  - right. now apply IH.
  - destruct Hy as [<-|Hy]; [now left | right; now apply IH].
Qed.

Lemma subseq_nil_l {T} (b : list T) : subseq [] b.
Proof. induction b; constructor; assumption. Qed.

Lemma subseq_grow {T} (a b : list T) x : subseq a b -> subseq a (b ++ [x]).
Proof.
  induction 1 as [|a b y _ IH|a b y _ IH]; cbn [app].
  - apply subseq_skip. constructor.
  - now apply subseq_skip.
  - now apply subseq_keep.
Qed.

Lemma subseq_snoc {T} (a b : list T) x : subseq a b -> subseq (a ++ [x]) (b ++ [x]).
Proof.
  induction 1 as [|a b y _ IH|a b y _ IH]; cbn [app].
  - apply subseq_keep. constructor.
  - now apply subseq_skip.
  - now apply subseq_keep.
Qed.

Lemma subseq_nodup {T} (a b : list T) : subseq a b -> NoDup b -> NoDup a.
Proof.
  induction 1 as [|a b x Hs IH|a b x Hs IH]; intros Hb.
  - constructor.
  - inversion Hb; subst. auto.
  - inversion Hb as [|? ? Hx Hb']; subst. constructor; [|auto].
    intros Hin. apply Hx. now apply (subseq_incl _ _ Hs).
Qed.

Lemma keys_app {V} (d1 d2 : list (string * V)) : keys (d1 ++ d2) = keys d1 ++ keys d2.
Proof. apply map_app. Qed.

Lemma apply_rule_subseq st m done :
  ~ In (func_name m) done ->
  subseq (keys (functions_converted (stats st))) done ->
  subseq (keys (functions_converted (stats (apply_rule st m))))
         (done ++ [func_name m]).
Proof.
  intros Hnew Hs. unfold apply_rule.
  destruct (Re.sub (pattern m) (replacement m) (sql_content st) true)
    as [new_sql|e]; cbn [stats functions_converted add_error];
    [|now apply subseq_grow].
  match goal with |- context [(0 <? ?z)%Z] => destruct (0 <? z)%Z end;
    [|now apply subseq_grow].
  cbn [functions_converted add_conversions].
  rewrite dict_set_fresh.
  - rewrite keys_app. now apply subseq_snoc.
  - intros Hin. apply Hnew. now apply (subseq_incl _ _ Hs).
Qed.

Lemma run_rules_subseq rules :
  forall done st,
    NoDup (done ++ map func_name rules) ->
    subseq (keys (functions_converted (stats st))) done ->
    subseq (keys (functions_converted (stats (run_rules rules st))))
           (done ++ map func_name rules).
Proof.
  induction rules as [|m rules IH]; intros done st Hnd Hs.
  - cbn [map run_rules fold_left]. now rewrite app_nil_r.
  - rewrite run_rules_cons. cbn [map].
    cbn [map] in Hnd. pose proof (NoDup_remove_2 _ _ _ Hnd) as Hnew.
    assert (E : done ++ func_name m :: map func_name rules
                = (done ++ [func_name m]) ++ map func_name rules)
      by (now rewrite <- app_assoc).
    rewrite E in Hnd |- *.
    apply IH; [exact Hnd|]. apply apply_rule_subseq; [|assumption].
    intros Hin. apply Hnew. apply in_or_app. now left.
Qed.

(** [functions_converted] lists names of rules of the table, each at
    most once, in the order of the table. *)
Theorem converted_in_table_order (sql : string) :
  exists text ws cs,
    replace_func sql = Returned text ws cs /\
    subseq (keys (functions_converted cs)) (map func_name function_mappings) /\
    NoDup (keys (functions_converted cs)).
Proof.
  destruct (replace_func_returns sql) as (text & _ & E).
  do 3 eexists. split; [exact E|].
  assert (H : subseq (keys (functions_converted
                              (stats (run_rules function_mappings (initial sql)))))
                     (map func_name function_mappings)).
  { apply (run_rules_subseq function_mappings [] (initial sql)).
    - apply rule_names_distinct.
    - constructor. }
  split; [exact H|]. exact (subseq_nodup _ _ H rule_names_distinct).
Qed.

(** *** The post-processing pass keeps the delimiters *)

Lemma segment_no_delimiters t : segment t -> filter delimiter t = [].
Proof.
  induction 1 as [|c t Hc _ IH]; cbn [filter]; [reflexivity|]. now rewrite Hc.
Qed.

Lemma first_delimiter (x : text) :
  segment x \/
  exists a dl b, x = a ++ dl :: b /\ segment a /\ delimiter dl = true.
Proof.
  induction x as [|c x IH]; [left; constructor|].
  destruct (delimiter c) eqn:Hc.
  - right. exists [], c, x. repeat split; [constructor | assumption].
  - destruct IH as [Hs|(a & dl & b & -> & Ha & Hd)].
    + left. now constructor.
    + right. exists (c :: a), dl, b. repeat split; [now constructor | assumption].
Qed.

Lemma post_text_delimiters :
  forall n x, List.length x <= n ->
    forall prev x', post_text prev x = Ok x' ->
      filter delimiter x' = filter delimiter x.
Proof.
  induction n as [|n IH]; intros x Hlen prev x' H.
  - destruct x; [|simpl in Hlen; lia].
    rewrite post_text_nil in H. now inversion H.
  - destruct (first_delimiter x) as [Hs|(a & dl & b & -> & Ha & Hd)].
    + rewrite (segment_no_delimiters _ Hs).
      apply segment_no_delimiters. exact (post_text_segment _ _ _ Hs H).
    + destruct (post_text_ok prev a) as [a' Ea].
      destruct (post_text_ok (Some dl) b) as [b' Eb].
      rewrite (post_text_local dl a b prev a' b' Hd Ea Eb) in H.
      inversion H; subst x'. clear H.
      rewrite !filter_app. cbn [filter]. rewrite Hd.
      rewrite (segment_no_delimiters _ Ha),
        (segment_no_delimiters _ (post_text_segment _ _ _ Ha Ea)).
      cbn [app]. f_equal. apply (IH b) with (prev := Some dl); [|exact Eb].
      rewrite length_app in Hlen. simpl in Hlen. lia.
Qed.

Lemma count_delimiters c s :
  delimiter c = true -> count c s = List.length (filter (Ascii.eqb c) (delimiters s)).
Proof.
  intros Hc. unfold count, delimiters. f_equal.
  induction (list_ascii_of_string s) as [|a l IH]; [reflexivity|].
  cbn [filter]. destruct (Ascii.eqb_spec c a) as [<-|Hne].
  - rewrite Hc. cbn [filter]. rewrite Ascii.eqb_refl. now f_equal.
  - destruct (delimiter a); [|exact IH]. cbn [filter].
    destruct (Ascii.eqb_spec c a); [contradiction | exact IH].
Qed.

(** The post-processing pass keeps every parenthesis and every comma of
    the text, in order: it rewrites only between them. So it keeps the
    numbers of opening and of closing parentheses. *)
Theorem additional_keeps_delimiters (s s' : string) :
  _apply_additional_transformations s = Ok s' ->
  delimiters s' = delimiters s /\
  count "(" s' = count "(" s /\ count ")" s' = count ")" s.
Proof.
  intros H. rewrite post_text_spec in H.
  destruct (post_text None (list_ascii_of_string s)) as [x'|] eqn:E;
    [|discriminate].
  inversion H; subst s'. clear H.
  assert (Hd : delimiters (string_of_list_ascii x') = delimiters s).
  { unfold delimiters. rewrite list_ascii_of_string_of_list_ascii.
    exact (post_text_delimiters _ _ (le_n _) None x' E). }
  split; [exact Hd|].
  rewrite !count_delimiters, Hd by reflexivity. auto.
Qed.

Lemma additional_keeps_delimiters_witness :
  delimiters "f(x VARCHAR), g(INTEGER)"
  = delimiters "f(x string), g(int)".
Proof.
  refine (proj1 (additional_keeps_delimiters
                   "f(x string), g(int)"
                   "f(x VARCHAR), g(INTEGER)" _)).
  vm_compute. reflexivity.
Defined.

(** *** A text without an opening parenthesis *)

Lemma rules_headed :
  forallb (fun m => match head_of (pattern m) with Some _ => true | None => false end)
          function_mappings = true.
Proof. reflexivity. Qed.

Lemma match_needs_paren r w prev s mo n :
  head_of r = Some w -> match_here true r prev s = Some (mo, n) ->
  In "("%char s.
Proof.
  intros Hh Hm.
  destruct (match_here_sound _ _ _ _ _ _ Hm) as (rest & -> & Hl & _).
  destruct (head_of_header _ _ _ Hh Hl) as (nm & ws & tl & -> & _).
  apply in_or_app. left. apply in_or_app. right. apply in_or_app. right.
  now left.
Qed.

Lemma no_paren_count r w :
  head_of r = Some w ->
  forall s prev, ~ In "("%char s -> count_loop true r 0 prev s = 0.
Proof.
  intros Hh. induction s as [|c s IH]; intros prev Hfree; cbn [count_loop].
  - destruct (match_here true r prev []) as [[mo n]|] eqn:E; [|reflexivity].
    destruct (match_needs_paren _ _ _ _ _ _ Hh E).
  - destruct (match_here true r prev (c :: s)) as [[mo n]|] eqn:E.
    + exfalso. apply Hfree. exact (match_needs_paren _ _ _ _ _ _ Hh E).
    + apply IH. intros Hin. apply Hfree. now right.
Qed.

Lemma run_rules_no_paren rules :
  Forall (fun m => exists w, head_of (pattern m) = Some w) rules ->
  forall st, ~ In "("%char (list_ascii_of_string (sql_content st)) ->
             run_rules rules st = st.
Proof.
  induction 1 as [|m rules [w Hw] _ IH]; intros st Hfree; [reflexivity|].
  rewrite run_rules_cons, no_match_no_change; [now apply IH|].
  unfold findall_len. now apply (no_paren_count _ w).
Qed.

Lemma rules_headed_all :
  Forall (fun m => exists w, head_of (pattern m) = Some w) function_mappings.
Proof.
  apply Forall_forall. intros m Hm.
  pose proof (proj1 (forallb_forall _ _) rules_headed m Hm) as H. cbv beta in H.
  destruct (head_of (pattern m)) as [w|]; [eauto | discriminate].
Qed.

Lemma contains_text_in p : forall s c,
  contains_text p s = true -> In c p -> In c s.
Proof.
  assert (Hp : forall p s c, prefix_text p s = true -> In c p -> In c s).
  { induction p0 as [|a p0 IH]; intros s c H Hc; [destruct Hc|].
    destruct s as [|b s]; [discriminate|]. cbn [prefix_text] in H.
    apply andb_true_iff in H. destruct H as [Hab H].
    apply Ascii.eqb_eq in Hab. subst b.
    destruct Hc as [<-|Hc]; [now left | right; now apply (IH s)]. }
  induction s as [|b s IH]; intros c H Hc; cbn [contains_text] in H.
  - rewrite orb_false_r in H. exact (Hp p [] c H Hc).
  - apply orb_true_iff in H. destruct H as [H|H]; [exact (Hp _ _ c H Hc)|].
    right. now apply IH.
Qed.

Lemma lower_paren c : lower_char c = "("%char -> c = "("%char.
Proof. destruct c as [[] [] [] [] [] [] [] []]; intros H; try discriminate H; reflexivity. Qed.

Lemma lower_keeps_paren_free s :
  ~ In "("%char (list_ascii_of_string s) ->
  ~ In "("%char (list_ascii_of_string (lower s)).
Proof.
  unfold lower, lower_text. rewrite list_ascii_of_string_of_list_ascii.
  intros H Hin. apply in_map_iff in Hin. destruct Hin as (c & Hc & Hin).
  apply lower_paren in Hc. subst c. contradiction.
Qed.

Lemma count_zero c s :
  count c s = 0 <-> ~ In c (list_ascii_of_string s).
Proof.
  unfold count. induction (list_ascii_of_string s) as [|a l IH]; cbn [filter].
  - simpl. tauto.
  - destruct (Ascii.eqb_spec c a) as [<-|Hne]; simpl.
    + split; [discriminate | intros H; exfalso; apply H; now left].
    + rewrite IH. split; [intros H [E|Hin]; [now apply Hne | now apply H]
                         | intros H Hin; apply H; now right].
Qed.

Lemma validator_no_paren s :
  ~ In "("%char (list_ascii_of_string s) ->
  _validate_converted_sql s
  = if count ")" s =? 0 then [] else [unbalanced_warning].
Proof.
  intros H. unfold _validate_converted_sql.
  assert (Hc : forall needle, In "("%char (list_ascii_of_string needle) ->
                              contains needle (lower s) = false).
  { intros needle Hn. destruct (contains needle (lower s)) eqn:E; [|reflexivity].
    exfalso. apply (lower_keeps_paren_free s H).
    exact (contains_text_in _ _ _ E Hn). }
  rewrite !Hc by (simpl; tauto). cbn [app].
  rewrite (proj2 (count_zero "(" s) H).
  destruct (count ")" s); reflexivity.
Qed.

(** On a text without an opening parenthesis no rule does anything: the
    conversion returns the post-processed text with all statistics at
    zero, and its only possible warning is on closing parentheses. *)
Theorem no_parenthesis_no_rule (sql : string) :
  ~ In "("%char (list_ascii_of_string sql) ->
  exists text,
    _apply_additional_transformations sql = Ok text /\
    replace_func sql
    = Returned text
               (if count ")" sql =? 0 then [] else [unbalanced_warning])
               no_stats.
Proof.
  intros H. destruct (replace_func_returns sql) as (text & Ht & E).
  rewrite (run_rules_no_paren _ rules_headed_all (initial sql) H) in Ht, E.
  cbn [initial sql_content warnings stats app] in Ht, E.
  exists text. split; [exact Ht|]. rewrite E.
  destruct (additional_keeps_delimiters _ _ Ht) as (_ & Ho & Hc).
  rewrite validator_no_paren, Hc; [reflexivity|].
  apply count_zero. rewrite Ho. now apply count_zero.
Qed.

Lemma no_parenthesis_no_rule_witness :
  replace_func "select cast x as string) from t"
  = Returned "select cast x as VARCHAR) from t" [unbalanced_warning] no_stats.
Proof.
  destruct (no_parenthesis_no_rule "select cast x as string) from t")
    as (text & Ht & E).
  - simpl. intuition discriminate.
  - vm_compute in Ht. inversion Ht; subst text. exact E.
Defined.

(** *** No backtick is returned *)

Section KeepSub.
Variable P : ascii -> Prop.

Lemma expand_keeps t :
  forall mo,
    Forall P t -> Forall (fun e => Forall P (snd e)) (groups mo) ->
    Forall P (expand t mo).
Proof.
  induction t as [t IH] using (well_founded_induction
                                 (Wf_nat.well_founded_ltof _ (@List.length ascii))).
  intros mo Ht Hg. destruct t as [|c t]; [constructor|].
  inversion Ht as [|? ? Hc Ht']; subst.
  assert (Hrec : Forall P (expand t mo))
    by (apply IH; [unfold ltof; simpl; lia | assumption | assumption]).
  assert (Hlook : forall n, Forall P (lookup n (groups mo))).
  { intros n. induction Hg as [|[m x] g Hx Hg IHg]; simpl; [constructor|].
    destruct (Nat.eqb m n); auto. }
  destruct (Ascii.eqb_spec c "\") as [->|Hne].
  - cbn [expand]. destruct t as [|d t2]; [repeat constructor; assumption|].
    inversion Ht' as [|? ? Hd Ht2]; subst.
    assert (Hrec2 : Forall P (expand t2 mo))
      by (apply IH; [unfold ltof; simpl; lia | assumption | assumption]).
    destruct (Ascii.eqb d "\"); [now constructor|].
    destruct (between 49 57 d).
    + apply Forall_app. split; [apply Hlook | assumption].
    + now constructor.
  - assert (E : expand (c :: t) mo = c :: expand t mo).
    { destruct c as [[] [] [] [] [] [] [] []];
        try (exfalso; apply Hne; reflexivity); reflexivity. }
    rewrite E. now constructor.
Qed.

Variable ic : bool.
Variable r : regex.
Variable t : string.
Hypothesis r_consuming : consuming r = true.
Hypothesis r_groups : forall n x, captured ic r n x -> Forall P x.
Hypothesis t_keeps : Forall P (list_ascii_of_string t).

Lemma sub_loop_keeps :
  forall n s, List.length s <= n -> Forall P s ->
    forall prev out,
      sub_loop ic r (Template t) 0 prev s = Ok out -> Forall P out.
Proof.
  induction n as [|n IH]; intros s Hlen Hs prev out H.
  - destruct s; [|simpl in Hlen; lia].
    simpl in H. rewrite match_here_nil in H by assumption.
    inversion H. constructor.
  - destruct (match_here ic r prev s) as [[mo k]|] eqn:Em.
    + destruct (match_here_sound _ _ _ _ _ _ Em) as (rest & Es & Hl & Hk & Hg).
      assert (Hne : span mo <> []) by (eapply lang_consuming; eassumption).
      subst s. rewrite sub_loop_hit with (n := k) in H by assumption.
      cbn [apply_repl] in H.
      destruct (sub_loop ic r (Template t) 0 (prev_after prev (span mo)) rest)
        as [out'|] eqn:E'; [|discriminate].
      inversion H; subst; clear H.
      apply Forall_app in Hs. destruct Hs as [_ Hrest].
      apply Forall_app. split.
      * apply expand_keeps; [assumption|].
        eapply Forall_impl; [|exact Hg]. intros e He. simpl in He.
        exact (r_groups _ _ He).
      * apply (IH rest) with (prev := prev_after prev (span mo)); auto.
        rewrite length_app in Hlen. destruct (span mo); [contradiction|].
        simpl in Hlen. lia.
    + destruct s as [|c s]; [simpl in H; rewrite Em in H; now inversion H|].
      rewrite sub_loop_miss in H by assumption.
      destruct (sub_loop ic r (Template t) 0 (Some c) s) as [out'|] eqn:E';
        [|discriminate].
      inversion H; subst; clear H. inversion Hs; subst.
      constructor; [assumption|].
      apply (IH s) with (prev := Some c); auto. simpl in Hlen. lia.
Qed.
End KeepSub.

Lemma quote_backticks_none x : Forall (fun c => c <> "`"%char) (quote_backticks x).
Proof.
  unfold quote_backticks. induction x as [|c x IH]; cbn [flat_map]; [constructor|].
  destruct (Ascii.eqb_spec c "`") as [->|Hne]; cbn [app].
  - constructor; [discriminate | exact IH].
  - constructor; assumption.
Qed.

Lemma sub_all_text_keeps (P : ascii -> Prop) table :
  Forall (fun e => consuming (fst e) = true /\
                   (forall n x, ~ captured true (fst e) n x) /\
                   Forall P (list_ascii_of_string (snd e))) table ->
  forall x prev x',
    Forall P x -> sub_all_text table prev x = Ok x' -> Forall P x'.
Proof.
  induction 1 as [|[old new] table (H1 & H2 & H3) _ IH];
    intros x prev x' Hx H; cbn [sub_all_text] in H.
  - now inversion H; subst.
  - cbn [fst snd] in *.
    destruct (sub_loop true old (Template new) 0 prev x) as [x1|] eqn:E;
      [|discriminate].
    apply (IH x1 prev x'); [|exact H].
    apply (sub_loop_keeps P true old new H1) with (n := List.length x)
                                                     (s := x) (prev := prev);
      auto.
    intros n y Hc. destruct (H2 n y Hc).
Qed.

Lemma function_replacements_plain :
  Forall (fun e => consuming (fst e) = true /\
                   (forall n x, ~ captured true (fst e) n x) /\
                   Forall (fun c => c <> "`"%char) (list_ascii_of_string (snd e)))
         function_replacements.
Proof.
  unfold function_replacements.
  repeat (constructor;
          [ split; [reflexivity|]; split;
            [ intros n x; unfold whole_word, lit; cbn [fst captured];
              try apply captured_lit;
              intros [[]|[H|[]]]; exact (captured_lit _ _ _ _ H)
            | cbn [snd]; repeat constructor; discriminate ] |]).
  constructor.
Qed.

Lemma interval_groups n x :
  captured true interval_pattern n x -> Forall (fun c => c <> "`"%char) x.
Proof.
  unfold interval_pattern, lit. cbn [captured list_ascii_of_string fold_right].
  intros H.
  repeat match type of H with
         | _ \/ _ => destruct H as [H|H]
         | False => destruct H
         end; try contradiction.
  destruct H as [_ Hl].
  apply (lang_classes true (fun c => c <> "`"%char) (Plus Digit) x); [|exact Hl].
  cbn [classes]. intros c Hc ->. discriminate Hc.
Qed.

Lemma additional_no_backtick s s' :
  _apply_additional_transformations s = Ok s' ->
  ~ In "`"%char (list_ascii_of_string s').
Proof.
  intros H. rewrite post_text_spec in H. unfold post_text in H.
  destruct (sub_all_text type_mappings None (list_ascii_of_string s)) as [x1|];
    [|discriminate]. cbn [rmap] in H.
  destruct (sub_loop true interval_pattern (Template "INTERVAL '\1' ") 0 None
                     (quote_backticks x1)) as [x2|] eqn:E2; [|discriminate].
  destruct (sub_loop false backslashes (Template "\\\\") 0 None x2) as [x3|] eqn:E3;
    [|discriminate].
  cbn [rmap] in H.
  destruct (sub_all_text function_replacements None x3) as [x4|] eqn:E4;
    [|discriminate].
  inversion H; subst s'. rewrite list_ascii_of_string_of_list_ascii.
  assert (H2 : Forall (fun c => c <> "`"%char) x2).
  { apply (sub_loop_keeps _ true interval_pattern "INTERVAL '\1' " eq_refl
                          interval_groups)
      with (n := List.length (quote_backticks x1)) (s := quote_backticks x1)
           (prev := None); auto.
    - repeat constructor; discriminate.
    - apply quote_backticks_none. }
  assert (H3 : Forall (fun c => c <> "`"%char) x3).
  { apply (sub_loop_keeps _ false backslashes "\\\\" eq_refl)
      with (n := List.length x2) (s := x2) (prev := None); auto.
    - intros n x [].
    - repeat constructor; discriminate. }
  pose proof (sub_all_text_keeps _ _ function_replacements_plain x3 None x4 H3 E4)
    as H4.
  intros Hin. rewrite Forall_forall in H4. now apply (H4 _ Hin).
Qed.

(** The text returned has no backtick: the post-processing pass turns
    every one into a double quote, and nothing after brings one back. *)
Theorem no_backtick_returned (sql : string) :
  exists text ws cs,
    replace_func sql = Returned text ws cs /\
    ~ In "`"%char (list_ascii_of_string text).
Proof.
  destruct (replace_func_returns sql) as (text & Ht & E).
  do 3 eexists. split; [exact E|]. exact (additional_no_backtick _ _ Ht).
Qed.

(** *** The validator *)

Lemma lower_char_idem c : lower_char (lower_char c) = lower_char c.
Proof. destruct c as [[] [] [] [] [] [] [] []]; reflexivity. Qed.

Lemma lower_idem s : lower (lower s) = lower s.
Proof.
  unfold lower, lower_text. rewrite list_ascii_of_string_of_list_ascii, map_map.
  f_equal. apply map_ext. apply lower_char_idem.
Qed.

Lemma lower_paren_close c : lower_char c = ")"%char -> c = ")"%char.
Proof. destruct c as [[] [] [] [] [] [] [] []]; intros H; try discriminate H; reflexivity. Qed.

Lemma count_lower c s :
  (forall a, lower_char a = c -> a = c) -> lower_char c = c ->
  count c (lower s) = count c s.
Proof.
  intros Hc Hl. unfold count, lower, lower_text.
  rewrite list_ascii_of_string_of_list_ascii.
  induction (list_ascii_of_string s) as [|a l IH]; [reflexivity|].
  cbn [map filter]. destruct (Ascii.eqb_spec c a) as [<-|Hne].
  - rewrite Hl, Ascii.eqb_refl. cbn [List.length]. now f_equal.
  - destruct (Ascii.eqb_spec c (lower_char a)) as [E|_]; [|exact IH].
    exfalso. apply Hne. symmetry. now apply Hc.
Qed.

(** The validator does not look at the case of the text. *)
Theorem validator_ignores_case (s : string) :
  _validate_converted_sql (lower s) = _validate_converted_sql s.
Proof.
  unfold _validate_converted_sql.
  rewrite lower_idem, (count_lower "(" s lower_paren eq_refl),
    (count_lower ")" s lower_paren_close eq_refl).
  reflexivity.
Qed.

Lemma validator_markers s needle w :
  In (needle, w) marker_warnings ->
  (In w (_validate_converted_sql s) <-> contains needle (lower s) = true).
Proof.
  unfold marker_warnings, _validate_converted_sql. intros Hin.
  repeat (destruct Hin as [Hin|Hin]; [inversion Hin; subst; clear Hin|]);
    try contradiction;
    destruct (contains "add_months(" (lower s));
    destruct (contains "datediff(" (lower s));
    destruct (contains "current_timestamp()" (lower s));
    destruct (contains "group_concat(" (lower s));
    destruct (count "(" s =? count ")" s);
    cbn; split; intros H; try reflexivity; try discriminate H; try tauto;
    repeat (destruct H as [H|H]; [discriminate H|]); destruct H.
Qed.

(** Each of the four warnings of the validator on a piece of text is
    returned exactly when the returned text, in lower case, contains
    that piece. *)
Theorem marker_warning_iff_found (sql needle w : string) :
  In (needle, w) marker_warnings ->
  exists text ws cs,
    replace_func sql = Returned text ws cs /\
    (In w ws <-> contains needle (lower text) = true).
Proof.
  intros Hin. destruct (replace_func_returns sql) as (t & _ & E).
  do 3 eexists. split; [exact E|].
  rewrite in_app_iff, (validator_markers t needle w Hin). split; [|auto].
  intros [H|H]; [|assumption].
  destruct (engine_warnings _ _ _ H) as [[]|[tail Hw]]. subst w.
  unfold marker_warnings in Hin.
  repeat (destruct Hin as [Hin|Hin]; [discriminate Hin|]). destruct Hin.
Qed.

Lemma marker_warning_iff_found_witness :
  exists text ws cs,
    replace_func "SELECT DateDiff(a)" = Returned text ws cs /\
    (In "Potential unconverted datediff function detected" ws <->
     contains "datediff(" (lower text) = true).
Proof.
  apply (marker_warning_iff_found "SELECT DateDiff(a)" "datediff("
           "Potential unconverted datediff function detected").
  right. now left.
Defined.

(** *** Names are not anchored *)

Lemma unique_split (c : ascii) (a a' b b' : text) :
  ~ In c a -> ~ In c a' -> a ++ c :: b = a' ++ c :: b' -> a = a' /\ b = b'.
Proof.
  revert a'. induction a as [|x a IH]; intros [|y a'] Ha Ha' E; cbn [app] in E.
  - inversion E. auto.
  - inversion E; subst. exfalso. apply Ha'. now left.
  - inversion E; subst. exfalso. apply Ha. now left.
  - inversion E; subst.
    destruct (IH a') as [-> ->]; auto.
    + intros H. apply Ha. now right.
    + intros H. apply Ha'. now right.
Qed.

Lemma lower_text_paren_free (a b : text) :
  lower_text a = lower_text b -> ~ In "("%char a -> ~ In "("%char b.
Proof.
  intros E Ha Hb. apply Ha.
  assert (H : In "("%char (lower_text a)).
  { rewrite E. unfold lower_text. apply in_map_iff. exists "("%char. auto. }
  unfold lower_text in H. apply in_map_iff in H. destruct H as (c & Hc & Hin).
  apply lower_paren in Hc. now subst c.
Qed.

Lemma spaces_paren_free ws : spaces ws -> ~ In "("%char ws.
Proof.
  intros H Hin. unfold spaces in H. rewrite Forall_forall in H.
  specialize (H _ Hin). discriminate H.
Qed.

(** No match of a call pattern starts before a name that is followed by
    the first opening parenthesis of the text. *)
Lemma no_match_before_name r w s nm tail prev :
  head_of r = Some w ->
  lower_text nm = lower_text w -> proper_name nm = true ->
  s <> [] -> ~ In "("%char (s ++ nm) ->
  match_here true r prev (s ++ nm ++ "("%char :: tail) = None.
Proof.
  intros Hh Hnm Hp Hs Hfree.
  destruct (match_here true r prev (s ++ nm ++ "("%char :: tail)) as [[mo n]|] eqn:E;
    [exfalso | reflexivity].
  destruct (match_here_sound _ _ _ _ _ _ E) as (rest & Es & Hl & _).
  destruct (head_of_header _ _ _ Hh Hl) as (nm' & ws & tl & Em & Hnm' & Hws).
  rewrite Em in Es.
  assert (Hfree' : ~ In "("%char (nm' ++ ws)).
  { intros Hin. apply in_app_or in Hin. destruct Hin as [Hin|Hin].
    - revert Hin. apply (lower_text_paren_free nm).
      + now rewrite Hnm, Hnm'.
      + intros Hin. apply Hfree. apply in_or_app. now right.
    - exact (spaces_paren_free _ Hws Hin). }
  assert (E1 : (s ++ nm) ++ "("%char :: tail = (nm' ++ ws) ++ "("%char :: tl ++ rest).
  { rewrite <- app_assoc, Es. repeat (rewrite <- app_assoc; cbn [app]).
    reflexivity. }
  destruct (unique_split _ _ _ _ _ Hfree Hfree' E1) as [E2 _].
  assert (Hlen : List.length nm' = List.length nm).
  { rewrite <- (length_map lower_char nm'), <- (length_map lower_char nm).
    fold (lower_text nm') (lower_text nm). now rewrite Hnm, Hnm'. }
  assert (Hws' : ws <> []).
  { intros ->. rewrite app_nil_r in E2.
    apply (f_equal (@List.length ascii)) in E2. rewrite length_app in E2.
    destruct s; [contradiction | simpl in E2; lia]. }
  unfold proper_name in Hp.
  apply (f_equal (@rev ascii)) in E2. rewrite !rev_app_distr in E2.
  destruct (rev nm) as [|c rn]; [discriminate Hp|].
  destruct (rev ws) as [|x rw] eqn:Erw.
  - apply Hws'. rewrite <- (rev_involutive ws), Erw. reflexivity.
  - cbn [app] in E2. inversion E2; subst x.
    assert (Hx : isspace c = true).
    { unfold spaces in Hws. rewrite Forall_forall in Hws. apply Hws.
      apply in_rev. rewrite Erw. now left. }
    rewrite Hx in Hp. discriminate Hp.
Qed.

Section PrefixScan.
Variable r : regex.
Variable repl : Re.replacement.
Variable rest : text.

Lemma sub_loop_prefix :
  forall pre prev,
    (forall p s, pre = p ++ s -> s <> [] ->
                 forall prev', match_here true r prev' (s ++ rest) = None) ->
    sub_loop true r repl 0 prev (pre ++ rest)
    = rmap (app pre) (sub_loop true r repl 0 (prev_after prev pre) rest).
Proof.
  induction pre as [|c pre IH]; intros prev H.
  - cbn [app prev_after fold_left].
    destruct (sub_loop true r repl 0 prev rest); reflexivity.
  - cbn [app]. rewrite sub_loop_miss
      by (apply (H [] (c :: pre) eq_refl); discriminate).
    rewrite IH.
    + change (prev_after prev (c :: pre)) with (prev_after (Some c) pre).
      destruct (sub_loop true r repl 0 (prev_after (Some c) pre) rest);
        reflexivity.
    + intros p s E Hs prev'. apply (H (c :: p) s); [now rewrite E | assumption].
Qed.
End PrefixScan.

Lemma unlit_lit w : unlit (fold_right (fun c r => Seq (Chr (Lit c)) r) Eps w) = Some w.
Proof. induction w as [|c w IH]; cbn; [reflexivity | now rewrite IH]. Qed.

Lemma head_of_call2 name : head_of (call2 name) = Some (list_ascii_of_string name).
Proof. unfold call2, lit, head_of. cbn. apply unlit_lit. Qed.

Section PrefixCount.
Variable r : regex.
Variable rest : text.

Lemma count_loop_prefix :
  forall pre prev,
    (forall p s, pre = p ++ s -> s <> [] ->
                 forall prev', match_here true r prev' (s ++ rest) = None) ->
    count_loop true r 0 prev (pre ++ rest)
    = count_loop true r 0 (prev_after prev pre) rest.
Proof.
  induction pre as [|c pre IH]; intros prev H; [reflexivity|].
  cbn [app]. rewrite count_loop_miss
    by (apply (H [] (c :: pre) eq_refl); discriminate).
  rewrite IH; [reflexivity|].
  intros p s E Hs prev'. apply (H (c :: p) s); [now rewrite E | assumption].
Qed.
End PrefixCount.

(** A call whose name ends with the name of the rule is one match of
    the pattern, and what comes before the name is kept. *)
Lemma prefix_call_step name repl pre nm d v :
  same_name (list_ascii_of_string nm) name ->
  proper_name (list_ascii_of_string nm) = true ->
  first_arg d -> second_arg v ->
  ~ In "("%char (list_ascii_of_string (pre ++ nm)) ->
  Re.sub (call2 name) repl (pre ++ nm ++ "(" ++ d ++ ", " ++ v ++ ")")%string true
  = rmap (fun out => (pre ++ string_of_list_ascii out)%string)
         (apply_repl repl (call_match nm d v)) /\
  findall_len (call2 name) (pre ++ nm ++ "(" ++ d ++ ", " ++ v ++ ")")%string true
  = 1.
Proof.
  intros Hnm Hp Hd Hv Hfree. unfold Re.sub, findall_len.
  rewrite list_of_append in Hfree |- *.
  set (txt := list_ascii_of_string (nm ++ "(" ++ d ++ ", " ++ v ++ ")")%string).
  rewrite <- (app_nil_r txt).
  assert (Hpre : forall p s, list_ascii_of_string pre = p ++ s -> s <> [] ->
                 forall prev', match_here true (call2 name) prev' (s ++ txt ++ []) = None).
  { intros p s E Hs prev'. rewrite app_nil_r. unfold txt.
    rewrite list_of_append. cbn [list_ascii_of_string append].
    apply (no_match_before_name _ (list_ascii_of_string name));
      [apply head_of_call2 | exact Hnm | exact Hp | exact Hs |].
    intros Hin. apply Hfree. rewrite E, <- app_assoc. apply in_or_app. now right. }
  rewrite sub_loop_prefix, count_loop_prefix by exact Hpre.
  pose proof (call2_match_call name nm d v []
                (prev_after None (list_ascii_of_string pre)) Hnm Hd Hv) as H.
  fold txt in H.
  assert (Hne : span (call_match nm d v) <> []).
  { cbn [span call_match]. rewrite list_of_append. intros E.
    apply app_eq_nil in E. destruct E as [_ E].
    rewrite list_of_append in E. discriminate. }
  change txt with (span (call_match nm d v)) in H |- * at 1.
  rewrite (sub_loop_hit _ _ _ _ _ _ _ H Hne).
  change txt with (span (call_match nm d v)) at 1.
  rewrite (count_loop_hit _ _ _ _ _ _ H Hne).
  cbn [sub_loop count_loop]. rewrite match_here_nil by apply call2_consuming.
  split; [|reflexivity].
  destruct (apply_repl repl (call_match nm d v)) as [out|e]; [|reflexivity].
  cbn [rmap]. rewrite app_nil_r, string_of_app.
  now rewrite string_of_list_ascii_of_string.
Qed.

(** The name in a pattern is not anchored: a call whose name only ends
    with the name of the rule is rewritten as well, and what comes
    before the name is kept in front of the rewritten call. *)
Theorem name_not_anchored (name : string) (repl : Re.replacement)
        (pre nm d v : string) :
  same_name (list_ascii_of_string nm) name ->
  proper_name (list_ascii_of_string nm) = true ->
  first_arg d -> second_arg v ->
  ~ In "("%char (list_ascii_of_string (pre ++ nm)) ->
  Re.sub (call2 name) repl (pre ++ nm ++ "(" ++ d ++ ", " ++ v ++ ")")%string true
  = rmap (fun out => (pre ++ string_of_list_ascii out)%string)
         (apply_repl repl (call_match nm d v)).
Proof.
  intros Hnm Hp Hd Hv Hfree.
  exact (proj1 (prefix_call_step name repl pre nm d v Hnm Hp Hd Hv Hfree)).
Qed.

Lemma name_not_anchored_witness :
  Re.sub (call2 "right") (replacement (rule_at 17)) "copyright(a, b)" true
  = Ok "copysubstring(a, -b)".
Proof.
  apply (name_not_anchored "right" (replacement (rule_at 17)) "copy" "right"
                           "a" "b").
  - reflexivity.
  - reflexivity.
  - split; [discriminate | simpl; intuition discriminate].
  - split; [discriminate | simpl; intuition discriminate].
  - simpl. intuition discriminate.
Defined.

(** *** The time zone of [to_utc_timestamp] *)

(** [to_utc_timestamp] with any spelling of the name: the call becomes
    [at_timezone(d, 'UTC')] whatever its second argument is. *)
Theorem to_utc_discards_zone (nm d v : string) :
  same_name (list_ascii_of_string nm) "to_utc_timestamp" ->
  first_arg d -> second_arg v ->
  Re.sub (call2 "to_utc_timestamp") (replacement (rule_at 9))
         (nm ++ "(" ++ d ++ ", " ++ v ++ ")")%string true
  = Ok ("at_timezone(" ++ d ++ ", 'UTC')")%string.
Proof.
  intros Hnm Hd Hv.
  rewrite (sub_one_call "to_utc_timestamp" _ nm d v Hnm Hd Hv).
  cbn [rule_at nth function_mappings replacement lambda apply_repl rmap].
  unfold rule_at. cbn [nth function_mappings replacement lambda apply_repl rmap].
  rewrite call_match_group1. cbn [rmap fstr String.concat].
  now rewrite string_of_list_ascii_of_string.
Qed.

Lemma to_utc_discards_zone_witness :
  Re.sub (call2 "to_utc_timestamp") (replacement (rule_at 9))
         "TO_UTC_TIMESTAMP(ts, 'Europe/Paris')" true
  = Ok "at_timezone(ts, 'UTC')".
Proof.
  apply (to_utc_discards_zone "TO_UTC_TIMESTAMP" "ts" "'Europe/Paris'").
  - reflexivity.
  - split; [discriminate | simpl; intuition discriminate].
  - split; [discriminate | simpl; intuition discriminate].
Defined.

(** *** The post-processing pass on an identifier *)





















(** *** The argument of [unix_timestamp] *)

(** [unix_timestamp] with any spelling of the name: without argument
    the call becomes [to_unixtime(now())]; with any argument, one of
    white space only included, the argument is passed on as it is. *)
Theorem unix_timestamp_by_argument (nm x : string) :
  same_name (list_ascii_of_string nm) "unix_timestamp" ->
  ~ In ")"%char (list_ascii_of_string x) ->
  Re.sub (call01 "unix_timestamp") (replacement (rule_at 20))
         (nm ++ "(" ++ x ++ ")")%string true
  = Ok ("to_unixtime(" ++ (if String.eqb x "" then "now()" else x) ++ ")")%string.
Proof.
  intros Hnm Hx.
  pose proof (call01_match_here "unix_timestamp" (list_ascii_of_string nm)
                                (list_ascii_of_string x) [] None Hnm Hx) as Hm.
  set (mo := {| groups := [(1, list_ascii_of_string x)];
                span := list_ascii_of_string nm ++
                        "("%char :: list_ascii_of_string x ++ [")"%char] |}) in *.
  assert (E : (nm ++ "(" ++ x ++ ")")%string = string_of_list_ascii (span mo)).
  { apply string_by_text. rewrite list_ascii_of_string_of_list_ascii.
    cbn [span mo]. repeat (rewrite list_of_append; simpl). reflexivity. }
  rewrite E.
  rewrite (proj1 (sub_whole (call01 "unix_timestamp") (replacement (rule_at 20)) mo
                            (call01_consuming _) Hm)).
  unfold rule_at. cbn [nth function_mappings replacement lambda apply_repl rmap].
  assert (G : group mo 1 = x) by apply string_of_list_ascii_of_string.
  rewrite !G. cbn [rmap fstr String.concat].
  now rewrite string_of_list_ascii_of_string.
Qed.

Lemma unix_timestamp_by_argument_witness :
  Re.sub (call01 "unix_timestamp") (replacement (rule_at 20))
         "Unix_Timestamp()" true = Ok "to_unixtime(now())" /\
  Re.sub (call01 "unix_timestamp") (replacement (rule_at 20))
         "unix_timestamp( )" true = Ok "to_unixtime( )".
Proof.
  split.
  - apply (unix_timestamp_by_argument "Unix_Timestamp" "");
      [reflexivity | intros []].
  - apply (unix_timestamp_by_argument "unix_timestamp" " ");
      [reflexivity | simpl; intuition discriminate].
Defined.

(** *** Calls with too few arguments *)

Lemma lower_comma c : lower_char c = ","%char -> c = ","%char.
Proof. destruct c as [[] [] [] [] [] [] [] []]; intros H; try discriminate H; reflexivity. Qed.

Lemma lang_needs_comma r m :
  needs_comma r = true -> lang true r m -> In ","%char m.
Proof.
  intros Hr Hl. induction Hl as [|cl c Hc|cl m Hm|cl m Hne Hm| |n r m Hl IH
                                |r1 r2 m1 m2 H1 IH1 H2 IH2];
    cbn [needs_comma] in Hr; try discriminate.
  - destruct cl; try discriminate. apply Ascii.eqb_eq in Hr. subst.
    cbn [cmatch] in Hc. apply Ascii.eqb_eq in Hc. apply lower_comma in Hc.
    subst. now left.
  - auto.
  - apply orb_true_iff in Hr. apply in_or_app. destruct Hr; auto.
Qed.

Lemma comma_free_text items :
  comma_free items = true -> Forall item_ok items -> ~ In ","%char (inst items).
Proof.
  intros Hc Hok. induction Hok as [|i items Hi _ IH]; [intros []|].
  cbn [comma_free forallb] in Hc. apply andb_true_iff in Hc.
  destruct Hc as [Hi' Hc]. unfold inst. cbn [flat_map]. intros Hin.
  apply in_app_or in Hin. destruct Hin as [Hin|Hin]; [|now apply IH].
  destruct i as [c|t|t]; cbn [item_text item_ok] in *.
  - destruct Hin as [->|[]]. discriminate Hi'.
  - unfold segment in Hi. rewrite Forall_forall in Hi.
    specialize (Hi _ Hin). discriminate Hi.
  - unfold segment in Hi. rewrite Forall_forall in Hi.
    specialize (Hi _ Hin). discriminate Hi.
Qed.

Lemma lang_needs_arg r m :
  needs_arg r = true -> lang true r m ->
  exists a c tl, m = a ++ "("%char :: c :: tl /\ c <> ")"%char.
Proof.
  intros Hr Hl. unfold needs_arg in Hr.
  destruct r as [| | | | | |l r]; try discriminate.
  destruct r as [| | | | | |s r]; try discriminate.
  destruct s as [| |cl| | | |]; try discriminate.
  destruct cl; try discriminate.
  destruct r as [| | | | | |p r]; try discriminate.
  destruct p as [|cl| | | | |]; try discriminate.
  destruct cl as [p| | |]; try discriminate.
  destruct r as [| | | | | |g r]; try discriminate.
  destruct g as [| | | | |n g|]; try discriminate.
  destruct g as [| | |cl| | |]; try discriminate.
  destruct cl as [|q| |]; try discriminate.
  apply andb_true_iff in Hr. destruct Hr as [Hr _].
  apply andb_true_iff in Hr. destruct Hr as [Hp Hq].
  apply Ascii.eqb_eq in Hp. apply Ascii.eqb_eq in Hq. subst p q.
  apply lang_seq_inv in Hl. destruct Hl as (nm & x1 & -> & _ & Hl).
  apply lang_seq_inv in Hl. destruct Hl as (ws & x2 & -> & _ & Hl).
  apply lang_seq_inv in Hl. destruct Hl as (po & x3 & -> & H3 & Hl).
  apply lang_seq_inv in Hl. destruct Hl as (gm & x4 & -> & H4 & _).
  apply lang_chr_inv in H3. destruct H3 as (c & -> & Hc).
  apply lit_paren_open in Hc. subst c.
  inversion H4 as [| | | | |? ? ? Hg|]; subst.
  inversion Hg as [| | |? ? Hne Hall| | |]; subst.
  destruct gm as [|c gm]; [contradiction|].
  inversion Hall as [|? ? Hc _]; subst.
  exists (nm ++ ws), c, (gm ++ x4). split.
  - repeat (rewrite <- app_assoc; cbn [app]). reflexivity.
  - intros ->. discriminate Hc.
Qed.

Lemma split_after (c : ascii) (t y a b : text) :
  ~ In c t -> t ++ y = a ++ c :: b ->
  exists a', a = t ++ a' /\ y = a' ++ c :: b.
Proof.
  revert a. induction t as [|x t IH]; intros a Ht E; cbn [app] in *.
  - exists a. auto.
  - destruct a as [|x' a]; cbn [app] in E.
    + inversion E; subst. exfalso. apply Ht. now left.
    + inversion E; subst.
      destruct (IH a) as (a' & -> & ->); [|assumption|].
      * intros Hin. apply Ht. now right.
      * exists a'. auto.
Qed.

Lemma no_args_text items :
  no_args items = true -> Forall item_ok items ->
  forall a b, inst items = a ++ "("%char :: b -> exists b', b = ")"%char :: b'.
Proof.
  intros Hn Hok. induction Hok as [|i items Hi Hok IH]; intros a b E.
  - destruct a; discriminate E.
  - unfold inst in E. cbn [flat_map] in E. fold (inst items) in E.
    destruct i as [c|t|t]; cbn [item_text item_ok no_args] in *.
    + apply andb_true_iff in Hn. destruct Hn as [Hc Hn].
      destruct a as [|x a]; cbn [app] in E; inversion E; subst.
      * rewrite Ascii.eqb_refl in Hc.
        destruct items as [|[d| |] items]; try discriminate Hc.
        apply Ascii.eqb_eq in Hc. subst d. eexists. reflexivity.
      * now apply (IH Hn a b).
    + destruct (split_after "("%char _ _ _ _
                  (segment_free "("%char _ eq_refl Hi) E) as (a' & -> & E').
      now apply (IH Hn a' b).
    + destruct (split_after "("%char _ _ _ _
                  (segment_free "("%char _ eq_refl Hi) E) as (a' & -> & E').
      now apply (IH Hn a' b).
Qed.

Lemma quiet_on_no_match items m :
  quiet_on items m = true -> Forall item_ok items ->
  forall p s prev, inst items = p ++ s -> match_here true (pattern m) prev s = None.
Proof.
  intros Hq Hok p s prev E. unfold quiet_on in Hq.
  apply orb_true_iff in Hq. destruct Hq as [Hq|Hq];
    [apply orb_true_iff in Hq; destruct Hq as [Hq|Hq]|].
  - exact (no_call_no_match _ _ Hq Hok p s prev E).
  - apply andb_true_iff in Hq. destruct Hq as [Hr Hc].
    destruct (match_here true (pattern m) prev s) as [[mo n]|] eqn:Em;
      [exfalso | reflexivity].
    destruct (match_here_sound _ _ _ _ _ _ Em) as (rest & -> & Hl & _).
    apply (comma_free_text items Hc Hok). rewrite E.
    apply in_or_app. right. apply in_or_app. left.
    exact (lang_needs_comma _ _ Hr Hl).
  - apply andb_true_iff in Hq. destruct Hq as [Hr Hn].
    destruct (match_here true (pattern m) prev s) as [[mo n]|] eqn:Em;
      [exfalso | reflexivity].
    destruct (match_here_sound _ _ _ _ _ _ Em) as (rest & -> & Hl & _).
    destruct (lang_needs_arg _ _ Hr Hl) as (a & c & tl & Es & Hc).
    rewrite Es in E.
    destruct (no_args_text items Hn Hok (p ++ a) (c :: tl ++ rest)) as [b' Eb].
    + rewrite E. repeat (rewrite <- app_assoc; cbn [app]). reflexivity.
    + inversion Eb. contradiction.
Qed.

Lemma run_rules_quiet_on rules items :
  forallb (quiet_on items) rules = true -> Forall item_ok items ->
  forall st, sql_content st = string_of_list_ascii (inst items) ->
             run_rules rules st = st.
Proof.
  induction rules as [|m rules IH]; intros Hq Hok st Hs; [reflexivity|].
  cbn [forallb] in Hq. apply andb_true_iff in Hq. destruct Hq as [Hm Hq].
  rewrite run_rules_cons, no_match_no_change; [now apply IH|].
  unfold findall_len. rewrite Hs, list_ascii_of_string_of_list_ascii.
  exact (proj2 (scan_no_match true (pattern m) (Template "") (inst items)
                  (quiet_on_no_match items m Hm Hok) None)).
Qed.

Lemma quiet_conversion sql items :
  sql = string_of_list_ascii (inst items) -> Forall item_ok items ->
  forallb (quiet_on items) function_mappings = true ->
  exists text,
    _apply_additional_transformations sql = Ok text /\
    replace_func sql = Returned text (_validate_converted_sql text) no_stats.
Proof.
  intros Es Hok Hq. destruct (replace_func_returns sql) as (text & Ht & E).
  rewrite (run_rules_quiet_on _ items Hq Hok (initial sql) Es) in Ht, E.
  exists text. split; [exact Ht | exact E].
Qed.

Lemma short_call_text name args :
  List.length args < 2 ->
  call name args = string_of_list_ascii (inst (short_call name args)).
Proof.
  intros H. destruct args as [|x [|y args]]; [| |simpl in H; lia];
    unfold call; items_text.
Qed.

Lemma short_call_ok name args :
  segment (list_ascii_of_string name) -> Forall plain args ->
  Forall item_ok (short_call name args).
Proof.
  intros Hn Ha. destruct Ha as [|x args Hx _]; repeat constructor; try assumption.
  now apply plain_segment.
Qed.

(** A call of a construct with fewer arguments than its rule wants is
    not converted: no rule finds a match, nothing is recorded, and the
    conversion returns the post-processed call with the warnings of the
    validator. *)
Theorem too_few_arguments (mapping : rule) (args : list string) (n : nat) :
  In mapping function_mappings ->
  arity (func_name mapping) = [n] -> List.length args < n ->
  Forall plain args ->
  exists text,
    _apply_additional_transformations (call (func_name mapping) args) = Ok text /\
    replace_func (call (func_name mapping) args)
    = Returned text (_validate_converted_sql text) no_stats.
Proof.
  intros Hin Har Hlen Hpl. unfold function_mappings in Hin.
  repeat (destruct Hin as [<-|Hin]); try contradiction;
    cbn [func_name] in *; vm_compute in Har; inversion Har; subst n;
    try (exfalso; lia);
    match goal with
    | |- context [call ?nm args] =>
        apply (quiet_conversion _ (short_call nm args));
        [ apply short_call_text; lia
        | apply short_call_ok; [repeat constructor | assumption]
        | destruct args as [|x [|y args]];
          try (exfalso; simpl in Hlen; lia); vm_compute; reflexivity ]
    end.
Qed.

Lemma too_few_arguments_witness :
  exists text,
    _apply_additional_transformations "datediff(a)" = Ok text /\
    replace_func "datediff(a)"
    = Returned text (_validate_converted_sql text) no_stats.
Proof.
  apply (too_few_arguments (rule_at 5) ["a"] 2).
  - do 5 right. now left.
  - reflexivity.
  - simpl. lia.
  - repeat constructor; discriminate.
Defined.

(** *** Matching does not look at the case *)






Section Lower.
Context {A B : Type}.


End Lower.




(** *** The text the rule engine leaves of a single call *)

(** The first rule that finds the call, when its own pattern finds
    nothing in what it writes. *)
Lemma first_hit mapping sql out items1 :
  Re.sub (pattern mapping) (replacement mapping) sql true = Ok out ->
  out = string_of_list_ascii (inst items1) ->
  findall_len (pattern mapping) sql true = 1 ->
  Forall item_ok items1 ->
  no_call (pattern mapping) items1 = true ->
  apply_rule (initial sql) mapping
  = {| sql_content := out; warnings := [];
       stats := one_conversion (func_name mapping) |}.
Proof.
  intros Hsub Eout Hcount Hok1 Hown.
  unfold apply_rule. cbn [sql_content initial]. rewrite Hsub, Hcount.
  rewrite Eout, (count_no_call _ _ Hown Hok1). reflexivity.
Qed.

Lemma engine_one_call mapping pre post sql items0 items1 out :
  function_mappings = pre ++ mapping :: post ->
  sql = string_of_list_ascii (inst items0) ->
  Forall item_ok items0 ->
  forallb (fun m => no_call (pattern m) items0) pre = true ->
  Re.sub (pattern mapping) (replacement mapping) sql true = Ok out ->
  out = string_of_list_ascii (inst items1) ->
  findall_len (pattern mapping) sql true = 1 ->
  Forall item_ok items1 ->
  no_call (pattern mapping) items1 = true ->
  forallb (fun m => no_call (pattern m) items1) post = true ->
  run_rules function_mappings (initial sql)
  = {| sql_content := out; warnings := [];
       stats := one_conversion (func_name mapping) |}.
Proof.
  intros Etab Esql Hok0 Hpre Hsub Eout Hcount Hok1 Hown Hpost.
  rewrite Etab, run_rules_app, run_rules_cons.
  rewrite (run_rules_no_call pre (initial sql) items0 Hpre Hok0 Esql).
  rewrite (first_hit mapping sql out items1 Hsub Eout Hcount Hok1 Hown).
  apply (run_rules_no_call post _ items1 Hpost Hok1). exact Eout.
Qed.

Ltac engine_call i its0 its1 Es Ec :=
  eapply engine_one_call
    with (mapping := rule_at i)
         (pre := firstn i function_mappings)
         (post := skipn (S i) function_mappings)
         (items0 := its0) (items1 := its1);
  [ reflexivity
  | idtac
  | idtac
  | vm_compute; reflexivity
  | unfold rule_at; cbn [nth function_mappings pattern replacement];
    rewrite Es; reflexivity
  | items_text
  | exact Ec
  | segments
  | vm_compute; reflexivity
  | vm_compute; reflexivity ].

Ltac engine_two i name g its1 :=
  match goal with
  | Hd : plain ?d, Hv : plain ?v |- _ =>
      let Es := fresh "Es" in
      let Ec := fresh "Ec" in
      unfold engine_result, rule_at; cbn [nth function_mappings func_name];
      destruct (call2_step name name (lambda g) d v eq_refl Hd Hv) as [Es Ec];
      rewrite lambda_apply, call_match_group1, ?plain_group2 in Es by assumption;
      lazymatch type of Es with _ = Ok ?o => change (rewritten _ _) with o end;
      engine_call i (call2_items name d v) its1 Es Ec;
      [ apply call2_items_text
      | apply call2_items_ok; [repeat constructor | assumption | assumption] ]
  end.

Ltac engine_one i name g its1 :=
  match goal with
  | Hx : plain ?x |- _ =>
      let Es := fresh "Es" in
      let Ec := fresh "Ec" in
      unfold engine_result, rule_at; cbn [nth function_mappings func_name];
      destruct (call1_step name name (lambda g) x eq_refl Hx) as [Es Ec];
      rewrite lambda_apply, ?call1_match_group1 in Es;
      lazymatch type of Es with _ = Ok ?o => change (rewritten _ _) with o end;
      engine_call i (call1_items name x) its1 Es Ec;
      [ apply call1_items_text
      | apply call1_items_ok; [repeat constructor | assumption] ]
  end.

Lemma datediff_engine d v :
  plain d -> plain v -> engine_result (rule_at 5) [d; v].
Proof.
  intros Hd Hv.
  engine_two 5 "datediff"
    (fun m => ["date_diff('day', "; group m 2; ", "; group m 1; ")"])
    [K "date_diff"; D "("; K "'day'"; D ","; U (" "%char :: list_ascii_of_string v); D ",";
     U (" "%char :: list_ascii_of_string d); D ")"].
Qed.

Lemma from_utc_timestamp_engine d v :
  plain d -> plain v -> engine_result (rule_at 8) [d; v].
Proof.
  intros Hd Hv.
  engine_two 8 "from_utc_timestamp"
    (fun m => ["at_timezone("; group m 1; ", "; group m 2; ")"])
    [K "at_timezone"; D "("; U (list_ascii_of_string d); D ","; U (" "%char :: list_ascii_of_string v); D ")"].
Qed.

Lemma to_utc_timestamp_engine d v :
  plain d -> plain v -> engine_result (rule_at 9) [d; v].
Proof.
  intros Hd Hv.
  engine_two 9 "to_utc_timestamp"
    (fun m => ["at_timezone("; group m 1; ", 'UTC')"])
    [K "at_timezone"; D "("; U (list_ascii_of_string d); D ","; K " 'UTC'"; D ")"].
Qed.

Lemma ifnull_engine d v :
  plain d -> plain v -> engine_result (rule_at 11) [d; v].
Proof.
  intros Hd Hv.
  engine_two 11 "ifnull"
    (fun m => ["COALESCE("; group m 1; ", "; group m 2; ")"])
    [K "COALESCE"; D "("; U (list_ascii_of_string d); D ","; U (" "%char :: list_ascii_of_string v); D ")"].
Qed.

Lemma instr_engine d v :
  plain d -> plain v -> engine_result (rule_at 12) [d; v].
Proof.
  intros Hd Hv.
  engine_two 12 "instr"
    (fun m => ["strpos("; group m 1; ", "; group m 2; ")"])
    [K "strpos"; D "("; U (list_ascii_of_string d); D ","; U (" "%char :: list_ascii_of_string v); D ")"].
Qed.

Lemma int_months_between_engine d v :
  plain d -> plain v -> engine_result (rule_at 13) [d; v].
Proof.
  intros Hd Hv.
  engine_two 13 "int_months_between"
    (fun m => ["date_diff('month', "; group m 2; ", "; group m 1; ")"])
    [K "date_diff"; D "("; K "'month'"; D ","; U (" "%char :: list_ascii_of_string v); D ",";
     U (" "%char :: list_ascii_of_string d); D ")"].
Qed.

Lemma left_engine d v :
  plain d -> plain v -> engine_result (rule_at 14) [d; v].
Proof.
  intros Hd Hv.
  engine_two 14 "left"
    (fun m => ["substring("; group m 1; ", 1, "; group m 2; ")"])
    [K "substring"; D "("; U (list_ascii_of_string d); D ","; K " 1"; D ",";
     U (" "%char :: list_ascii_of_string v); D ")"].
Qed.

Lemma strright_engine d v :
  plain d -> plain v -> engine_result (rule_at 16) [d; v].
Proof.
  intros Hd Hv.
  engine_two 16 "strright"
    (fun m => ["substring("; group m 1; ", -"; group m 2; ")"])
    [K "substring"; D "("; U (list_ascii_of_string d); D ",";
     U (" "%char :: "-"%char :: list_ascii_of_string v); D ")"].
Qed.

Lemma right_engine d v :
  plain d -> plain v -> engine_result (rule_at 17) [d; v].
Proof.
  intros Hd Hv.
  engine_two 17 "right"
    (fun m => ["substring("; group m 1; ", -"; group m 2; ")"])
    [K "substring"; D "("; U (list_ascii_of_string d); D ",";
     U (" "%char :: "-"%char :: list_ascii_of_string v); D ")"].
Qed.

Lemma dayofmonth_engine x : plain x -> engine_result (rule_at 6) [x].
Proof.
  intros Hx.
  engine_one 6 "dayofmonth" (fun m => ["DAY("; group m 1; ")"])
             [K "DAY"; D "("; U (list_ascii_of_string x); D ")"].
Qed.

Lemma dayofweek_engine x : plain x -> engine_result (rule_at 7) [x].
Proof.
  intros Hx.
  engine_one 7 "dayofweek"
    (fun m => ["IF(day_of_week("; group m 1; ")+1 > 7, 1, day_of_week(";
               group m 1; ")+1)"])
    [K "IF"; D "("; K "day_of_week"; D "("; U (list_ascii_of_string x); D ")"; K "+1 > 7"; D ",";
     K " 1"; D ","; K " day_of_week"; D "("; U (list_ascii_of_string x); D ")"; K "+1"; D ")"].
Qed.

Lemma group_concat_engine x : plain x -> engine_result (rule_at 10) [x].
Proof.
  intros Hx.
  engine_one 10 "group_concat"
    (fun m => ["array_join(array_agg("; group m 1; "), ',')"])
    [K "array_join"; D "("; K "array_agg"; D "("; U (list_ascii_of_string x); D ")"; D ",";
     K " '"; D ","; K "'"; D ")"].
Qed.

Lemma to_date_engine x : plain x -> engine_result (rule_at 18) [x].
Proof.
  intros Hx.
  engine_one 18 "to_date" (fun m => ["date("; group m 1; ")"])
             [K "date"; D "("; U (list_ascii_of_string x); D ")"].
Qed.

Lemma weekofyear_engine x : plain x -> engine_result (rule_at 21) [x].
Proof.
  intros Hx.
  engine_one 21 "weekofyear" (fun m => ["week("; group m 1; ")"])
             [K "week"; D "("; U (list_ascii_of_string x); D ")"].
Qed.

Lemma unix_timestamp_engine x : plain x -> engine_result (rule_at 20) [x].
Proof.
  intros Hx. unfold engine_result, rule_at. cbn [nth function_mappings func_name].
  destruct (call01_step "unix_timestamp" "unix_timestamp"
              (lambda (fun m =>
                 ["to_unixtime(";
                  (if String.eqb (group m 1) "" then "now()" else group m 1);
                  ")"]))
              x eq_refl Hx) as [Es Ec].
  rewrite lambda_apply, !call1_match_group1 in Es.
  replace (String.eqb x "") with false in Es
    by (destruct x; [now destruct Hx | reflexivity]).
  change (rewritten _ _) with (fstr ["to_unixtime("; x; ")"]).
  engine_call 20 (call1_items "unix_timestamp" x)
              [K "to_unixtime"; D "("; U (list_ascii_of_string x); D ")"] Es Ec.
  - apply call1_items_text.
  - apply call1_items_ok; [repeat constructor | assumption].
Qed.

Lemma unix_timestamp_now_engine : engine_result (rule_at 20) [].
Proof. vm_compute. reflexivity. Qed.

Lemma current_timestamp_engine : engine_result (rule_at 22) [].
Proof. vm_compute. reflexivity. Qed.

Lemma date_sub_engine d v :
  plain d -> plain v -> engine_result (rule_at 4) [d; v].
Proof.
  intros Hd Hv. unfold engine_result, rule_at. cbn [nth function_mappings func_name].
  destruct (call2_step "DATE_SUB" "date_sub" (Callable _replace_date_sub)
                       d v eq_refl Hd Hv) as [Es Ec].
  rewrite (callable_apply _ _ (fstr ["date_add('day', -"; v; ", "; d; ")"])) in Es.
  2:{ unfold _replace_date_sub.
      rewrite call_match_group1, plain_group2, plain_split by assumption.
      reflexivity. }
  change (rewritten _ _) with (fstr ["date_add('day', -"; v; ", "; d; ")"]).
  engine_call 4 (call2_items "date_sub" d v)
              [K "date_add"; D "("; K "'day'"; D ",";
               U (" "%char :: "-"%char :: list_ascii_of_string v); D ","; U (" "%char :: list_ascii_of_string d); D ")"]
              Es Ec.
  - apply call2_items_text.
  - apply call2_items_ok; [repeat constructor | assumption | assumption].
Qed.

Lemma date_part_engine d v :
  plain d -> plain v -> engine_result (rule_at 3) [d; v].
Proof.
  intros Hd Hv. unfold engine_result, rule_at. cbn [nth function_mappings func_name].
  destruct (call2_step "DATE_PART" "date_part" (Callable _replace_date_part)
                       d v eq_refl Hd Hv) as [Es Ec].
  set (part := replace "'" "" (lower d)).
  assert (Hp : segment (list_ascii_of_string part))
    by (apply unquote_segment, lower_segment, plain_segment, Hd).
  rewrite (callable_apply _ _ (fstr ["extract("; part; " FROM "; v; ")"])) in Es.
  2:{ unfold _replace_date_part.
      rewrite call_match_group1, plain_group2, !plain_strip by assumption.
      rewrite unquote_part. reflexivity. }
  assert (Hu : segment (list_ascii_of_string part ++ list_ascii_of_string " FROM " ++ list_ascii_of_string v)).
  { apply Forall_app. split; [assumption|]. apply Forall_app.
    split; [repeat constructor | now apply plain_segment]. }
  change (rewritten _ _) with (fstr ["extract("; part; " FROM "; v; ")"]).
  engine_call 3 (call2_items "date_part" d v)
              [K "extract"; D "("; U (list_ascii_of_string part ++ list_ascii_of_string " FROM " ++ list_ascii_of_string v); D ")"]
              Es Ec; try assumption.
  - apply call2_items_text.
  - apply call2_items_ok; [repeat constructor | assumption | assumption].
Qed.

(** A text that is one call of a construct, with plain arguments of a
    documented number: but for the five constructs of [interfered], the
    rule engine leaves the text the rule of the construct rewrites the
    call to, records one conversion for that rule and fails nowhere;
    the conversion returns that text post-processed. *)
Theorem single_call_rewritten (mapping : rule) (args : list string) :
  In mapping function_mappings ->
  ~ In (func_name mapping) interfered ->
  In (List.length args) (arity (func_name mapping)) ->
  Forall plain args ->
  engine_result mapping args /\
  exists text,
    _apply_additional_transformations (rewritten (func_name mapping) args)
    = Ok text /\
    replace_func (call (func_name mapping) args)
    = Returned text (_validate_converted_sql text)
               (one_conversion (func_name mapping)).
Proof.
  intros Hin Hex Har Hpl.
  assert (H : engine_result mapping args).
  { unfold function_mappings in Hin.
    repeat (destruct Hin as [<-|Hin]); try contradiction;
      cbn [func_name] in *;
      try (exfalso; apply Hex; simpl; tauto);
      by_arity.
    - now apply date_part_engine.
    - now apply date_sub_engine.
    - now apply datediff_engine.
    - now apply dayofmonth_engine.
    - now apply dayofweek_engine.
    - now apply from_utc_timestamp_engine.
    - now apply to_utc_timestamp_engine.
    - now apply group_concat_engine.
    - now apply ifnull_engine.
    - now apply instr_engine.
    - now apply int_months_between_engine.
    - now apply left_engine.
    - now apply strright_engine.
    - now apply right_engine.
    - now apply to_date_engine.
    - exact unix_timestamp_now_engine.
    - now apply unix_timestamp_engine.
    - now apply weekofyear_engine.
    - exact current_timestamp_engine. }
  split; [exact H|]. unfold engine_result in H.
  destruct (replace_func_returns (call (func_name mapping) args)) as (text & Ht & E).
  rewrite H in Ht, E. cbn [sql_content warnings stats app] in Ht, E.
  exists text. split; [exact Ht | exact E].
Qed.

Lemma single_call_rewritten_witness :
  run_rules function_mappings (initial "datediff(a, b)")
  = {| sql_content := "date_diff('day', b, a)"; warnings := [];
       stats := one_conversion "datediff" |}.
Proof.
  apply (proj1 (single_call_rewritten (rule_at 5) ["a"; "b"]
                  ltac:(do 5 right; now left)
                  ltac:(simpl; intuition discriminate)
                  ltac:(now left)
                  ltac:(repeat constructor; discriminate))).
Defined.

(** *** The rules that interfere *)

(** The [date_add] rule changes the text or fails, and records nothing
    else. *)
Lemma date_add_step_ok st new_sql :
  Re.sub (call2 "date_add") (Callable _replace_date_add) (sql_content st) true
  = Ok new_sql ->
  apply_rule st date_add_rule
  = {| sql_content := new_sql; warnings := warnings st; stats := stats st |}.
Proof.
  intros E. pose proof (date_add_step_stats st) as H.
  unfold apply_rule in H |- *. cbn [pattern replacement date_add_rule] in H |- *.
  rewrite E in H |- *. cbn [stats] in H. f_equal.
  destruct H as [H|H]; [exact H | exfalso].
  match type of H with context [(0 <? ?z)%Z] => destruct (0 <? z)%Z eqn:Ez end.
  - apply (f_equal errors) in H. cbn in H. lia.
  - apply (f_equal errors) in H. cbn in H. lia.
Qed.

Lemma date_add_step_raised st e :
  Re.sub (call2 "date_add") (Callable _replace_date_add) (sql_content st) true
  = Raise e ->
  apply_rule st date_add_rule
  = {| sql_content := sql_content st;
       warnings := warnings st ++
         [fstr ["Warning: Failed to apply "; "date_add"; " conversion: "; str_exn e]];
       stats := add_error (stats st) |}.
Proof.
  intros E. unfold apply_rule. cbn [pattern replacement date_add_rule func_name].
  now rewrite E.
Qed.

(** [add_months]: the [date_add] rule rewrites what the [add_months]
    rule wrote. *)
Lemma add_months_engine d v :
  plain d -> plain v ->
  run_rules function_mappings (initial (call "add_months" [d; v]))
  = {| sql_content := fstr ["date_add('AS', CAST("; d; ", 'month'))"];
       warnings := []; stats := one_conversion "add_months" |}.
Proof.
  intros Hd Hv.
  destruct (call2_step "add_months" "add_months"
              (lambda (fun m =>
                 ["date_add('month', "; group m 2; ", CAST("; group m 1;
                  " AS TIMESTAMP))"]))
              d v eq_refl Hd Hv) as [Es Ec].
  rewrite lambda_apply, call_match_group1, plain_group2 in Es by assumption.
  pose proof (plain_segment d Hd) as Sd. pose proof (plain_segment v Hv) as Sv.
  set (its1 := [K "date_add"; D "("; K "'month'"; D ",";
                U (" "%char :: list_ascii_of_string v); D ","; K " CAST"; D "(";
                U (list_ascii_of_string d ++ list_ascii_of_string " AS TIMESTAMP");
                D ")"; D ")"]).
  set (its2 := [K "date_add"; D "("; K "'AS'"; D ","; K " CAST"; D "(";
                U (list_ascii_of_string d); D ","; K " 'month'"; D ")"; D ")"]).
  assert (Hok1 : Forall item_ok its1).
  { repeat constructor; try assumption.
    apply Forall_app. split; [assumption | repeat constructor]. }
  assert (Hok2 : Forall item_ok its2) by (repeat constructor; assumption).
  set (T1 := fstr ["date_add('month', "; v; ", CAST("; d; " AS TIMESTAMP))"]) in *.
  set (T2 := fstr ["date_add('AS', CAST("; d; ", 'month'))"]).
  assert (E1 : T1 = string_of_list_ascii (inst its1)) by (unfold T1; items_text).
  assert (E2 : T2 = string_of_list_ascii (inst its2)) by (unfold T2; items_text).
  change function_mappings
    with (rule_at 0 :: rule_at 1 :: date_add_rule :: skipn 3 function_mappings).
  rewrite !run_rules_cons.
  rewrite (first_hit (rule_at 0) _ T1 its1 Es E1 Ec Hok1)
    by (vm_compute; reflexivity).
  rewrite (apply_rule_no_call _ (rule_at 1) its1)
    by (try assumption; vm_compute; reflexivity).
  set (st1 := {| sql_content := T1; warnings := [];
                 stats := one_conversion (func_name (rule_at 0)) |}).
  assert (E3 : sql_content (apply_rule st1 date_add_rule) = T2).
  { rewrite (add_months_date_add d v st1 Hd Hv eq_refl). unfold T2. same_text. }
  destruct (Re.sub (call2 "date_add") (Callable _replace_date_add)
                   (sql_content st1) true) as [new_sql|e] eqn:Esub.
  - rewrite (date_add_step_ok _ _ Esub) in E3 |- *. cbn [sql_content] in E3.
    subst new_sql.
    now rewrite (run_rules_no_call _ _ its2)
      by (try assumption; vm_compute; reflexivity).
  - exfalso. rewrite (date_add_step_raised _ _ Esub) in E3.
    cbn [sql_content st1] in E3.
    apply (f_equal list_ascii_of_string) in E3. unfold T1, T2, fstr in E3.
    cbn [String.concat] in E3. rewrite !list_of_append in E3. discriminate E3.
Qed.

(** The [date_add] rule fails on the text the [adddate] rule leaves. *)
Lemma adddate_date_add_raises d v :
  plain d -> plain v ->
  Re.sub (call2 "date_add") (Callable _replace_date_add)
         (fstr ["date_add('day', "; v; ", "; d; ")"]) true
  = Raise IndexError.
Proof.
  intros Hd Hv.
  pose proof (plain_nospace d Hd) as Nd. pose proof (plain_nospace v Hv) as Nv.
  pose proof (plain_segment d Hd) as Sd. pose proof (plain_segment v Hv) as Sv.
  set (v' := (v ++ ", " ++ d)%string).
  assert (Ev : split v' = [(v ++ ",")%string; d]).
  { unfold split, v'.
    replace (list_ascii_of_string (v ++ ", " ++ d)%string)
      with ((list_ascii_of_string v ++ list_ascii_of_string ",") ++ " "%char :: list_ascii_of_string d)
      by (repeat (rewrite list_of_append; simpl);
          repeat (rewrite <- app_assoc; simpl); reflexivity).
    rewrite split_text_cons, split_text_last;
      try (apply nospace_app; try assumption); try (repeat constructor);
      try (intros E; apply app_eq_nil in E; destruct E; discriminate);
      try assumption; try (now apply plain_nonempty).
    cbn [map]. now rewrite !string_of_app, !string_of_list_ascii_of_string. }
  replace (fstr ["date_add('day', "; v; ", "; d; ")"])
    with ("date_add" ++ "(" ++ "'day'" ++ ", " ++ v' ++ ")" ++ "")%string
    by (unfold v'; same_text).
  apply sub_call_raises.
  - reflexivity.
  - split; [discriminate|]. simpl. intuition discriminate.
  - split; [rewrite Ev; discriminate|]. unfold v'.
    repeat (rewrite list_of_append; simpl). intros Hin.
    apply in_app_or in Hin.
    destruct Hin as [Hin|Hin]; [exact (segment_free ")"%char _ eq_refl Sv Hin)|].
    repeat (destruct Hin as [Hin|Hin]; [discriminate|]).
    exact (segment_free ")"%char _ eq_refl Sd Hin).
  - unfold _replace_date_add. rewrite call_match_split, Ev. reflexivity.
Qed.

(** [adddate]: the [date_add] rule fails on what the [adddate] rule
    wrote. *)
Lemma adddate_engine d v :
  plain d -> plain v ->
  run_rules function_mappings (initial (call "adddate" [d; v]))
  = {| sql_content := fstr ["date_add('day', "; v; ", "; d; ")"];
       warnings := [date_add_failed];
       stats := add_error (one_conversion "adddate") |}.
Proof.
  intros Hd Hv.
  destruct (call2_step "adddate" "adddate"
              (lambda (fun m =>
                 ["date_add('day', "; group m 2; ", "; group m 1; ")"]))
              d v eq_refl Hd Hv) as [Es Ec].
  rewrite lambda_apply, call_match_group1, plain_group2 in Es by assumption.
  pose proof (plain_segment d Hd) as Sd. pose proof (plain_segment v Hv) as Sv.
  set (its1 := [K "date_add"; D "("; K "'day'"; D ",";
                U (" "%char :: list_ascii_of_string v);
                D ","; U (" "%char :: list_ascii_of_string d); D ")"]).
  assert (Hok1 : Forall item_ok its1)
    by (repeat constructor; try assumption).
  set (T1 := fstr ["date_add('day', "; v; ", "; d; ")"]) in *.
  assert (E1 : T1 = string_of_list_ascii (inst its1)) by (unfold T1; items_text).
  change function_mappings
    with (rule_at 0 :: rule_at 1 :: date_add_rule :: skipn 3 function_mappings).
  rewrite !run_rules_cons.
  rewrite (apply_rule_no_call _ (rule_at 0) (call2_items "adddate" d v));
    [ | vm_compute; reflexivity
      | apply call2_items_ok; [repeat constructor | assumption | assumption]
      | apply call2_items_text ].
  rewrite (first_hit (rule_at 1) _ T1 its1 Es E1 Ec Hok1)
    by (vm_compute; reflexivity).
  rewrite (date_add_step_raised _ IndexError)
    by (apply adddate_date_add_raises; assumption).
  now rewrite (run_rules_no_call _ _ its1)
    by (try assumption; vm_compute; reflexivity).
Qed.

(** [date_add]: the pattern of the rule finds the call the rule wrote,
    and nothing is recorded. *)
Lemma date_add_engine d v :
  plain d -> plain v ->
  run_rules function_mappings (initial (call "date_add" [d; v]))
  = {| sql_content := fstr ["date_add('day', "; v; ", CAST("; d; " AS TIMESTAMP))"];
       warnings := []; stats := no_stats |}.
Proof.
  intros Hd Hv.
  destruct (call2_step "date_add" "date_add" (Callable _replace_date_add)
              d v eq_refl Hd Hv) as [Es _].
  set (T1 := fstr ["date_add('day', "; v; ", CAST("; d; " AS TIMESTAMP))"]).
  rewrite (callable_apply _ _ T1) in Es.
  2:{ unfold _replace_date_add.
      rewrite call_match_split, plain_split by assumption.
      cbn [List.length Nat.eqb].
      now rewrite call_match_group1, plain_group2 by assumption. }
  pose proof (plain_segment d Hd) as Sd. pose proof (plain_segment v Hv) as Sv.
  set (its1 := [K "date_add"; D "("; K "'day'"; D ",";
                U (" "%char :: list_ascii_of_string v); D ","; K " CAST"; D "(";
                U (list_ascii_of_string d ++ list_ascii_of_string " AS TIMESTAMP");
                D ")"; D ")"]).
  assert (Hok1 : Forall item_ok its1).
  { repeat constructor; try assumption.
    apply Forall_app. split; [assumption | repeat constructor]. }
  assert (E1 : T1 = string_of_list_ascii (inst its1)) by (unfold T1; items_text).
  change function_mappings
    with ([rule_at 0; rule_at 1] ++ date_add_rule :: skipn 3 function_mappings).
  rewrite run_rules_app, run_rules_cons.
  rewrite (run_rules_no_call [rule_at 0; rule_at 1] _ (call2_items "date_add" d v));
    [ | vm_compute; reflexivity
      | apply call2_items_ok; [repeat constructor | assumption | assumption]
      | apply call2_items_text ].
  rewrite (date_add_step_ok _ T1) by exact Es.
  now rewrite (run_rules_no_call _ _ its1)
    by (try assumption; vm_compute; reflexivity).
Qed.

(** [strleft]: the [left] rule, which comes first, finds its name at the
    end of [strleft]. *)
Lemma strleft_engine d v :
  plain d -> plain v ->
  run_rules function_mappings (initial (call "strleft" [d; v]))
  = {| sql_content := fstr ["strsubstring("; d; ", 1, "; v; ")"];
       warnings := []; stats := one_conversion "left" |}.
Proof.
  intros Hd Hv.
  destruct (prefix_call_step "left"
              (lambda (fun m => ["substring("; group m 1; ", 1, "; group m 2; ")"]))
              "str" "left" d v eq_refl eq_refl
              (plain_first_arg d Hd) (plain_second_arg v Hv))
    as [Es Ec].
  { simpl. intuition discriminate. }
  cbn [apply_repl lambda rmap] in Es.
  rewrite call_match_group1, plain_group2 in Es by assumption.
  replace ("str" ++ "left" ++ "(" ++ d ++ ", " ++ v ++ ")")%string
    with (call "strleft" [d; v]) in Es, Ec by (unfold call; same_text).
  pose proof (plain_segment d Hd) as Sd. pose proof (plain_segment v Hv) as Sv.
  set (its1 := [K "strsubstring"; D "("; U (list_ascii_of_string d); D ",";
                K " 1"; D ","; U (" "%char :: list_ascii_of_string v); D ")"]).
  assert (Hok1 : Forall item_ok its1) by (repeat constructor; assumption).
  set (T1 := fstr ["strsubstring("; d; ", 1, "; v; ")"]).
  assert (E1 : T1 = string_of_list_ascii (inst its1)) by (unfold T1; items_text).
  assert (Es' : Re.sub (pattern (rule_at 14)) (replacement (rule_at 14))
                       (call "strleft" [d; v]) true = Ok T1).
  { unfold rule_at. cbn [nth function_mappings pattern replacement].
    rewrite Es. f_equal. unfold T1.
    rewrite string_of_list_ascii_of_string. same_text. }
  change function_mappings
    with (firstn 14 function_mappings ++ rule_at 14 :: skipn 15 function_mappings).
  rewrite run_rules_app, run_rules_cons.
  rewrite (run_rules_no_call (firstn 14 function_mappings) _ (call2_items "strleft" d v));
    [ | vm_compute; reflexivity
      | apply call2_items_ok; [repeat constructor | assumption | assumption]
      | apply call2_items_text ].
  rewrite (first_hit (rule_at 14) _ T1 its1 Es' E1 Ec Hok1)
    by (vm_compute; reflexivity).
  now rewrite (run_rules_no_call _ _ its1)
    by (try assumption; vm_compute; reflexivity).
Qed.

(** [trunc]: the pattern of the rule finds its name at the end of the
    [date_trunc] the rule wrote, and nothing is recorded. *)
Lemma trunc_engine d v :
  plain d -> plain v ->
  run_rules function_mappings (initial (call "trunc" [d; v]))
  = {| sql_content := fstr ["date_trunc("; v; ", "; d; ")"];
       warnings := []; stats := no_stats |}.
Proof.
  intros Hd Hv.
  destruct (call2_step "trunc" "trunc"
              (lambda (fun m => ["date_trunc("; group m 2; ", "; group m 1; ")"]))
              d v eq_refl Hd Hv) as [Es Ec].
  rewrite lambda_apply, call_match_group1, plain_group2 in Es by assumption.
  destruct (prefix_call_step "trunc" (Template "") "date_" "trunc" v d
              eq_refl eq_refl (plain_first_arg v Hv) (plain_second_arg d Hd))
    as [_ Ea].
  { simpl. intuition discriminate. }
  pose proof (plain_segment d Hd) as Sd. pose proof (plain_segment v Hv) as Sv.
  set (its1 := [K "date_trunc"; D "("; U (list_ascii_of_string v); D ",";
                U (" "%char :: list_ascii_of_string d); D ")"]).
  assert (Hok1 : Forall item_ok its1) by (repeat constructor; assumption).
  set (T1 := fstr ["date_trunc("; v; ", "; d; ")"]) in *.
  assert (E1 : T1 = string_of_list_ascii (inst its1)) by (unfold T1; items_text).
  replace ("date_" ++ "trunc" ++ "(" ++ v ++ ", " ++ d ++ ")")%string
    with T1 in Ea by (unfold T1; same_text).
  change function_mappings
    with (firstn 19 function_mappings ++ rule_at 19 :: skipn 20 function_mappings).
  rewrite run_rules_app, run_rules_cons.
  rewrite (run_rules_no_call (firstn 19 function_mappings) _ (call2_items "trunc" d v));
    [ | vm_compute; reflexivity
      | apply call2_items_ok; [repeat constructor | assumption | assumption]
      | apply call2_items_text ].
  assert (E2 : apply_rule (initial (call "trunc" [d; v])) (rule_at 19)
               = {| sql_content := T1; warnings := []; stats := no_stats |}).
  { unfold apply_rule, rule_at.
    cbn [nth function_mappings pattern replacement sql_content initial].
    rewrite Es, Ec, Ea. reflexivity. }
  rewrite E2.
  now rewrite (run_rules_no_call _ _ its1)
    by (try assumption; vm_compute; reflexivity).
Qed.

(** A text that is one call, with two plain arguments, of one of the
    five constructs of [interfered]: the rule engine leaves the state of
    [interference]. [add_months] is counted, but the [date_add] rule
    rewrites its result as an interval with the unit [AS]; [adddate] is
    counted, and the [date_add] rule then fails on its result;
    [date_add] and [trunc] are rewritten and not counted; [strleft] is
    rewritten by the [left] rule and counted for it. The conversion
    returns the text post-processed, with the warnings of the engine
    before those of the validation. *)
Theorem single_call_interfered (name d v : string) (st : state) :
  plain d -> plain v ->
  In (name, st) (interference d v) ->
  run_rules function_mappings (initial (call name [d; v])) = st /\
  exists text,
    _apply_additional_transformations (sql_content st) = Ok text /\
    replace_func (call name [d; v])
    = Returned text (warnings st ++ _validate_converted_sql text) (stats st).
Proof.
  intros Hd Hv Hin.
  assert (H : run_rules function_mappings (initial (call name [d; v])) = st).
  { unfold interference in Hin.
    repeat (destruct Hin as [Hin|Hin]; [injection Hin as <- <-|]);
      try contradiction.
    - now apply add_months_engine.
    - now apply adddate_engine.
    - now apply date_add_engine.
    - now apply strleft_engine.
    - now apply trunc_engine. }
  split; [exact H|].
  destruct (replace_func_returns (call name [d; v])) as (text & Ht & E).
  rewrite H in Ht, E. exists text. split; [exact Ht | exact E].
Qed.

Lemma single_call_interfered_witness :
  run_rules function_mappings (initial "add_months(d, 2)")
  = {| sql_content := "date_add('AS', CAST(d, 'month'))"; warnings := [];
       stats := one_conversion "add_months" |}.
Proof.
  apply (proj1 (single_call_interfered "add_months" "d" "2" _
                  ltac:(repeat constructor; discriminate)
                  ltac:(repeat constructor; discriminate)
                  ltac:(now left))).
Defined.
